(** * LangGraph store: base façade and asynchronous Postgres store

    A shallow embedding of
    - [libs/checkpoint/langgraph/store/base/__init__.py]
      (namespace validation, [Item], the operation tuples, the [BaseStore]
      façade), and
    - [libs/checkpoint-postgres/langgraph/store/postgres/aio.py]
      ([AsyncPostgresStore]: constructors, migration runner, batched
      executor),
    together with the properties the specification states about them
    and, in [BaseExtras] and [PostgresExtras], further properties read
    off the code.

    Python exceptions are values of [exn]; a computation that may raise
    returns a [result]; code that talks to the database threads the
    database explicitly and keeps whatever it changed before an exception
    was raised. *)

From Stdlib Require Import ZArith Ascii String.
From stdpp Require Import gmap strings list fin_maps.

Open Scope string_scope.
Open Scope list_scope.

(** ** Python values, exceptions and the two monads *)

Module Py.

(** The dynamically typed values a namespace label can be. *)
Inductive pyval :=
| PyStr (s : string)
| PyInt (z : Z)
| PyBool (b : bool)
| PyNone.

#[global] Instance pyval_eq_dec : EqDecision pyval.
Proof. solve_decision. Defined.

(** [isinstance(v, str)] *)
Definition isinstance_str (v : pyval) : bool :=
  match v with PyStr _ => true | _ => false end.

(** The raise sites of [_validate_namespace], one constructor per message. *)
Inductive ns_error :=
| NsEmpty
| NsNotString (label : pyval)
| NsPeriod (label : string)
| NsEmptyLabel
| NsReservedRoot.

Inductive exn :=
| InvalidNamespaceError (why : ns_error)
| ValueError (msg : string)
| TypeError (msg : string)
| NameError (name : string)
| IndexError
| RuntimeError (msg : string)
| UndefinedTable
| UniqueViolation
| ProgrammingError
| DatabaseError (msg : string).

Inductive result (A : Type) :=
| Ok (a : A)
| Raise (e : exn).
Arguments Ok {A} a.
Arguments Raise {A} e.

Definition rbind {A B} (m : result A) (k : A -> result B) : result B :=
  match m with
  | Ok a => k a
  | Raise e => Raise e
  end.

Definition rmap {A B} (f : A -> B) (m : result A) : result B :=
  rbind m (fun a => Ok (f a)).

(** A computation over a state [S] that may raise; the state reached when
    the exception was raised is kept. *)
Definition run (S A : Type) : Type := S -> result A * S.

Definition ret {S A} (a : A) : run S A := fun s => (Ok a, s).

Definition bind {S A B} (m : run S A) (k : A -> run S B) : run S B :=
  fun s =>
    match m s with
    | (Ok a, s') => k a s'
    | (Raise e, s') => (Raise e, s')
    end.

Definition lift {S A} (r : result A) : run S A := fun s => (r, s).

(** [seq[i]] for reading: [IndexError] out of range. *)
Definition subscript {A} (l : list A) (i : nat) : result A :=
  match l !! i with
  | Some a => Ok a
  | None => Raise IndexError
  end.

(** [seq[i] = x]: Python raises [IndexError] out of range, where stdpp's
    insert would leave the list as it is. *)
Definition setitem {A} (l : list A) (i : nat) (x : A) : result (list A) :=
  if decide (i < length l) then Ok (<[i := x]> l) else Raise IndexError.

End Py.

Export Py.

Declare Scope py_scope.
Delimit Scope py_scope with py.
Notation "x <- m ;; k" := (bind m (fun x => k))
  (at level 20, m at level 99, k at level 200, only parsing) : py_scope.
Notation "' p <- m ;; k" := (bind m (fun x => let 'p := x in k))
  (at level 20, p pattern, m at level 99, k at level 200, only parsing) : py_scope.
Notation "m ;; k" := (bind m (fun _ => k))
  (at level 100, k at level 200, only parsing, right associativity) : py_scope.
Notation "x <~ m ;; k" := (rbind m (fun x => k))
  (at level 20, m at level 99, k at level 200, only parsing) : py_scope.
Notation "' p <~ m ;; k" := (rbind m (fun x => let 'p := x in k))
  (at level 20, p pattern, m at level 99, k at level 200, only parsing) : py_scope.

(** ** [langgraph/store/base/__init__.py] *)

Module Base.

(** *** [_validate_namespace] *)

(** ["." in label] *)
Definition contains_period (s : string) : bool :=
  existsb (Ascii.eqb ".") (list_ascii_of_string s).

(** [not label] for a string: the empty string is falsy. *)
Definition str_falsy (s : string) : bool :=
  match s with EmptyString => true | _ => false end.

(** The body of [for label in namespace]. *)
Fixpoint validate_labels (labels : list pyval) : result unit :=
  match labels with
  | [] => Ok tt
  | label :: rest =>
      match label with
      | PyStr s =>
          if contains_period s then Raise (InvalidNamespaceError (NsPeriod s))
          else if str_falsy s then Raise (InvalidNamespaceError NsEmptyLabel)
          else validate_labels rest
      | _ => Raise (InvalidNamespaceError (NsNotString label))
      end
  end.

Definition _validate_namespace (namespace : list pyval) : result unit :=
  match namespace with
  | [] => Raise (InvalidNamespaceError NsEmpty)
  | root :: _ =>
      (rbind (validate_labels namespace) (fun _ =>
       if decide (root = PyStr "langgraph")
       then Raise (InvalidNamespaceError NsReservedRoot)
       else Ok tt))
  end.

(** The five ways a namespace is invalid, as the specification lists them. *)
Definition invalid_namespace (ns : list pyval) : Prop :=
  ns = []
  \/ (exists l, l ∈ ns /\ isinstance_str l = false)
  \/ PyStr "" ∈ ns
  \/ (exists s, PyStr s ∈ ns /\ "."%char ∈ list_ascii_of_string s)
  \/ head ns = Some (PyStr "langgraph").

Definition raises_invalid_namespace {A} (r : result A) : Prop :=
  exists why, r = Raise (InvalidNamespaceError why).

(** *** Items and operations *)

Section Store.

(** [V] is the JSON mapping an item carries ([dict[str, Any]]) with Python's
    [==] on it, [datetime] the timestamp type and [Score] the float score of
    a search hit. *)
Context {V : Type} `{EqDecision V}.
Context {datetime : Type} `{EqDecision datetime}.
Context {Score : Type}.

(** [datetime.fromisoformat] on a string, and the built-in [hash] of a
    [(namespace, key)] tuple. *)
Variable fromisoformat : string -> result datetime.
Variable py_hash : list string * string -> Z.

Record Item := mkItem {
  value : V;
  key : string;
  namespace : list string;
  created_at : datetime;
  updated_at : datetime
}.

(** A timestamp argument of [Item.__init__]: an ISO string (when the item
    is deserialized) or a [datetime]. *)
Inductive timestamp_arg :=
| TsStr (s : string)
| TsDatetime (d : datetime).

(** [datetime.fromisoformat(cast(str, a))]: the cast does nothing at run
    time, and [fromisoformat] refuses an argument that is not a string. *)
Definition call_fromisoformat (a : timestamp_arg) : result datetime :=
  match a with
  | TsStr s => fromisoformat s
  | TsDatetime _ => Raise (TypeError "fromisoformat: argument must be str")
  end.

(** [Item.__init__].  Each timestamp is a conditional expression on
    [isinstance(_, str)]; the one for [updated_at] tests [updated_at] and
    parses [created_at], as the source does. *)
Definition Item_init (value : V) (key : string) (namespace : list string)
    (created_at updated_at : timestamp_arg) : result Item :=
  (c <~ match created_at with
        | TsStr _ => call_fromisoformat created_at
        | TsDatetime d => Ok d
        end ;;
   u <~ match updated_at with
        | TsStr _ => call_fromisoformat created_at
        | TsDatetime d => Ok d
        end ;;
   Ok (mkItem value key namespace c u))%py.

(** [SearchItem(Item)]: an item with an optional score. *)
Record SearchItem := mkSearchItem {
  item : Item;
  score : option Score
}.

(** What [other] can be in [Item.__eq__(self, other)]. *)
Inductive pyobject :=
| ObjItem (i : Item)
| ObjSearchItem (s : SearchItem)
| ObjOther (v : pyval).

(** [isinstance(other, Item)], with the item when it holds. *)
Definition as_Item (other : pyobject) : option Item :=
  match other with
  | ObjItem i => Some i
  | ObjSearchItem s => Some (item s)
  | ObjOther _ => None
  end.

(** [Item.__eq__] *)
Definition Item_eq (self : Item) (other : pyobject) : bool :=
  match as_Item other with
  | None => false
  | Some other =>
      bool_decide (value self = value other)
      && bool_decide (key self = key other)
      && bool_decide (namespace self = namespace other)
      && bool_decide (created_at self = created_at other)
      && bool_decide (updated_at self = updated_at other)
  end.

(** [Item.__hash__] *)
Definition Item_hash (self : Item) : Z :=
  py_hash (namespace self, key self).

Record GetOp := mkGetOp {
  get_namespace : list string;
  get_key : string
}.

Record SearchOp := mkSearchOp {
  namespace_prefix : list string;
  search_filter : option V;
  search_limit : Z;
  search_offset : Z;
  query : option string
}.

(** [PutOp.index]: [None] (store default), [False] or a list of paths. *)
Inductive put_index :=
| IndexFalse
| IndexPaths (paths : list string).

Record PutOp := mkPutOp {
  put_namespace : list string;
  put_key : string;
  put_value : option V;
  index : option put_index
}.

Inductive NamespaceMatchType := MatchPrefix | MatchSuffix.

Record MatchCondition := mkMatchCondition {
  match_type : NamespaceMatchType;
  path : list string
}.

Record ListNamespacesOp := mkListNamespacesOp {
  match_conditions : option (list MatchCondition);
  max_depth : option Z;
  list_limit : Z;
  list_offset : Z
}.

Inductive Op :=
| OpGet (op : GetOp)
| OpSearch (op : SearchOp)
| OpPut (op : PutOp)
| OpList (op : ListNamespacesOp).

Inductive Result :=
| RNone
| RItem (i : Item)
| RSearchItems (items : list SearchItem)
| RNamespaces (namespaces : list (list string)).

(** *** The [BaseStore] façade

    [batch] and [abatch] are the two abstract methods; [S] is whatever the
    store behind them keeps. *)

Context {S : Type}.
Variable batch : list Op -> run S (list Result).
Variable abatch : list Op -> run S (list Result).

(** [if prefix:] on an optional tuple. *)
Definition path_truthy (p : option (list string)) : bool :=
  match p with
  | Some (_ :: _) => true
  | _ => false
  end.

Definition build_match_conditions (prefix suffix : option (list string))
  : list MatchCondition :=
  (if path_truthy prefix
   then [mkMatchCondition MatchPrefix (default [] prefix)] else [])
  ++ (if path_truthy suffix
      then [mkMatchCondition MatchSuffix (default [] suffix)] else []).

Definition get (namespace : list string) (key : string) : run S Result :=
  (rs <- batch [OpGet (mkGetOp namespace key)] ;;
   lift (subscript rs 0))%py.

Definition search (namespace_prefix : list string) (query : option string)
    (filter : option V) (limit offset : Z) : run S Result :=
  (rs <- batch [OpSearch (mkSearchOp namespace_prefix filter limit offset query)] ;;
   lift (subscript rs 0))%py.

Definition put (namespace : list string) (key : string) (value : V)
    (index : option put_index) : run S unit :=
  (_ <- lift (_validate_namespace (PyStr <$> namespace)) ;;
   _ <- batch [OpPut (mkPutOp namespace key (Some value) index)] ;;
   ret tt)%py.

Definition delete (namespace : list string) (key : string) : run S unit :=
  (_ <- batch [OpPut (mkPutOp namespace key None None)] ;;
   ret tt)%py.

Definition list_namespaces (prefix suffix : option (list string))
    (max_depth : option Z) (limit offset : Z) : run S Result :=
  (let match_conditions := build_match_conditions prefix suffix in
   let op := mkListNamespacesOp (Some match_conditions) max_depth limit offset in
   rs <- batch [OpList op] ;;
   lift (subscript rs 0))%py.

Definition aget (namespace : list string) (key : string) : run S Result :=
  (rs <- abatch [OpGet (mkGetOp namespace key)] ;;
   lift (subscript rs 0))%py.

Definition asearch (namespace_prefix : list string) (query : option string)
    (filter : option V) (limit offset : Z) : run S Result :=
  (rs <- abatch [OpSearch (mkSearchOp namespace_prefix filter limit offset query)] ;;
   lift (subscript rs 0))%py.

Definition aput (namespace : list string) (key : string) (value : V)
    (index : option put_index) : run S unit :=
  (_ <- lift (_validate_namespace (PyStr <$> namespace)) ;;
   _ <- abatch [OpPut (mkPutOp namespace key (Some value) index)] ;;
   ret tt)%py.

Definition adelete (namespace : list string) (key : string) : run S unit :=
  (_ <- abatch [OpPut (mkPutOp namespace key None None)] ;;
   ret tt)%py.

Definition alist_namespaces (prefix suffix : option (list string))
    (max_depth : option Z) (limit offset : Z) : run S Result :=
  (let match_conditions := build_match_conditions prefix suffix in
   let op := mkListNamespacesOp (Some match_conditions) max_depth limit offset in
   rs <- abatch [OpList op] ;;
   lift (subscript rs 0))%py.

(** The specification's reading of a façade helper: one operation in a
    batch of its own, and the single slot of the reply. *)
Definition singleton_batch (b : list Op -> run S (list Result)) (op : Op)
  : run S Result :=
  fun s =>
    match b [op] s with
    | (Ok (r :: _), s') => (Ok r, s')
    | (Ok [], s') => (Raise IndexError, s')
    | (Raise e, s') => (Raise e, s')
    end.

(** A call made for its effect only: the reply is dropped. *)
Definition discard_reply (b : list Op -> run S (list Result)) (op : Op)
  : run S unit :=
  fun s =>
    match b [op] s with
    | (Ok _, s') => (Ok tt, s')
    | (Raise e, s') => (Raise e, s')
    end.

End Store.

(** *** Facts about [_validate_namespace] *)

(** A label that passes the loop body: a non-empty string without a period. *)
Definition valid_label (l : pyval) : Prop :=
  exists s, l = PyStr s /\ s <> "" /\ "."%char ∉ list_ascii_of_string s.

Lemma contains_period_spec s :
  contains_period s = true <-> "."%char ∈ list_ascii_of_string s.
Proof.
  unfold contains_period. rewrite existsb_exists, list_elem_of_In. split.
  - intros (c & Hin & Hc). apply Ascii.eqb_eq in Hc. by subst.
  - intros Hin. exists "."%char. split; [done | apply Ascii.eqb_refl].
Qed.

Lemma contains_period_false s :
  contains_period s = false <-> "."%char ∉ list_ascii_of_string s.
Proof.
  rewrite <- contains_period_spec. destruct (contains_period s); naive_solver.
Qed.

Lemma str_falsy_spec s : str_falsy s = true <-> s = "".
Proof. destruct s; simpl; split; congruence. Qed.

Lemma validate_labels_result labels :
  validate_labels labels = Ok tt \/ raises_invalid_namespace (validate_labels labels).
Proof.
  induction labels as [|l rest IH]; simpl; [by left |].
  destruct l; try (right; eexists; reflexivity).
  destruct (contains_period s); [right; eexists; reflexivity |].
  destruct (str_falsy s); [right; eexists; reflexivity | done].
Qed.

Lemma validate_labels_ok labels :
  validate_labels labels = Ok tt <-> Forall valid_label labels.
Proof.
  induction labels as [|l rest IH]; simpl.
  - split; [constructor | done].
  - rewrite Forall_cons, <- IH. destruct l as [s| | |]; simpl.
    + destruct (contains_period s) eqn:Hp.
      { apply contains_period_spec in Hp. split; [done |].
        intros [(s' & [= <-] & _ & Hno) _]. done. }
      apply contains_period_false in Hp.
      destruct (str_falsy s) eqn:He.
      { apply str_falsy_spec in He. split; [done |].
        intros [(s' & [= <-] & Hne & _) _]. done. }
      split; [| tauto]. intros Hrest. split; [| done].
      exists s. repeat split; [| done].
      intros ->. simpl in He. done.
    + split; [done | intros [(s' & [=] & _) _]].
    + split; [done | intros [(s' & [=] & _) _]].
    + split; [done | intros [(s' & [=] & _) _]].
Qed.

Lemma not_valid_label l :
  ~ valid_label l <->
  isinstance_str l = false \/ l = PyStr ""
  \/ exists s, l = PyStr s /\ "."%char ∈ list_ascii_of_string s.
Proof.
  split.
  - intros Hn. destruct l as [s| | |]; simpl; auto.
    destruct (decide (s = "")) as [->|Hne]; [auto |].
    destruct (decide ("."%char ∈ list_ascii_of_string s)) as [Hin|Hnin].
    + right. right. by exists s.
    + exfalso. apply Hn. by exists s.
  - intros [Hi | [-> | (s & -> & Hin)]] (s' & Heq & Hne & Hno).
    + subst. done.
    + by injection Heq as <-.
    + by injection Heq as <-.
Qed.

Lemma invalid_namespace_labels ns :
  ns <> [] ->
  head ns <> Some (PyStr "langgraph") ->
  invalid_namespace ns <-> ~ Forall valid_label ns.
Proof.
  intros Hne Hroot. unfold invalid_namespace. split.
  - intros [? | [(l & Hin & Hl) | [Hin | [(s & Hin & Hs) | ?]]]] Hall; try done.
    + rewrite Forall_forall in Hall. apply Hall in Hin.
      apply (proj2 (not_valid_label l)); auto.
    + rewrite Forall_forall in Hall. apply Hall in Hin.
      apply (proj2 (not_valid_label (PyStr ""))); auto.
    + rewrite Forall_forall in Hall. apply Hall in Hin.
      apply (proj2 (not_valid_label (PyStr s))); eauto.
  - intros Hall. apply not_Forall_Exists in Hall; [| intros l].
    + apply Exists_exists in Hall as (l & Hin & Hl).
      apply not_valid_label in Hl as [Hl | [-> | (s & -> & Hs)]].
      * right. left. eauto.
      * right. right. left. done.
      * right. right. right. left. eauto.
    + unfold Decision. destruct l as [s| | |];
        [| right; intros (s' & [=] & _) ..].
      destruct (decide (s = "")) as [->|?];
        [right; by intros (s' & [= <-] & ? & _) |].
      destruct (decide ("."%char ∈ list_ascii_of_string s));
        [right; by intros (s' & [= <-] & _ & ?) |].
      left. by exists s.
Qed.

Lemma validate_namespace_spec (ns : list pyval) :
  (raises_invalid_namespace (_validate_namespace ns) <-> invalid_namespace ns)
  /\ (_validate_namespace ns = Ok tt <-> ~ invalid_namespace ns).
Proof.
  destruct ns as [|root rest].
  { split; split.
    - intros _. by left.
    - intros _. eexists. reflexivity.
    - done.
    - intros Hn. exfalso. apply Hn. by left. }
  unfold _validate_namespace.
  destruct (decide (root = PyStr "langgraph")) as [->|Hroot].
  { assert (invalid_namespace (PyStr "langgraph" :: rest)) as Hinv
      by (repeat right; done).
    split; split; try tauto.
    - intros _. destruct (validate_labels_result (PyStr "langgraph" :: rest))
        as [-> | (why & ->)]; eexists; reflexivity.
    - destruct (validate_labels_result (PyStr "langgraph" :: rest))
        as [-> | (why & ->)]; done. }
  assert (head (root :: rest) <> Some (PyStr "langgraph")) as Hhead
    by (simpl; congruence).
  pose proof (invalid_namespace_labels (root :: rest) ltac:(done) Hhead) as Hinv.
  pose proof (validate_labels_ok (root :: rest)) as Hok.
  destruct (validate_labels_result (root :: rest)) as [E | (why & E)];
    rewrite E; simpl.
  - apply Hok in E. split; split; try tauto.
    + intros (? & [=]).
  - assert (~ Forall valid_label (root :: rest)) as Hn.
    { intros Hall. apply Hok in Hall. congruence. }
    split; split; try tauto; try done.
    intros _. by eexists.
Qed.

(** C4. [_validate_namespace ns] raises [InvalidNamespaceError] exactly when
    [ns] is empty, or has a label that is not a string, or an empty label,
    or a label with a period, or ["langgraph"] as its first label; on every
    other tuple it returns normally. *)
Theorem validate_namespace_raises_iff (ns : list pyval) :
  (raises_invalid_namespace (_validate_namespace ns) <-> invalid_namespace ns)
  /\ (_validate_namespace ns = Ok tt <-> ~ invalid_namespace ns).
Proof. apply validate_namespace_spec. Qed.

(** *** Facts about [Item] and the façade *)

Section StoreFacts.

Context {V : Type} `{EqDecision V}.
Context {datetime : Type} `{EqDecision datetime}.
Context {Score : Type}.
Variable fromisoformat : string -> result datetime.
Variable py_hash : list string * string -> Z.

#[local] Abbreviation Item := (@Item V datetime).
#[local] Abbreviation pyobject := (@pyobject V datetime Score).

(** With both timestamps given as strings, [Item.__init__] parses the
    [created_at] string for both fields. *)
Lemma Item_init_str_timestamps (v : V) k ns c u :
  Item_init fromisoformat v k ns (TsStr c) (TsStr u)
  = rbind (fromisoformat c) (fun c' =>
    rbind (fromisoformat c) (fun u' => Ok (mkItem v k ns c' u'))).
Proof. reflexivity. Qed.

Lemma Item_eq_Item (a b : Item) :
  Item_eq a (ObjItem (Score := Score) b) = true <->
  value a = value b /\ key a = key b /\ namespace a = namespace b
  /\ created_at a = created_at b /\ updated_at a = updated_at b.
Proof.
  unfold Item_eq. simpl.
  rewrite !andb_true_iff, !bool_decide_eq_true. tauto.
Qed.

(** C10. [Item.__eq__] compares all five fields and is false on anything
    that is not an [Item]; [Item.__hash__] is the hash of
    [(namespace, key)]; so equal items have equal hashes, and two items
    with the same namespace and key but another value or timestamp have the
    same hash and are not equal. *)
Theorem Item_eq_structural_hash_identity :
  (forall a b : Item,
     Item_eq a (ObjItem (Score := Score) b) = true <->
     value a = value b /\ key a = key b /\ namespace a = namespace b
     /\ created_at a = created_at b /\ updated_at a = updated_at b)
  /\ (forall (a : Item) (v : pyval),
        Item_eq a (ObjOther (Score := Score) v) = false)
  /\ (forall a : Item, Item_hash py_hash a = py_hash (namespace a, key a))
  /\ (forall a b : Item,
        Item_eq a (ObjItem (Score := Score) b) = true ->
        Item_hash py_hash a = Item_hash py_hash b)
  /\ (forall a b : Item,
        namespace a = namespace b -> key a = key b ->
        value a <> value b \/ created_at a <> created_at b
        \/ updated_at a <> updated_at b ->
        Item_hash py_hash a = Item_hash py_hash b
        /\ Item_eq a (ObjItem (Score := Score) b) = false).
Proof.
  split; [| split; [| split; [| split]]].
  - apply Item_eq_Item.
  - reflexivity.
  - reflexivity.
  - intros a b (_ & Hk & Hn & _)%Item_eq_Item. unfold Item_hash. congruence.
  - intros a b Hn Hk Hd. split; [unfold Item_hash; congruence |].
    apply not_true_is_false. intros (? & _ & _ & ? & ?)%Item_eq_Item.
    tauto.
Qed.

Context {S : Type}.
Variable batch : list (@Op V) -> run S (list (@Result V datetime Score)).
Variable abatch : list (@Op V) -> run S (list (@Result V datetime Score)).

Lemma singleton_batch_unfold (b : list (@Op V) -> run S (list (@Result V datetime Score))) op s :
  (rs <- b [op] ;; lift (subscript rs 0))%py s = singleton_batch b op s.
Proof.
  unfold singleton_batch, bind, lift, subscript.
  destruct (b [op] s) as [[[|r rs]|e] s']; reflexivity.
Qed.

Lemma discard_reply_unfold (b : list (@Op V) -> run S (list (@Result V datetime Score))) op s :
  (_ <- b [op] ;; ret tt)%py s = discard_reply b op s.
Proof.
  unfold discard_reply, bind, ret.
  destruct (b [op] s) as [[rs|e] s']; reflexivity.
Qed.

(** C8. Each façade helper is a batch of one operation: [get], [search]
    and [list_namespaces] return the single slot of the reply; [put]
    validates the namespace first, raises [InvalidNamespaceError] without
    calling [batch] when it is invalid, and otherwise calls [batch] on the
    one [PutOp]; the asynchronous helpers do the same over [abatch]. *)
Theorem facade_helpers_are_singleton_batches :
  (forall ns k s,
     get batch ns k s = singleton_batch batch (OpGet (mkGetOp ns k)) s
     /\ aget abatch ns k s = singleton_batch abatch (OpGet (mkGetOp ns k)) s)
  /\ (forall ns q f limit offset s,
        search batch ns q f limit offset s
        = singleton_batch batch (OpSearch (mkSearchOp ns f limit offset q)) s
        /\ asearch abatch ns q f limit offset s
          = singleton_batch abatch (OpSearch (mkSearchOp ns f limit offset q)) s)
  /\ (forall prefix suffix depth limit offset s,
        let op := OpList (mkListNamespacesOp
                    (Some (build_match_conditions prefix suffix))
                    depth limit offset) in
        list_namespaces batch prefix suffix depth limit offset s
        = singleton_batch batch op s
        /\ alist_namespaces abatch prefix suffix depth limit offset s
          = singleton_batch abatch op s)
  /\ (forall ns k v idx s,
        (invalid_namespace (PyStr <$> ns) ->
         exists why,
           put batch ns k v idx s = (Raise (InvalidNamespaceError why), s)
           /\ aput abatch ns k v idx s = (Raise (InvalidNamespaceError why), s))
        /\ (~ invalid_namespace (PyStr <$> ns) ->
            put batch ns k v idx s
            = discard_reply batch (OpPut (mkPutOp ns k (Some v) idx)) s
            /\ aput abatch ns k v idx s
              = discard_reply abatch (OpPut (mkPutOp ns k (Some v) idx)) s)).
Proof.
  split; [| split; [| split]].
  - intros ns k s. split; apply singleton_batch_unfold.
  - intros ns q f limit offset s. split; apply singleton_batch_unfold.
  - intros prefix suffix depth limit offset s op.
    split; apply singleton_batch_unfold.
  - intros ns k v idx s. split.
    + intros Hinv.
      apply (proj1 (validate_namespace_spec _)) in Hinv as (why & E).
      exists why. unfold put, aput, bind, lift. rewrite E. done.
    + intros Hval.
      apply (proj2 (validate_namespace_spec _)) in Hval.
      rewrite <- !discard_reply_unfold.
      unfold put, aput, bind, lift. rewrite Hval. done.
Qed.

(** C9. [delete] and [adelete] validate nothing: for every namespace, valid
    or not, they hand [PutOp(namespace, key, None)] to [batch] and
    [abatch], and their outcome is the outcome of that call. *)
Theorem delete_skips_namespace_validation :
  forall ns k s,
    delete batch ns k s
    = discard_reply batch (OpPut (mkPutOp ns k None None)) s
    /\ adelete abatch ns k s
      = discard_reply abatch (OpPut (mkPutOp ns k None None)) s.
Proof.
  intros ns k s. split; apply discard_reply_unfold.
Qed.

End StoreFacts.

End Base.

(** ** The Postgres store

    [aio.py] is embedded from its source.  What it imports from
    [langgraph/store/postgres/base.py] (the grouping of operations, the
    planners that turn a group into statements, the row decoders) and the
    database behind the cursor are not part of the sources at hand; they
    are modelled from the specification and marked as such. *)

Module Postgres.

Import Base.

Section Store.

Set Default Proof Using "Type".

Context {V : Type} `{EqDecision V}.
Context {datetime : Type} `{EqDecision datetime}.
Context {Score Vec : Type}.

#[local] Abbreviation Item := (@Item V datetime).
#[local] Abbreviation SearchItem := (@SearchItem V datetime Score).
#[local] Abbreviation Op := (@Op V).
#[local] Abbreviation Result := (@Result V datetime Score).
#[local] Abbreviation SearchOp := (@SearchOp V).
#[local] Abbreviation PutOp := (@PutOp V).

(** *** The store object *)

(** The embedding configuration once [_ensure_index_config] has resolved
    it: the vector dimension and the default paths to index. *)
Record IndexConfig := mkIndexConfig {
  dims : Z;
  fields : list string
}.

(** [Embeddings.aembed_documents]: one call for a list of texts. *)
Definition Embeddings : Type := list string -> list Vec.

(** [isinstance(conn, AsyncConnectionPool)] or a single connection. *)
Inductive Conn := ConnPool | ConnSingle.

Record AsyncPostgresStore := mkStore {
  conn : Conn;
  pipe : bool;                       (* [self.pipe] is set *)
  supports_pipeline : bool;
  index_config : option IndexConfig;
  embeddings : option Embeddings
}.

(** *** Statements, parameters and rows *)

Inductive Param :=
| PNull
| PText (s : string)
| PKeys (keys : list string)
| PJson (v : V)
| PInt (z : Z)
| PVector (v : Vec).

(** The statements the store sends.  A search or list statement is
    determined by its operation; [hybrid] tells the vector form of a search
    from the plain scan. *)
Inductive Sql :=
| SqlSelectVersion
| SqlCreateMigrations
| SqlMigration (sql : string)
| SqlRecordVersion
| SqlGetItems
| SqlSearch (op : SearchOp) (hybrid : bool)
| SqlListNamespaces (op : ListNamespacesOp)
| SqlDeleteItems
| SqlUpsertItems
| SqlUpsertVectors.

Definition Query : Type := Sql * list Param.

Record Row := mkRow {
  row_prefix : string;
  row_key : string;
  row_value : V;
  row_created_at : datetime;
  row_updated_at : datetime;
  row_score : option Score
}.

(** What the last statement left to fetch. *)
Inductive Fetched :=
| NoResult
| ItemRows (rows : list Row)
| NamespaceRows (rows : list string)
| VersionRows (rows : list Z).

(** *** The database

    Modelled from the specification (§6, persistent state layout): the
    table [store_migrations(v)], absent until it is created; the table
    [store] keyed by [(prefix, key)]; the table [store_vectors] keyed by
    [(prefix, key, field_name)]; the migration statements applied so far;
    and the value of [CURRENT_TIMESTAMP]. *)
Record StoredRow := mkStoredRow {
  stored_value : V;
  stored_created_at : datetime;
  stored_updated_at : datetime
}.

Record Database := mkDatabase {
  store_migrations : option (list Z);
  schema : list string;
  store_tbl : gmap (string * string) StoredRow;
  store_vectors : gmap (string * string * string) Vec;
  clock : datetime
}.

(** The evaluation of a search statement and of a list statement by the
    SQL dialect, and which migration statements the backend accepts. *)
Variable search_rows : Database -> Query -> list Row.
Variable list_rows : Database -> Query -> list string.
Variable backend_accepts : string -> bool.

Definition to_row (pk : string * string) (r : StoredRow) : Row :=
  mkRow pk.1 pk.2 (stored_value r) (stored_created_at r)
    (stored_updated_at r) None.

(** [SELECT ... FROM store WHERE prefix = $1 AND key = ANY($2)] *)
Definition select_items (db : Database) (prefix : string)
    (keys : list string) : list Row :=
  (fun e => to_row e.1 e.2)
  <$> map_to_list
        (filter (fun e : (string * string) * StoredRow =>
                   e.1.1 = prefix /\ e.1.2 ∈ keys) (store_tbl db)).

(** [SELECT v FROM store_migrations ORDER BY v DESC LIMIT 1] *)
Definition highest_version (versions : list Z) : list Z :=
  match versions with
  | [] => []
  | v :: rest => [foldr Z.max v rest]
  end.

Definition set_store_tbl (db : Database) tbl : Database :=
  mkDatabase (store_migrations db) (schema db) tbl (store_vectors db) (clock db).

Definition set_store_vectors (db : Database) vecs : Database :=
  mkDatabase (store_migrations db) (schema db) (store_tbl db) vecs (clock db).

(** [DELETE FROM store WHERE prefix = $1 AND key = ANY($2)]; the vector
    rows of a deleted item go with it ([ON DELETE CASCADE]). *)
Definition delete_items (db : Database) (prefix : string)
    (keys : list string) : Database :=
  mkDatabase (store_migrations db) (schema db)
    (filter (fun e : (string * string) * StoredRow =>
               ~ (e.1.1 = prefix /\ e.1.2 ∈ keys)) (store_tbl db))
    (filter (fun e : (string * string * string) * Vec =>
               ~ (e.1.1.1 = prefix /\ e.1.1.2 ∈ keys)) (store_vectors db))
    (clock db).

(** One row of [INSERT ... ON CONFLICT (prefix, key) DO UPDATE SET value =
    EXCLUDED.value, updated_at = now()]. *)
Definition upsert_item (db : Database) (prefix key : string) (v : V)
  : Database :=
  let created :=
    match store_tbl db !! (prefix, key) with
    | Some old => stored_created_at old
    | None => clock db
    end in
  set_store_tbl db
    (<[(prefix, key) := mkStoredRow v created (clock db)]> (store_tbl db)).

Fixpoint upsert_items (db : Database) (params : list Param)
  : result Database :=
  match params with
  | [] => Ok db
  | PText prefix :: PText key :: PJson v :: rest =>
      upsert_items (upsert_item db prefix key v) rest
  | _ => Raise (DatabaseError "upsert: bad parameters")
  end.

(** The vector upsert: the old vector rows of every affected item are
    deleted, then the new [(prefix, key, field_name, embedding)] rows are
    inserted. *)
Fixpoint vector_rows (params : list Param)
  : result (list (string * string * string * Vec)) :=
  match params with
  | [] => Ok []
  | PText prefix :: PText key :: PText field :: PVector v :: rest =>
      rmap (cons (prefix, key, field, v)) (vector_rows rest)
  | _ => Raise (DatabaseError "vector upsert: bad parameters")
  end.

Definition upsert_vectors (db : Database)
    (rows : list (string * string * string * Vec)) : Database :=
  let affected := (fun r : string * string * string * Vec => (r.1.1.1, r.1.1.2)) <$> rows in
  let kept :=
    filter (fun e : (string * string * string) * Vec =>
              (e.1.1.1, e.1.1.2) ∉ affected) (store_vectors db) in
  set_store_vectors db
    (foldl (fun m (r : string * string * string * Vec) =>
              <[(r.1.1.1, r.1.1.2, r.1.2) := r.2]> m) kept rows).

(** What a statement does to the database and what it leaves to fetch. *)
Definition db_execute (q : Query) (db : Database)
  : result (Database * Fetched) :=
  match q with
  | (SqlSelectVersion, _) =>
      match store_migrations db with
      | None => Raise UndefinedTable
      | Some versions => Ok (db, VersionRows (highest_version versions))
      end
  | (SqlCreateMigrations, _) =>
      match store_migrations db with
      | None =>
          Ok (mkDatabase (Some []) (schema db) (store_tbl db)
                (store_vectors db) (clock db), NoResult)
      | Some _ => Ok (db, NoResult)
      end
  | (SqlMigration sql, _) =>
      if backend_accepts sql
      then Ok (mkDatabase (store_migrations db) (schema db ++ [sql])
                 (store_tbl db) (store_vectors db) (clock db), NoResult)
      else Raise (DatabaseError sql)
  | (SqlRecordVersion, [PInt v]) =>
      match store_migrations db with
      | None => Raise UndefinedTable
      | Some versions =>
          if decide (v ∈ versions) then Raise UniqueViolation
          else Ok (mkDatabase (Some (v :: versions)) (schema db)
                     (store_tbl db) (store_vectors db) (clock db), NoResult)
      end
  | (SqlGetItems, [PText prefix; PKeys keys]) =>
      Ok (db, ItemRows (select_items db prefix keys))
  | (SqlSearch _ _, _) => Ok (db, ItemRows (search_rows db q))
  | (SqlListNamespaces _, _) => Ok (db, NamespaceRows (list_rows db q))
  | (SqlDeleteItems, [PText prefix; PKeys keys]) =>
      Ok (delete_items db prefix keys, NoResult)
  | (SqlUpsertItems, params) =>
      rmap (fun db' => (db', NoResult)) (upsert_items db params)
  | (SqlUpsertVectors, params) =>
      rmap (fun rows => (upsert_vectors db rows, NoResult)) (vector_rows params)
  | _ => Raise (DatabaseError "bad parameters")
  end.

(** *** The cursor

    A cursor over the connection: the database, the statements sent so
    far, and the rows of the last statement. *)
Record Cursor := mkCursor {
  db : Database;
  executed : list Query;
  fetched : Fetched
}.

(** [await cur.execute(query, params)] *)
Definition execute (q : Query) : run Cursor unit :=
  fun cur =>
    match db_execute q (db cur) with
    | Ok (db', rows) => (Ok tt, mkCursor db' (executed cur ++ [q]) rows)
    | Raise e => (Raise e, mkCursor (db cur) (executed cur ++ [q]) NoResult)
    end.

(** [await cur.fetchall()], read as rows of items. *)
Definition fetchall_items : run Cursor (list Row) :=
  fun cur =>
    match fetched cur with
    | ItemRows rows => (Ok rows, mkCursor (db cur) (executed cur) (ItemRows []))
    | _ => (Raise ProgrammingError, cur)
    end.

(** [await cur.fetchall()], read as rows of [truncated_prefix]. *)
Definition fetchall_namespaces : run Cursor (list string) :=
  fun cur =>
    match fetched cur with
    | NamespaceRows rows =>
        (Ok rows, mkCursor (db cur) (executed cur) (NamespaceRows []))
    | _ => (Raise ProgrammingError, cur)
    end.

(** [await cur.fetchone()] after the version query: [row["v"]] or [None]. *)
Definition fetchone_version : run Cursor (option Z) :=
  fun cur =>
    match fetched cur with
    | VersionRows [] => (Ok None, cur)
    | VersionRows (v :: rest) =>
        (Ok (Some v), mkCursor (db cur) (executed cur) (VersionRows rest))
    | _ => (Raise ProgrammingError, cur)
    end.

(** [async with self._cursor(...) as cur]: a new cursor on the connection.
    The lock, the pipeline and the transaction it may open decide when
    statements are sent, not what they do. *)
Definition _cursor {A} (body : run Cursor A) : run Cursor A :=
  fun c => body (mkCursor (db c) (executed c) NoResult).

(** *** What [aio.py] imports from [store/postgres/base.py] *)

(** [defaultdict(list)[k].append(x)] on a dictionary kept in insertion
    order. *)
Fixpoint dict_append {K A} `{EqDecision K} (k : K) (x : A)
    (d : list (K * list A)) : list (K * list A) :=
  match d with
  | [] => [(k, [x])]
  | (k', xs) :: rest =>
      if decide (k = k') then (k', xs ++ [x]) :: rest
      else (k', xs) :: dict_append k x rest
  end.

(** [d[k] = x]: a key keeps the place of its first insertion. *)
Fixpoint dict_set {K A} `{EqDecision K} (k : K) (x : A)
    (d : list (K * A)) : list (K * A) :=
  match d with
  | [] => [(k, x)]
  | (k', y) :: rest =>
      if decide (k = k') then (k', x) :: rest
      else (k', y) :: dict_set k x rest
  end.

(** Modelled from the spec: [_group_ops] of [store/postgres/base.py] (§4.4:
    the operations by kind, each with its index in the input, and the
    number of operations).  A kind is a key of the mapping once an
    operation of that kind was appended. *)
Record GroupedOps := mkGroupedOps {
  grouped_get : option (list (nat * GetOp));
  grouped_search : option (list (nat * SearchOp));
  grouped_list : option (list (nat * ListNamespacesOp));
  grouped_put : option (list (nat * PutOp))
}.

Definition group_append {A} (g : option (list A)) (x : A) : option (list A) :=
  Some (default [] g ++ [x]).

Definition group_step (acc : GroupedOps * nat) (op : Op) : GroupedOps * nat :=
  let g := acc.1 in
  let idx := acc.2 in
  (match op with
   | OpGet o =>
       mkGroupedOps (group_append (grouped_get g) (idx, o)) (grouped_search g)
         (grouped_list g) (grouped_put g)
   | OpSearch o =>
       mkGroupedOps (grouped_get g) (group_append (grouped_search g) (idx, o))
         (grouped_list g) (grouped_put g)
   | OpList o =>
       mkGroupedOps (grouped_get g) (grouped_search g)
         (group_append (grouped_list g) (idx, o)) (grouped_put g)
   | OpPut o =>
       mkGroupedOps (grouped_get g) (grouped_search g) (grouped_list g)
         (group_append (grouped_put g) (idx, o))
   end, S idx).

Definition _group_ops (ops : list Op) : GroupedOps * nat :=
  foldl group_step (mkGroupedOps None None None None, 0) ops.

(** Modelled from the spec: the namespace on persistence (§6: joined with
    a period) and on read (split back). *)
Definition _namespace_to_text (namespace : list string) : string :=
  String.concat "." namespace.

Fixpoint _decode_ns_bytes (s : string) : list string :=
  match s with
  | EmptyString => [""]
  | String c rest =>
      if Ascii.eqb c "." then "" :: _decode_ns_bytes rest
      else match _decode_ns_bytes rest with
           | label :: labels => String c label :: labels
           | [] => [String c ""]
           end
  end.

(** Modelled from the spec: a row as an [Item] of the namespace asked for,
    and a search row as a [SearchItem] with its score. *)
Definition _row_to_item (namespace : list string) (row : Row) : Item :=
  mkItem (row_value row) (row_key row) namespace
    (row_created_at row) (row_updated_at row).

Definition _row_to_search_item (namespace : list string) (row : Row)
  : SearchItem :=
  mkSearchItem (_row_to_item namespace row) (row_score row).

(** Modelled from the spec: the Get plan (§4.5): the operations are
    partitioned by namespace, one statement per namespace selecting all
    requested keys; each statement comes with its namespace and the
    [(index, key)] pairs it answers. *)
Definition _get_batch_GET_ops_queries (get_ops : list (nat * GetOp))
  : list (Query * list string * list (nat * string)) :=
  let namespace_groups :=
    foldl (fun groups (e : nat * GetOp) =>
             dict_append (get_namespace e.2) (e.1, get_key e.2) groups)
      [] get_ops in
  (fun g : list string * list (nat * string) =>
     ((SqlGetItems, [PText (_namespace_to_text g.1); PKeys (g.2.*2)]), g.1, g.2))
  <$> namespace_groups.

(** Text extraction along an index path ([get_text_at_path] of
    [store/base/embed.py]). *)
Variable get_text_at_path : V -> string -> list string.

(** The effective index paths of a put: the operation's own, else the
    store default; none when the operation disables indexing. *)
Definition index_paths (cfg : IndexConfig) (op : PutOp) : list string :=
  match index op with
  | Some IndexFalse => []
  | Some (IndexPaths paths) => paths
  | None => fields cfg
  end.

(** Modelled from the spec: the Put plan (§4.5).  Operations on the same
    [(namespace, key)] collapse to the last one; deletions become one
    [DELETE] per namespace; insertions become one upsert; when indexing is
    configured, the texts at the index paths of every insertion are
    returned as the embedding request of the vector upsert. *)
Definition _prepare_batch_PUT_queries (self : AsyncPostgresStore)
    (put_ops : list (nat * PutOp))
  : list Query * option (Sql * list (string * string * string * string)) :=
  let dedupped_ops :=
    (foldl (fun d (e : nat * PutOp) =>
              dict_set (put_namespace e.2, put_key e.2) e.2 d) [] put_ops).*2 in
  let deletes :=
    filter (fun op : PutOp => put_value op = None) dedupped_ops in
  let inserts :=
    omap (fun op : PutOp => (fun v => (op, v)) <$> put_value op) dedupped_ops in
  let delete_groups :=
    foldl (fun groups (op : PutOp) =>
             dict_append (put_namespace op) (put_key op) groups) [] deletes in
  let delete_queries :=
    (fun g : list string * list string =>
       (SqlDeleteItems, [PText (_namespace_to_text g.1); PKeys g.2]))
    <$> delete_groups in
  let insert_queries :=
    match inserts with
    | [] => []
    | _ =>
        [(SqlUpsertItems,
          inserts ≫= (fun e : PutOp * V =>
            [PText (_namespace_to_text (put_namespace e.1));
             PText (put_key e.1); PJson e.2]))]
    end in
  let embedding_rows :=
    match index_config self with
    | None => []
    | Some cfg =>
        inserts ≫= (fun e : PutOp * V =>
          index_paths cfg e.1 ≫= (fun path =>
            (fun text =>
               (_namespace_to_text (put_namespace e.1), put_key e.1, path, text))
            <$> get_text_at_path e.2 path))
    end in
  (delete_queries ++ insert_queries,
   match embedding_rows with
   | [] => None
   | _ => Some (SqlUpsertVectors, embedding_rows)
   end).

(** [if op.query]: a query that is not [None] and not empty. *)
Definition query_text (op : SearchOp) : option string :=
  match query op with
  | Some EmptyString => None
  | q => q
  end.

Definition search_params (op : SearchOp) : list Param :=
  [PText (_namespace_to_text (namespace_prefix op) +:+ "%")]
  ++ match search_filter op with Some f => [PJson f] | None => [] end
  ++ [PInt (search_limit op); PInt (search_offset op)].

(** Modelled from the spec: the Search plan (§4.5), one statement per
    operation: a paged filtered scan, or, when the operation has a query
    and indexing is configured, the hybrid statement, whose first parameter
    is the place of the query vector and which comes with a request to
    embed the query. *)
Definition plan_search (self : AsyncPostgresStore) (op : SearchOp)
  : Query * option string :=
  match query_text op, index_config self with
  | Some q, Some _ => ((SqlSearch op true, PNull :: search_params op), Some q)
  | _, _ => ((SqlSearch op false, search_params op), None)
  end.

(** The embedding requests of a list of planned searches: the position of
    each statement that needs a vector, with the text to embed. *)
Fixpoint embedding_requests_from (idx : nat)
    (planned : list (Query * option string)) : list (nat * string) :=
  match planned with
  | [] => []
  | p :: rest =>
      match p.2 with
      | Some text => (idx, text) :: embedding_requests_from (S idx) rest
      | None => embedding_requests_from (S idx) rest
      end
  end.

Definition _prepare_batch_search_queries (self : AsyncPostgresStore)
    (search_ops : list (nat * SearchOp))
  : list Query * list (nat * string) :=
  let planned := (fun e : nat * SearchOp => plan_search self e.2) <$> search_ops in
  (planned.*1, embedding_requests_from 0 planned).

(** Modelled from the spec: the ListNamespaces plan (§4.5), one statement
    per operation, paginated by its limit and offset. *)
Definition _get_batch_list_namespaces_queries
    (list_ops : list (nat * ListNamespacesOp)) : list Query :=
  (fun e : nat * ListNamespacesOp =>
     (SqlListNamespaces e.2, [PInt (list_limit e.2); PInt (list_offset e.2)]))
  <$> list_ops.

(** *** [AsyncPostgresStore.__init__] and [from_conn_string] *)

(** What a caller can pass for a parameter: [None], a pool or a single
    connection, a pipeline, a deserializer, an embedding configuration
    (its [dims], its [fields] and the embedder it resolves to, if any), or
    an object of the module. *)
Inductive Arg :=
| ArgNone
| ArgConn (c : Conn)
| ArgPipeline
| ArgDeserializer
| ArgEmbeddingConfig (dims : Z) (fields : option (list string))
    (embed : option Embeddings)
| ArgModuleObject (name : string).

(** What the interpreter and the driver answer during construction:
    whether an event loop is running ([asyncio.get_running_loop]), whether
    the driver has pipeline mode ([Capabilities().has_pipeline()]) and
    whether the server at the connection string can be reached. *)
Record Runtime := mkRuntime {
  running_loop : bool;
  has_pipeline : bool;
  reachable : bool
}.

(** The parameters of [__init__] after [self]: [conn] may be passed by
    position or by keyword, the others by keyword only. *)
Definition init_positional : list string := ["conn"].
Definition init_keyword_only : list string := ["pipe"; "deserializer"; "index"].

(** The names bound at module level in [aio.py] (its imports, [logger] and
    the class); a name that is no parameter and is not assigned in a
    function body is looked up here, then in the builtins, none of which
    is called [embedding]. *)
Definition module_globals : list string :=
  ["asyncio"; "logging"; "AsyncIterator"; "Iterable"; "Sequence";
   "asynccontextmanager"; "Any"; "Callable"; "Optional"; "Union"; "cast";
   "orjson"; "AsyncConnection"; "AsyncCursor"; "AsyncPipeline";
   "Capabilities"; "UndefinedTable"; "DictRow"; "dict_row";
   "AsyncConnectionPool"; "_ainternal"; "GetOp"; "ListNamespacesOp"; "Op";
   "PutOp"; "Result"; "SearchOp"; "AsyncBatchedBaseStore";
   "BasePostgresStore"; "PoolConfig"; "PostgresEmbeddingConfig"; "Row";
   "_decode_ns_bytes"; "_ensure_index_config"; "_group_ops"; "_row_to_item";
   "_row_to_search_item"; "logger"; "AsyncPostgresStore"].

(** Reading a name inside the body of [__init__]: a parameter is a local,
    anything else is a global of the module. *)
Definition load_name (locals : gmap string Arg) (name : string) : result Arg :=
  match locals !! name with
  | Some v => Ok v
  | None =>
      if decide (name ∈ module_globals) then Ok (ArgModuleObject name)
      else Raise (NameError name)
  end.

(** Binding the arguments of a call to the parameters: a positional
    argument too many, a keyword that is no parameter, a parameter given
    twice and a missing [conn] are [TypeError]s; the keyword-only
    parameters default to [None]. *)
Fixpoint bind_positional (names : list string) (args : list Arg)
    (locals : gmap string Arg) : result (gmap string Arg) :=
  match args, names with
  | [], _ => Ok locals
  | a :: args', n :: names' => bind_positional names' args' (<[n := a]> locals)
  | _ :: _, [] => Raise (TypeError "too many positional arguments")
  end.

Fixpoint bind_keywords (kwargs : list (string * Arg))
    (locals : gmap string Arg) : result (gmap string Arg) :=
  match kwargs with
  | [] => Ok locals
  | (n, a) :: rest =>
      if decide (n ∈ init_positional ++ init_keyword_only) then
        match locals !! n with
        | Some _ => Raise (TypeError ("multiple values for argument " +:+ n))
        | None => bind_keywords rest (<[n := a]> locals)
        end
      else Raise (TypeError ("unexpected keyword argument " +:+ n))
  end.

Definition bind_arguments (args : list Arg) (kwargs : list (string * Arg))
  : result (gmap string Arg) :=
  (positional <~ bind_positional init_positional args ∅ ;;
   bound <~ bind_keywords kwargs positional ;;
   match bound !! "conn" with
   | None => Raise (TypeError "missing required argument conn")
   | Some _ =>
       Ok (foldr (fun n m => match m !! n with
                             | Some _ => m
                             | None => <[n := ArgNone]> m
                             end) bound init_keyword_only)
   end)%py.

(** [isinstance(conn, AsyncConnectionPool)] *)
Definition is_connection_pool (a : Arg) : bool :=
  match a with ArgConn ConnPool => true | _ => false end.

(** Python's truth value of an argument. *)
Definition truthy (a : Arg) : bool :=
  match a with ArgNone => false | _ => true end.

(** Modelled from the spec: [_ensure_index_config] of
    [store/postgres/base.py] (§4.2: the index configuration is rejected
    unless [dims > 0] and an embedder is resolvable; §6: the default
    [fields] is [["$"]]). *)
Definition _ensure_index_config (a : Arg) : result (Embeddings * IndexConfig) :=
  match a with
  | ArgEmbeddingConfig dims fields (Some embed) =>
      if decide (0 < dims)%Z
      then Ok (embed, mkIndexConfig dims (default ["$"] fields))
      else Raise (ValueError "dims must be positive")
  | ArgEmbeddingConfig _ _ None => Raise (ValueError "no embedder")
  | _ => Raise (TypeError "not an embedding configuration")
  end.

(** The body of [__init__], on the locals the call has bound. *)
Definition __init__ (rt : Runtime) (locals : gmap string Arg)
  : result AsyncPostgresStore :=
  (conn_arg <~ load_name locals "conn" ;;
   pipe_arg <~ load_name locals "pipe" ;;
   if is_connection_pool conn_arg && truthy pipe_arg
   then Raise (ValueError
     "Pipeline should be used only with a single AsyncConnection, not AsyncConnectionPool.")
   else
   (* super().__init__() and asyncio.get_running_loop() *)
   if negb (running_loop rt) then Raise (RuntimeError "no running event loop")
   else
   _ <~ load_name locals "deserializer" ;;
   let conn := match conn_arg with ArgConn c => c | _ => ConnSingle end in
   let supports_pipeline := has_pipeline rt in
   (* self.index_config = embedding *)
   index_config_arg <~ load_name locals "embedding" ;;
   if truthy index_config_arg
   then
     ' (embeddings, index_config) <~ _ensure_index_config index_config_arg ;;
     Ok (mkStore conn (truthy pipe_arg) supports_pipeline
           (Some index_config) (Some embeddings))
   else
     Ok (mkStore conn (truthy pipe_arg) supports_pipeline None None))%py.

(** A call of the class, [AsyncPostgresStore(...)] or [cls(...)], with its
    positional and keyword arguments. *)
Definition construct (rt : Runtime) (args : list Arg)
    (kwargs : list (string * Arg)) : result AsyncPostgresStore :=
  rbind (bind_arguments args kwargs) (__init__ rt).

(** [PoolConfig]: the sizes of the pool. *)
Record PoolConfig := mkPoolConfig {
  min_size : Z;
  max_size : option Z
}.

(** [await AsyncConnection.connect(...)]: the connection of
    [from_conn_string] when there is no pool.  Entering the pool does not
    wait for the server, and opens nothing here. *)
Definition open_connection (rt : Runtime) : result unit :=
  if reachable rt then Ok tt else Raise (DatabaseError "connection failed").

(** [from_conn_string], up to the store it yields. *)
Definition from_conn_string (rt : Runtime) (conn_string : string)
    (pipeline : bool) (pool_config : option PoolConfig) (embedding : Arg)
  : result AsyncPostgresStore :=
  match pool_config with
  | Some _ =>
      construct rt [] [("conn", ArgConn ConnPool); ("embedding", embedding)]
  | None =>
      (_ <~ open_connection rt ;;
       if pipeline
       then construct rt []
              [("conn", ArgConn ConnSingle); ("pipe", ArgPipeline);
               ("embedding", embedding)]
       else construct rt []
              [("conn", ArgConn ConnSingle); ("embedding", embedding)])%py
  end.

(** *** [AsyncPostgresStore.setup] *)

(** A value of [Migration.params]: [None], a literal, or a callable
    evaluated against the store. *)
Inductive ParamValue :=
| ParamNone
| ParamLiteral (text : string)
| ParamCallable (f : AsyncPostgresStore -> string).

Record Migration := mkMigration {
  migration_sql : string;
  migration_params : option (list (string * ParamValue));
  migration_condition : option (AsyncPostgresStore -> bool)
}.

(** An entry of [MIGRATIONS]: a literal statement or a [Migration]. *)
Inductive MigrationEntry :=
| MigrationStr (sql : string)
| MigrationObj (m : Migration).

(** The list [MIGRATIONS] of the class, and Python's [sql % params]. *)
Variable MIGRATIONS : list MigrationEntry.
Variable percent_format : string -> list (string * option string) -> string.

(** [v(self) if v is not None and callable(v) else v] *)
Definition eval_param (self : AsyncPostgresStore) (v : ParamValue)
  : option string :=
  match v with
  | ParamNone => None
  | ParamLiteral text => Some text
  | ParamCallable f => Some (f self)
  end.

(** The statement of one entry, or [None] where the loop says
    [continue]. *)
Definition entry_sql (self : AsyncPostgresStore) (migration : MigrationEntry)
  : option string :=
  match migration with
  | MigrationStr sql => Some sql
  | MigrationObj m =>
      if match migration_condition m with
         | Some condition => negb (condition self)
         | None => false
         end
      then None
      else
        match migration_params m with
        | Some ((_ :: _) as params) =>
            Some (percent_format (migration_sql m)
                    ((fun kv : string * ParamValue => (kv.1, eval_param self kv.2))
                     <$> params))
        | _ => Some (migration_sql m)
        end
  end.

(** [seq[start:]]: a negative start counts from the end. *)
Definition slice_from {A} (l : list A) (start : Z) : list A :=
  if decide (0 <= start)%Z then drop (Z.to_nat start) l
  else drop (Z.to_nat (Z.max 0 (Z.of_nat (length l) + start))) l.

(** [enumerate(seq, start=start)] *)
Fixpoint enumerate_from {A} (start : Z) (l : list A) : list (Z * A) :=
  match l with
  | [] => []
  | x :: rest => (start, x) :: enumerate_from (start + 1)%Z rest
  end.

(** [try: body except UndefinedTable: handler] *)
Definition try_except_UndefinedTable {A} (body handler : run Cursor A)
  : run Cursor A :=
  fun cur =>
    match body cur with
    | (Raise UndefinedTable, cur') => handler cur'
    | outcome => outcome
    end.

(** The [try] statement of [setup]: the version to start from. *)
Definition read_version : run Cursor Z :=
  try_except_UndefinedTable
    (_ <- execute (SqlSelectVersion, []) ;;
     row <- fetchone_version ;;
     ret (match row with None => (-1)%Z | Some v => v end))%py
    (_ <- execute (SqlCreateMigrations, []) ;;
     ret (-1)%Z)%py.

(** The [for] loop of [setup]. *)
Fixpoint apply_migrations (self : AsyncPostgresStore)
    (entries : list (Z * MigrationEntry)) : run Cursor unit :=
  match entries with
  | [] => ret tt
  | (v, migration) :: rest =>
      match entry_sql self migration with
      | None => apply_migrations self rest
      | Some sql =>
          (_ <- execute (SqlMigration sql, []) ;;
           _ <- execute (SqlRecordVersion, [PInt v]) ;;
           apply_migrations self rest)%py
      end
  end.

Definition setup (self : AsyncPostgresStore) : run Cursor unit :=
  _cursor
    (version <- read_version ;;
     apply_migrations self
       (enumerate_from (version + 1)%Z (slice_from MIGRATIONS (version + 1)%Z)))%py.

(** *** The batched executor *)

(** The inner loop of [_batch_get_ops]: one slot per requested key. *)
Fixpoint fill_get_results (namespace : list string)
    (key_to_row : gmap string Row) (items : list (nat * string))
    (results : list Result) : result (list Result) :=
  match items with
  | [] => Ok results
  | (idx, key) :: rest =>
      (results' <~ setitem results idx
                     (match key_to_row !! key with
                      | Some row => RItem (_row_to_item namespace row)
                      | None => RNone
                      end) ;;
       fill_get_results namespace key_to_row rest results')%py
  end.

(** [{row["key"]: row for row in rows}] *)
Definition key_to_row_of (rows : list Row) : gmap string Row :=
  foldl (fun m row => <[row_key row := row]> m) ∅ rows.

Fixpoint run_get_queries
    (queries : list (Query * list string * list (nat * string)))
    (results : list Result) : run Cursor (list Result) :=
  match queries with
  | [] => ret results
  | (q, namespace, items) :: rest =>
      (_ <- execute q ;;
       rows <- fetchall_items ;;
       results' <- lift (fill_get_results namespace (key_to_row_of rows)
                           items results) ;;
       run_get_queries rest results')%py
  end.

Definition _batch_get_ops (self : AsyncPostgresStore)
    (get_ops : list (nat * GetOp)) (results : list Result)
  : run Cursor (list Result) :=
  run_get_queries (_get_batch_GET_ops_queries get_ops) results.

(** [for query, params in queries: await cur.execute(query, params)] *)
Fixpoint execute_all (queries : list Query) : run Cursor unit :=
  match queries with
  | [] => ret tt
  | q :: rest => (_ <- execute q ;; execute_all rest)%py
  end.

(** The parameters of the vector upsert: namespace, key and path of each
    requested text with the vector computed for it. *)
Definition vector_params
    (txt_params : list (string * string * string * string))
    (vectors : list Vec) : list Param :=
  zip txt_params vectors ≫=
    (fun e : (string * string * string * string) * Vec =>
       [PText e.1.1.1.1; PText e.1.1.1.2; PText e.1.1.2; PVector e.2]).

(** The first half of [_batch_put_ops]: the planned statements, with the
    vector upsert appended once its texts are embedded; a request without
    an embedder is the [ValueError] of the source. *)
Definition embed_put_queries (self : AsyncPostgresStore)
    (put_ops : list (nat * PutOp)) : result (list Query) :=
  let planned := _prepare_batch_PUT_queries self put_ops in
  let queries := planned.1 in
  match planned.2 with
  | Some (query, txt_params) =>
      match embeddings self with
      | None =>
          Raise (ValueError
            "Embedding configuration is required for vector operations (for semantic search). Please provide an EmbeddingConfig when initializing the AsyncPostgresStore.")
      | Some aembed_documents =>
          let vectors :=
            aembed_documents ((fun p : string * string * string * string => p.2)
                              <$> txt_params) in
          Ok (queries ++ [(query, vector_params txt_params vectors)])
      end
  | None => Ok queries
  end.

Definition _batch_put_ops (self : AsyncPostgresStore)
    (put_ops : list (nat * PutOp)) : run Cursor unit :=
  (queries <- lift (embed_put_queries self put_ops) ;;
   execute_all queries)%py.

(** [queries[idx][1][0] = vector] *)
Definition set_query_vector (queries : list Query) (idx : nat) (vector : Vec)
  : result (list Query) :=
  (q <~ subscript queries idx ;;
   params <~ setitem q.2 0 (PVector vector) ;;
   Ok (<[idx := (q.1, params)]> queries))%py.

Fixpoint splice_vectors (queries : list Query)
    (requests : list ((nat * string) * Vec)) : result (list Query) :=
  match requests with
  | [] => Ok queries
  | ((idx, _), vector) :: rest =>
      (queries' <~ set_query_vector queries idx vector ;;
       splice_vectors queries' rest)%py
  end.

(** The list comprehension of [_batch_search_ops]: every row as a
    [SearchItem] in the namespace its prefix decodes to. *)
Definition decode_search_rows (rows : list Row) : list SearchItem :=
  (fun row => _row_to_search_item (_decode_ns_bytes (row_prefix row)) row)
  <$> rows.

Fixpoint run_search_queries (pairs : list ((nat * SearchOp) * Query))
    (results : list Result) : run Cursor (list Result) :=
  match pairs with
  | [] => ret results
  | ((idx, _), q) :: rest =>
      (_ <- execute q ;;
       rows <- fetchall_items ;;
       let items := decode_search_rows rows in
       results' <- lift (setitem results idx (RSearchItems items)) ;;
       run_search_queries rest results')%py
  end.

(** The first half of [_batch_search_ops]: the planned statements, with
    the query vectors spliced in when there are embedding requests and an
    embedder. *)
Definition embed_search_queries (self : AsyncPostgresStore)
    (search_ops : list (nat * SearchOp)) : result (list Query) :=
  let planned := _prepare_batch_search_queries self search_ops in
  let embedding_requests := planned.2 in
  match embedding_requests, embeddings self with
  | _ :: _, Some aembed_documents =>
      let vectors := aembed_documents (embedding_requests.*2) in
      splice_vectors planned.1 (zip embedding_requests vectors)
  | _, _ => Ok planned.1
  end.

Definition _batch_search_ops (self : AsyncPostgresStore)
    (search_ops : list (nat * SearchOp)) (results : list Result)
  : run Cursor (list Result) :=
  (queries <- lift (embed_search_queries self search_ops) ;;
   run_search_queries (zip search_ops queries) results)%py.

Fixpoint run_list_queries (pairs : list (Query * (nat * ListNamespacesOp)))
    (results : list Result) : run Cursor (list Result) :=
  match pairs with
  | [] => ret results
  | (q, (idx, _)) :: rest =>
      (_ <- execute q ;;
       rows <- fetchall_namespaces ;;
       let namespaces := _decode_ns_bytes <$> rows in
       results' <- lift (setitem results idx (RNamespaces namespaces)) ;;
       run_list_queries rest results')%py
  end.

Definition _batch_list_namespaces_ops (self : AsyncPostgresStore)
    (list_ops : list (nat * ListNamespacesOp)) (results : list Result)
  : run Cursor (list Result) :=
  run_list_queries (zip (_get_batch_list_namespaces_queries list_ops) list_ops)
    results.

Definition _execute_batch (self : AsyncPostgresStore)
    (grouped_ops : GroupedOps) (results : list Result)
  : run Cursor (list Result) :=
  _cursor
    (results <-
       match grouped_get grouped_ops with
       | Some get_ops => _batch_get_ops self get_ops results
       | None => ret results
       end ;;
     results <-
       match grouped_search grouped_ops with
       | Some search_ops => _batch_search_ops self search_ops results
       | None => ret results
       end ;;
     results <-
       match grouped_list grouped_ops with
       | Some list_ops => _batch_list_namespaces_ops self list_ops results
       | None => ret results
       end ;;
     _ <-
       match grouped_put grouped_ops with
       | Some put_ops => _batch_put_ops self put_ops
       | None => ret tt
       end ;;
     ret results)%py.

(** [abatch].  Taking the connection from [self.conn] and entering
    [self.pipe] change nothing a statement does: both branches of the
    source run [_execute_batch] on the same arguments. *)
Definition abatch (self : AsyncPostgresStore) (ops : list Op)
  : run Cursor (list Result) :=
  let grouped := _group_ops ops in
  let results := replicate grouped.2 RNone in
  if pipe self
  then _execute_batch self grouped.1 results
  else _execute_batch self grouped.1 results.

(** [batch]: the same coroutine, run on the store's loop and waited for. *)
Definition batch (self : AsyncPostgresStore) (ops : list Op)
  : run Cursor (list Result) :=
  abatch self ops.

(** *** Facts about the constructors *)

Definition init_params : list string := init_positional ++ init_keyword_only.

Lemma embedding_no_parameter : "embedding" ∉ init_params.
Proof. apply (proj1 (bool_decide_eq_false _)). reflexivity. Qed.

Lemma embedding_not_positional : "embedding" ∉ init_positional.
Proof. apply (proj1 (bool_decide_eq_false _)). reflexivity. Qed.

Lemma bind_positional_lookup names args locals locals' n :
  bind_positional names args locals = Ok locals' ->
  is_Some (locals' !! n) -> is_Some (locals !! n) \/ n ∈ names.
Proof.
  revert args locals. induction names as [|m names IH]; intros [|a args] locals;
    simpl; intros Hb Hn; try (injection Hb as <-); auto; try done.
  apply IH in Hb; [| done]. destruct Hb as [Hs | Hin].
  - destruct (decide (m = n)) as [->|Hne]; [right; left |].
    rewrite lookup_insert_ne in Hs by done. auto.
  - right. by right.
Qed.

Lemma bind_keywords_lookup kwargs locals locals' n :
  bind_keywords kwargs locals = Ok locals' ->
  is_Some (locals' !! n) -> is_Some (locals !! n) \/ n ∈ init_params.
Proof.
  revert locals. induction kwargs as [|[m a] kwargs IH]; intros locals; simpl.
  - intros [= <-]. auto.
  - case_decide as Hm; [| done].
    destruct (locals !! m) eqn:E; [done |]. intros Hb Hn.
    destruct (IH _ Hb Hn) as [Hs | ?]; [| auto].
    destruct (decide (m = n)) as [->|Hne]; [by right |].
    rewrite lookup_insert_ne in Hs by done. auto.
Qed.

Lemma bind_keywords_mono kwargs locals locals' n :
  bind_keywords kwargs locals = Ok locals' ->
  is_Some (locals !! n) -> locals' !! n = locals !! n.
Proof.
  revert locals. induction kwargs as [|[m a] kwargs IH]; intros locals; simpl.
  - by intros [= <-].
  - case_decide; [| done].
    destruct (locals !! m) eqn:E; [done |]. intros Hb Hn.
    assert (m <> n) by (intros ->; rewrite E in Hn; by destruct Hn).
    rewrite (IH _ Hb); rewrite lookup_insert_ne by done; done.
Qed.

(** The locals of a call that binds: the four parameters and nothing
    else; in particular no local is called [embedding]. *)
Lemma bind_arguments_locals args kwargs locals :
  bind_arguments args kwargs = Ok locals ->
  is_Some (locals !! "conn") /\ is_Some (locals !! "pipe")
  /\ is_Some (locals !! "deserializer") /\ locals !! "embedding" = None.
Proof.
  unfold bind_arguments.
  destruct (bind_positional init_positional args ∅) as [pos|] eqn:Epos; [| done].
  simpl. destruct (bind_keywords kwargs pos) as [bound|] eqn:Ekw; [| done].
  simpl. destruct (bound !! "conn") as [c|] eqn:Ec; [| done].
  intros [= <-].
  assert (bound !! "embedding" = None) as Hemb.
  { apply eq_None_not_Some. intros Hs.
    destruct (bind_keywords_lookup _ _ _ _ Ekw Hs) as [Hs' | Hin].
    - destruct (bind_positional_lookup _ _ _ _ _ Epos Hs') as [Hs'' | Hin].
      + rewrite lookup_empty in Hs''. by destruct Hs''.
      + by apply embedding_not_positional.
    - by apply embedding_no_parameter. }
  simpl.
  destruct (bound !! "index"), (bound !! "deserializer") eqn:Ed,
    (bound !! "pipe") eqn:Ep;
    repeat (rewrite ?lookup_insert_eq, ?Ed, ?Ep;
            try rewrite lookup_insert_ne by done);
    rewrite ?Ec, ?Ed, ?Ep, ?Hemb; eauto.
Qed.

Lemma init_on_bound_locals rt locals :
  is_Some (locals !! "conn") -> is_Some (locals !! "pipe") ->
  is_Some (locals !! "deserializer") -> locals !! "embedding" = None ->
  exists c p,
    locals !! "conn" = Some c /\ locals !! "pipe" = Some p
    /\ __init__ rt locals =
       if is_connection_pool c && truthy p
       then Raise (ValueError
         "Pipeline should be used only with a single AsyncConnection, not AsyncConnectionPool.")
       else if negb (running_loop rt)
            then Raise (RuntimeError "no running event loop")
            else Raise (NameError "embedding").
Proof.
  intros [c Hc] [p Hp] [d Hd] He. exists c, p. repeat split; try done.
  unfold __init__, load_name. rewrite Hc, Hp, Hd, He. simpl.
  destruct (is_connection_pool c && truthy p); [done |].
  destruct (negb (running_loop rt)); done.
Qed.

Lemma construct_raises rt args kwargs :
  exists e, construct rt args kwargs = Raise e.
Proof.
  unfold construct.
  destruct (bind_arguments args kwargs) as [locals|e] eqn:E; [| by exists e].
  apply bind_arguments_locals in E as (Hc & Hp & Hd & He).
  destruct (init_on_bound_locals rt locals Hc Hp Hd He) as (c & p & _ & _ & Hi).
  simpl. rewrite Hi. destruct (is_connection_pool c && truthy p); [by eexists |].
  destruct (negb (running_loop rt)); by eexists.
Qed.

(** C3. No constructor yields a store.  On the locals of any call that
    binds, the body of [__init__] raises: the [ValueError] of a pool with
    a pipeline, the error of a missing event loop, and otherwise the
    [NameError] of the name [embedding], which is no parameter and no
    global; so every call of the class raises.  [from_conn_string] passes
    the keyword [embedding], which [__init__] does not take: once the
    connection is open it raises that [TypeError], and it never yields a
    store. *)
Theorem constructors_never_yield_a_store :
  (forall rt args kwargs locals,
     bind_arguments args kwargs = Ok locals ->
     exists c p,
       locals !! "conn" = Some c /\ locals !! "pipe" = Some p
       /\ __init__ rt locals =
          if is_connection_pool c && truthy p
          then Raise (ValueError
            "Pipeline should be used only with a single AsyncConnection, not AsyncConnectionPool.")
          else if negb (running_loop rt)
               then Raise (RuntimeError "no running event loop")
               else Raise (NameError "embedding"))
  /\ (forall rt args kwargs, exists e, construct rt args kwargs = Raise e)
  /\ (forall rt conn_string pipeline pool_config embedding,
        (exists e,
           from_conn_string rt conn_string pipeline pool_config embedding
           = Raise e)
        /\ (reachable rt = true ->
            from_conn_string rt conn_string pipeline pool_config embedding
            = Raise (TypeError "unexpected keyword argument embedding"))).
Proof.
  split; [| split].
  - intros rt args kwargs locals Hb.
    apply bind_arguments_locals in Hb as (Hc & Hp & Hd & He).
    by apply init_on_bound_locals.
  - apply construct_raises.
  - intros rt conn_string pipeline pool_config embedding.
    unfold from_conn_string, open_connection.
    destruct (reachable rt); simpl.
    + destruct pool_config, pipeline; split; try done; by eexists.
    + destruct pool_config; split; try done; by eexists.
Qed.

(** *** Facts about [setup] *)

(** The version [setup] starts from: the highest recorded one, or [-1]. *)
Definition version_of (versions : list Z) : Z :=
  match highest_version versions with
  | v :: _ => v
  | [] => (-1)%Z
  end.

(** The statements of the entries in a list of numbered entries, without
    the skipped ones. *)
Definition applied_of (self : AsyncPostgresStore)
    (entries : list (Z * MigrationEntry)) : list (Z * string) :=
  omap (fun e : Z * MigrationEntry =>
          (fun sql => (e.1, sql)) <$> entry_sql self e.2) entries.

(** The specification's reading of what a run applies: the entries of
    [MIGRATIONS] whose index is strictly greater than [version], without
    those whose condition is false, each with its index. *)
Definition pending (self : AsyncPostgresStore) (version : Z)
  : list (Z * string) :=
  applied_of self
    (filter (fun e : Z * MigrationEntry => (version < e.1)%Z)
       (enumerate_from 0 MIGRATIONS)).

(** The statements sent for a list of applied migrations. *)
Definition migration_statements (applied : list (Z * string)) : list Query :=
  applied ≫= (fun a : Z * string =>
    [(SqlMigration a.2, []); (SqlRecordVersion, [PInt a.1])]).

(** The database once the migrations [applied] are applied and recorded on
    top of the recorded versions [versions]. *)
Definition after_migrations (d : Database) (versions : list Z)
    (applied : list (Z * string)) : Database :=
  mkDatabase (Some (reverse (applied.*1) ++ versions))
    (schema d ++ applied.*2) (store_tbl d) (store_vectors d) (clock d).

Lemma enumerate_from_lookup {A} (l : list A) start v x :
  (v, x) ∈ enumerate_from start l -> (start <= v)%Z.
Proof.
  revert start. induction l as [|y l IH]; intros start; simpl.
  - by intros ?%elem_of_nil.
  - intros [[= -> ->] | Hin%IH]%elem_of_cons; lia.
Qed.

Lemma filter_enumerate_below {A} (l : list A) start bound :
  (bound < start)%Z ->
  filter (fun e : Z * A => (bound < e.1)%Z) (enumerate_from start l)
  = enumerate_from start l.
Proof.
  revert start. induction l as [|y l IH]; intros start Hlt; simpl; [done |].
  rewrite filter_cons_True by (simpl; lia). f_equal. apply IH. lia.
Qed.

Lemma enumerate_drop {A} (l : list A) (n : nat) start :
  enumerate_from (start + Z.of_nat n) (drop n l)
  = filter (fun e : Z * A => (start + Z.of_nat n - 1 < e.1)%Z)
      (enumerate_from start l).
Proof.
  revert start n. induction l as [|y l IH]; intros start n.
  - by rewrite drop_nil.
  - destruct n as [|n].
    + rewrite drop_0. change (Z.of_nat 0) with 0%Z. rewrite !Z.add_0_r.
      symmetry. apply filter_enumerate_below. lia.
    + cbn [drop enumerate_from].
      rewrite filter_cons_False by (cbn [fst]; lia).
      replace (start + Z.of_nat (S n))%Z
        with ((start + 1) + Z.of_nat n)%Z by lia.
      apply IH.
Qed.

(** From a version that is at least [-1], the slice the loop walks is the
    list of the entries with a greater index. *)
Lemma slice_enumerate (version : Z) :
  (-1 <= version)%Z ->
  enumerate_from (version + 1) (slice_from MIGRATIONS (version + 1))
  = filter (fun e : Z * MigrationEntry => (version < e.1)%Z)
      (enumerate_from 0 MIGRATIONS).
Proof.
  intros Hv. unfold slice_from. rewrite decide_True by lia.
  pose proof (enumerate_drop MIGRATIONS (Z.to_nat (version + 1)) 0) as E.
  rewrite Z2Nat.id in E by lia. rewrite Z.add_0_l in E. rewrite E.
  apply list_filter_iff. intros [v m]. simpl. lia.
Qed.

Lemma highest_version_bound versions v :
  v ∈ versions -> (v <= version_of versions)%Z.
Proof.
  unfold version_of, highest_version.
  destruct versions as [|w rest]; [by intros ?%elem_of_nil |].
  intros [->|Hin]%elem_of_cons.
  - clear. induction rest as [|x rest IH]; simpl; lia.
  - induction rest as [|x rest IH]; simpl; [by apply elem_of_nil in Hin |].
    apply elem_of_cons in Hin as [->|Hin]; [lia |].
    specialize (IH Hin). lia.
Qed.

Lemma version_of_lower versions :
  (forall v, v ∈ versions -> (0 <= v)%Z) -> (-1 <= version_of versions)%Z.
Proof.
  intros Hpos. destruct versions as [|w rest]; [done |].
  pose proof (highest_version_bound (w :: rest) w ltac:(left)) as Hb.
  specialize (Hpos w ltac:(left)). lia.
Qed.

Lemma elem_of_applied_of self entries v sql :
  (v, sql) ∈ applied_of self entries <->
  exists m, (v, m) ∈ entries /\ entry_sql self m = Some sql.
Proof.
  unfold applied_of. rewrite list_elem_of_omap. split.
  - intros ([v' m] & Hin & Heq). simpl in Heq.
    destruct (entry_sql self m) eqn:E; simplify_eq/=. eauto.
  - intros (m & Hin & E). exists (v, m). split; [done |]. simpl. by rewrite E.
Qed.

Lemma elem_of_pending self version v sql :
  (v, sql) ∈ pending self version <->
  (version < v)%Z
  /\ exists m, (v, m) ∈ enumerate_from 0 MIGRATIONS /\ entry_sql self m = Some sql.
Proof.
  unfold pending. rewrite elem_of_applied_of. split.
  - intros (m & [Hlt Hin]%list_elem_of_filter & E). eauto.
  - intros (Hlt & m & Hin & E). exists m. split; [| done].
    apply list_elem_of_filter. done.
Qed.

(** The [try] statement on a new cursor: with the table there, the
    highest version is read; without it, the table is created and the
    version is [-1]. *)
Lemma read_version_run (c : Cursor) :
  fetched c = NoResult ->
  exists f,
    read_version c =
    (Ok (version_of (default [] (store_migrations (db c)))),
     mkCursor
       (mkDatabase (Some (default [] (store_migrations (db c))))
          (schema (db c)) (store_tbl (db c)) (store_vectors (db c))
          (clock (db c)))
       (executed c ++
          match store_migrations (db c) with
          | Some _ => [(SqlSelectVersion, [])]
          | None => [(SqlSelectVersion, []); (SqlCreateMigrations, [])]
          end) f).
Proof.
  intros Hf. destruct c as [d ex f0]. simpl in *. subst f0.
  destruct d as [[versions|] sch tbl vecs clk];
    unfold read_version, try_except_UndefinedTable, bind, execute,
      fetchone_version, ret; simpl.
  - unfold version_of. destruct versions as [|w rest]; simpl; eexists; reflexivity.
  - rewrite <- app_assoc. eexists; reflexivity.
Qed.

Lemma bind_ok {St A B} (m : run St A) (k : A -> run St B) c a c' :
  m c = (Ok a, c') -> bind m k c = k a c'.
Proof. unfold bind. by intros ->. Qed.

Lemma applied_of_cons self v m rest :
  applied_of self ((v, m) :: rest)
  = match entry_sql self m with
    | Some sql => (v, sql) :: applied_of self rest
    | None => applied_of self rest
    end.
Proof. unfold applied_of. simpl. by destruct (entry_sql self m). Qed.

Lemma execute_migration sql (c : Cursor) :
  backend_accepts sql = true ->
  execute (SqlMigration sql, []) c
  = (Ok tt,
     mkCursor
       (mkDatabase (store_migrations (db c)) (schema (db c) ++ [sql])
          (store_tbl (db c)) (store_vectors (db c)) (clock (db c)))
       (executed c ++ [(SqlMigration sql, [])]) NoResult).
Proof. intros Hacc. unfold execute. simpl. by rewrite Hacc. Qed.

Lemma execute_record_version v (c : Cursor) versions :
  store_migrations (db c) = Some versions ->
  v ∉ versions ->
  execute (SqlRecordVersion, [PInt v]) c
  = (Ok tt,
     mkCursor
       (mkDatabase (Some (v :: versions)) (schema (db c))
          (store_tbl (db c)) (store_vectors (db c)) (clock (db c)))
       (executed c ++ [(SqlRecordVersion, [PInt v])]) NoResult).
Proof.
  intros Hv Hfresh. unfold execute. simpl. rewrite Hv.
  by rewrite decide_False by done.
Qed.

(** The loop, on entries numbered from [start], all above the recorded
    versions: the statements of the entries that are not skipped are
    applied in order, and each index is recorded. *)
Lemma apply_migrations_run self (l : list MigrationEntry) :
  forall start (c : Cursor) versions,
    store_migrations (db c) = Some versions ->
    (forall v, v ∈ versions -> (v < start)%Z) ->
    (forall v sql, (v, sql) ∈ applied_of self (enumerate_from start l) ->
                   backend_accepts sql = true) ->
    exists f,
      apply_migrations self (enumerate_from start l) c =
      (Ok tt,
       mkCursor
         (after_migrations (db c) versions
            (applied_of self (enumerate_from start l)))
         (executed c ++
            migration_statements (applied_of self (enumerate_from start l)))
         f).
Proof.
  induction l as [|m l IH]; intros start c versions Hv Hlt Hacc.
  - simpl. unfold after_migrations, ret. simpl.
    destruct c as [[? ? ? ? ?] ? ?]. simpl in *. subst.
    rewrite !app_nil_r. eexists; reflexivity.
  - cbn [enumerate_from apply_migrations]. rewrite applied_of_cons.
    cbn [enumerate_from] in Hacc. rewrite applied_of_cons in Hacc.
    destruct (entry_sql self m) as [sql|] eqn:E.
    + assert (backend_accepts sql = true) as Hsql
        by (apply (Hacc start); left).
      assert (start ∉ versions) as Hfresh
        by (intros Hin%Hlt; lia).
      erewrite bind_ok by (by apply execute_migration).
      erewrite bind_ok by (by apply (execute_record_version _ _ versions)).
      edestruct (IH (start + 1)%Z) as [f Hrun]; [| | | rewrite Hrun].
      * reflexivity.
      * intros v [->|Hin%Hlt]%elem_of_cons; lia.
      * intros v sql' Hin. apply (Hacc v). by right.
      * exists f. unfold after_migrations, migration_statements. simpl.
        rewrite reverse_cons. rewrite <- !app_assoc. reflexivity.
    + edestruct (IH (start + 1)%Z c versions) as [f Hrun]; [done | | |].
      * intros v Hin%Hlt. lia.
      * intros v sql' Hin. by apply (Hacc v).
      * rewrite Hrun. by exists f.
Qed.

(** One run of [setup]. *)
Lemma setup_run self (c : Cursor) :
  let versions := default [] (store_migrations (db c)) in
  (forall v, v ∈ versions -> (0 <= v)%Z) ->
  (forall v sql, (v, sql) ∈ pending self (version_of versions) ->
                 backend_accepts sql = true) ->
  exists f,
    setup self c =
    (Ok tt,
     mkCursor
       (after_migrations (db c) versions (pending self (version_of versions)))
       (executed c ++
          match store_migrations (db c) with
          | Some _ => [(SqlSelectVersion, [])]
          | None => [(SqlSelectVersion, []); (SqlCreateMigrations, [])]
          end ++ migration_statements (pending self (version_of versions)))
       f).
Proof.
  intros versions Hpos Hacc. unfold setup, _cursor.
  destruct (read_version_run (mkCursor (db c) (executed c) NoResult) eq_refl)
    as [f1 Hread]. simpl in Hread.
  erewrite bind_ok by exact Hread. fold versions.
  pose proof (version_of_lower versions Hpos) as Hlow.
  match goal with
  | |- context [apply_migrations _ _ ?c1] =>
      destruct (apply_migrations_run self
                  (slice_from MIGRATIONS (version_of versions + 1))
                  (version_of versions + 1)%Z c1 versions) as [f Hrun]
  end.
  - reflexivity.
  - intros v Hin%highest_version_bound. lia.
  - intros v sql Hin. apply (Hacc v). unfold pending.
    by rewrite <- slice_enumerate by done.
  - rewrite Hrun. exists f. unfold pending.
    rewrite <- slice_enumerate by done. unfold after_migrations. simpl.
    rewrite <- app_assoc. reflexivity.
Qed.

Lemma version_of_least versions bound :
  (forall v, v ∈ versions -> (v <= bound)%Z) -> (-1 <= bound)%Z ->
  (version_of versions <= bound)%Z.
Proof.
  intros Hall Hb. unfold version_of, highest_version.
  destruct versions as [|w rest]; [done |].
  assert (w <= bound)%Z as Hw by (apply Hall; left).
  assert (forall v, v ∈ rest -> (v <= bound)%Z) as Hrest
    by (intros v Hin; apply Hall; by right).
  clear Hall. induction rest as [|x rest IH]; simpl; [done |].
  assert (x <= bound)%Z by (apply Hrest; left).
  assert (foldr Z.max w rest <= bound)%Z
    by (apply IH; intros v Hin; apply Hrest; by right).
  lia.
Qed.



(** *** Facts about the batched executor *)

(** The operations with their index in the input. *)
Fixpoint enumerate {A} (start : nat) (l : list A) : list (nat * A) :=
  match l with
  | [] => []
  | x :: rest => (start, x) :: enumerate (S start) rest
  end.

Definition get_ops_of (l : list (nat * Op)) : list (nat * GetOp) :=
  omap (fun e : nat * Op =>
          match e.2 with OpGet o => Some (e.1, o) | _ => None end) l.

Definition search_ops_of (l : list (nat * Op)) : list (nat * SearchOp) :=
  omap (fun e : nat * Op =>
          match e.2 with OpSearch o => Some (e.1, o) | _ => None end) l.

Definition list_ops_of (l : list (nat * Op)) : list (nat * ListNamespacesOp) :=
  omap (fun e : nat * Op =>
          match e.2 with OpList o => Some (e.1, o) | _ => None end) l.

Definition put_ops_of (l : list (nat * Op)) : list (nat * PutOp) :=
  omap (fun e : nat * Op =>
          match e.2 with OpPut o => Some (e.1, o) | _ => None end) l.

(** A group of the mapping after more operations were appended to it. *)
Definition extend_group {A} (g : option (list A)) (l : list A)
  : option (list A) :=
  match l with
  | [] => g
  | _ => Some (default [] g ++ l)
  end.

(** A list of slot assignments [results[idx] = r], applied in order. *)
Definition apply_writes (results : list Result) (writes : list (nat * Result))
  : list Result :=
  foldl (fun rs (w : nat * Result) => <[w.1 := w.2]> rs) results writes.

Lemma elem_of_enumerate {A} (l : list A) start i x :
  (i, x) ∈ enumerate start l <-> exists j, i = start + j /\ l !! j = Some x.
Proof.
  revert start. induction l as [|y l IH]; intros start; simpl.
  - rewrite elem_of_nil. split; [done | by intros (j & _ & ?)].
  - rewrite elem_of_cons, IH. split.
    + intros [[= -> ->] | (j & -> & Hj)].
      * exists 0. split; [lia | done].
      * exists (S j). split; [lia | done].
    + intros ([|j] & -> & Hj); simpl in Hj.
      * left. injection Hj as ->. f_equal. lia.
      * right. exists j. split; [lia | done].
Qed.

Lemma elem_of_enumerate_0 {A} (l : list A) i x :
  (i, x) ∈ enumerate 0 l <-> l !! i = Some x.
Proof.
  rewrite elem_of_enumerate. split.
  - by intros (j & -> & Hj).
  - intros Hi. by exists i.
Qed.

Lemma extend_group_append {A} (g : option (list A)) x l :
  extend_group (group_append g x) l = extend_group g (x :: l).
Proof.
  unfold extend_group, group_append. destruct l as [|y l]; simpl.
  - reflexivity.
  - by rewrite <- app_assoc.
Qed.

Lemma group_ops_from (ops : list Op) :
  forall g n,
    foldl group_step (g, n) ops
    = (mkGroupedOps
         (extend_group (grouped_get g) (get_ops_of (enumerate n ops)))
         (extend_group (grouped_search g) (search_ops_of (enumerate n ops)))
         (extend_group (grouped_list g) (list_ops_of (enumerate n ops)))
         (extend_group (grouped_put g) (put_ops_of (enumerate n ops))),
       n + length ops).
Proof.
  induction ops as [|op ops IH]; intros g n.
  - simpl. destruct g. f_equal. lia.
  - cbn [foldl enumerate]. unfold group_step at 2. cbn [fst snd].
    rewrite IH. cbn [length].
    replace (S n + length ops) with (n + S (length ops)) by lia.
    unfold get_ops_of, search_ops_of, list_ops_of, put_ops_of.
    destruct op; cbn [omap list_omap fst snd grouped_get grouped_search
                       grouped_list grouped_put];
      rewrite ?extend_group_append; reflexivity.
Qed.

(** [_group_ops] returns, for each kind, the operations of that kind in
    input order with their input index, and the number of operations. *)
Lemma group_ops_spec (ops : list Op) :
  _group_ops ops
  = (mkGroupedOps
       (extend_group None (get_ops_of (enumerate 0 ops)))
       (extend_group None (search_ops_of (enumerate 0 ops)))
       (extend_group None (list_ops_of (enumerate 0 ops)))
       (extend_group None (put_ops_of (enumerate 0 ops))),
     length ops).
Proof. unfold _group_ops. by rewrite group_ops_from. Qed.

Lemma elem_of_get_ops_of (ops : list Op) i o :
  (i, o) ∈ get_ops_of (enumerate 0 ops) <-> ops !! i = Some (OpGet o).
Proof.
  unfold get_ops_of. rewrite list_elem_of_omap. split.
  - intros ([j op] & Hin%elem_of_enumerate_0 & Heq). simpl in Heq.
    destruct op; simplify_eq. done.
  - intros Hi. exists (i, OpGet o). by rewrite elem_of_enumerate_0.
Qed.

Lemma elem_of_search_ops_of (ops : list Op) i o :
  (i, o) ∈ search_ops_of (enumerate 0 ops) <-> ops !! i = Some (OpSearch o).
Proof.
  unfold search_ops_of. rewrite list_elem_of_omap. split.
  - intros ([j op] & Hin%elem_of_enumerate_0 & Heq). simpl in Heq.
    destruct op; simplify_eq. done.
  - intros Hi. exists (i, OpSearch o). by rewrite elem_of_enumerate_0.
Qed.

Lemma elem_of_list_ops_of (ops : list Op) i o :
  (i, o) ∈ list_ops_of (enumerate 0 ops) <-> ops !! i = Some (OpList o).
Proof.
  unfold list_ops_of. rewrite list_elem_of_omap. split.
  - intros ([j op] & Hin%elem_of_enumerate_0 & Heq). simpl in Heq.
    destruct op; simplify_eq. done.
  - intros Hi. exists (i, OpList o). by rewrite elem_of_enumerate_0.
Qed.

Lemma apply_writes_length results writes :
  length (apply_writes results writes) = length results.
Proof.
  revert results. induction writes as [|w writes IH]; intros results; simpl.
  - done.
  - unfold apply_writes in *. simpl. by rewrite IH, length_insert.
Qed.

Lemma apply_writes_app results w1 w2 :
  apply_writes results (w1 ++ w2) = apply_writes (apply_writes results w1) w2.
Proof. apply foldl_app. Qed.

Lemma apply_writes_untouched results writes i :
  i ∉ writes.*1 -> apply_writes results writes !! i = results !! i.
Proof.
  revert results. induction writes as [|[j r] writes IH]; intros results Hi;
    [done |].
  cbn in Hi. apply not_elem_of_cons in Hi as [Hne Hi].
  unfold apply_writes in *. simpl. rewrite IH by done.
  by apply list_lookup_insert_ne.
Qed.

Lemma apply_writes_written results writes i :
  i ∈ writes.*1 -> i < length results ->
  exists r, (i, r) ∈ writes /\ apply_writes results writes !! i = Some r.
Proof.
  revert results. induction writes as [|[j r] writes IH]; intros results Hi Hlen.
  - by apply elem_of_nil in Hi.
  - destruct (decide (i ∈ writes.*1)) as [Hin|Hnin].
    + destruct (IH (<[j := r]> results) Hin) as (r' & Hr' & Hl).
      { by rewrite length_insert. }
      exists r'. split; [by right | done].
    + cbn in Hi. apply elem_of_cons in Hi as [->|?]; [| done].
      exists r. split; [by left |].
      unfold apply_writes. simpl.
      fold (apply_writes (<[j := r]> results) writes).
      rewrite apply_writes_untouched by done.
      by apply list_lookup_insert_eq.
Qed.

(** A phase that writes, for each operation of its group, the reply to
    that operation at the index of the operation: the slots of the group
    hold the replies, the others are as they were. *)
Lemma apply_writes_group {X} (group : list (nat * X)) (rep : X -> Result)
    results writes :
  (forall i r, (i, r) ∈ writes <-> exists x, (i, x) ∈ group /\ r = rep x) ->
  (forall i x x', (i, x) ∈ group -> (i, x') ∈ group -> x = x') ->
  (forall i x, (i, x) ∈ group -> i < length results) ->
  forall i,
    (forall x, (i, x) ∈ group ->
               apply_writes results writes !! i = Some (rep x))
    /\ ((forall x, (i, x) ∉ group) ->
        apply_writes results writes !! i = results !! i).
Proof.
  intros Hw Hfun Hlen i. split.
  - intros x Hx.
    destruct (apply_writes_written results writes i) as (r & Hr & ->).
    + apply list_elem_of_fmap. exists (i, rep x). split; [done |].
      apply Hw. eauto.
    + eauto.
    + apply Hw in Hr as (x' & Hx' & ->). by rewrite (Hfun i x x').
  - intros Hno. apply apply_writes_untouched.
    intros ([j r] & -> & Hin)%list_elem_of_fmap.
    apply Hw in Hin as (x & Hx & _). by apply (Hno x).
Qed.

(** **** The Get phase *)

(** The reply to a Get, read off the [store] table: the item under the
    namespace and key, or [None]. *)
Definition get_result (d : Database) (namespace : list string) (key : string)
  : Result :=
  match store_tbl d !! (_namespace_to_text namespace, key) with
  | Some r =>
      RItem (mkItem (stored_value r) key namespace
               (stored_created_at r) (stored_updated_at r))
  | None => RNone
  end.

Definition get_reply (d : Database) (o : GetOp) : Result :=
  get_result d (get_namespace o) (get_key o).

Definition get_writes (d : Database)
    (queries : list (Query * list string * list (nat * string)))
  : list (nat * Result) :=
  queries ≫= (fun e : Query * list string * list (nat * string) =>
    (fun it : nat * string => (it.1, get_result d e.1.2 it.2)) <$> e.2).

(** The shape of a planned Get statement. *)
Definition get_query_wf (e : Query * list string * list (nat * string)) : Prop :=
  e.1.1 = (SqlGetItems, [PText (_namespace_to_text e.1.2); PKeys (e.2.*2)]).

Lemma elem_of_select_items d prefix keys (r : Row) :
  r ∈ select_items d prefix keys <->
  exists k sr, r = to_row (prefix, k) sr
               /\ store_tbl d !! (prefix, k) = Some sr /\ k ∈ keys.
Proof.
  unfold select_items. rewrite list_elem_of_fmap. split.
  - intros ([[p k] sr] & -> & Hin). simpl.
    apply elem_of_map_to_list, map_lookup_filter_Some in Hin as [Hl [Hp Hk]].
    simpl in *. subst p. eauto.
  - intros (k & sr & -> & Hl & Hk). exists ((prefix, k), sr). split; [done |].
    apply elem_of_map_to_list, map_lookup_filter_Some. done.
Qed.

Lemma select_items_NoDup d prefix keys :
  NoDup (row_key <$> select_items d prefix keys).
Proof.
  unfold select_items. rewrite <- list_fmap_compose.
  apply NoDup_fmap_2_strong; [| apply NoDup_map_to_list].
  intros [[p1 k1] sr1] [[p2 k2] sr2] H1 H2 Hk. simpl in Hk. subst k2.
  apply elem_of_map_to_list, map_lookup_filter_Some in H1 as [Hl1 [Hp1 _]].
  apply elem_of_map_to_list, map_lookup_filter_Some in H2 as [Hl2 [Hp2 _]].
  simpl in *. subst p1 p2. congruence.
Qed.

Lemma key_to_row_lookup (rows : list Row) k r :
  NoDup (row_key <$> rows) ->
  key_to_row_of rows !! k = Some r <-> r ∈ rows /\ row_key r = k.
Proof.
  unfold key_to_row_of. induction rows as [|x rows IH] using rev_ind.
  - intros _. simpl. rewrite lookup_empty, elem_of_nil.
    split; [done | by intros [[] _]].
  - rewrite fmap_app, foldl_snoc. intros [Hnd [Hdisj _]]%NoDup_app.
    specialize (IH Hnd). rewrite elem_of_app, list_elem_of_singleton.
    destruct (decide (row_key x = k)) as [<-|Hne].
    + rewrite lookup_insert_eq. split.
      * intros [= <-]. auto.
      * intros [[Hin | ->] Hk]; [| done]. exfalso.
        apply (Hdisj (row_key r)).
        -- by apply list_elem_of_fmap_2.
        -- rewrite Hk. simpl. left.
    + rewrite lookup_insert_ne by done. rewrite IH. split.
      * intros [Hin Hk]. auto.
      * intros [[Hin | ->] Hk]; [done | congruence].
Qed.

Lemma key_to_row_select d prefix keys k :
  k ∈ keys ->
  key_to_row_of (select_items d prefix keys) !! k
  = to_row (prefix, k) <$> store_tbl d !! (prefix, k).
Proof.
  intros Hk. apply option_eq. intros r.
  rewrite key_to_row_lookup by apply select_items_NoDup.
  rewrite elem_of_select_items. split.
  - intros [(k' & sr & -> & Hl & _) Hkey]. simpl in Hkey. subst k'.
    by rewrite Hl.
  - intros Hr. destruct (store_tbl d !! (prefix, k)) as [sr|] eqn:Hl;
      simplify_eq/=. split; [| done]. eauto.
Qed.

Lemma setitem_ok {A} (l : list A) i x :
  i < length l -> setitem l i x = Ok (<[i := x]> l).
Proof. intros Hi. unfold setitem. by rewrite decide_True. Qed.

Lemma get_result_row d namespace key :
  match to_row (_namespace_to_text namespace, key)
        <$> store_tbl d !! (_namespace_to_text namespace, key) with
  | Some row => RItem (_row_to_item namespace row)
  | None => RNone
  end = get_result d namespace key.
Proof.
  unfold get_result.
  destruct (store_tbl d !! (_namespace_to_text namespace, key)); reflexivity.
Qed.

Lemma fill_get_results_run d namespace keys items :
  forall results,
    (forall it, it ∈ items -> it.1 < length results /\ it.2 ∈ keys) ->
    fill_get_results namespace
      (key_to_row_of (select_items d (_namespace_to_text namespace) keys))
      items results
    = Ok (apply_writes results
            ((fun it : nat * string => (it.1, get_result d namespace it.2))
             <$> items)).
Proof.
  induction items as [|[idx key] items IH]; intros results Hit; [done |].
  destruct (Hit (idx, key)) as [Hlen Hkey]; [left |]. simpl in Hlen, Hkey.
  cbn [fill_get_results]. rewrite setitem_ok by done. cbn [rbind].
  rewrite IH.
  - rewrite key_to_row_select, get_result_row by done. reflexivity.
  - intros it Hin. rewrite length_insert. apply Hit. by right.
Qed.

Lemma execute_get_items prefix keys (c : Cursor) :
  execute (SqlGetItems, [PText prefix; PKeys keys]) c
  = (Ok tt,
     mkCursor (db c)
       (executed c ++ [(SqlGetItems, [PText prefix; PKeys keys])])
       (ItemRows (select_items (db c) prefix keys))).
Proof. reflexivity. Qed.

Lemma run_get_queries_run
    (queries : list (Query * list string * list (nat * string))) :
  forall results (c : Cursor),
    Forall get_query_wf queries ->
    (forall e it, e ∈ queries -> it ∈ e.2 -> it.1 < length results) ->
    exists f,
      run_get_queries queries results c
      = (Ok (apply_writes results (get_writes (db c) queries)),
         mkCursor (db c) (executed c ++ queries.*1.*1) f).
Proof.
  induction queries as [|[[q namespace] items] queries IH];
    intros results c Hwf Hlen.
  - simpl. unfold ret. destruct c. simpl. rewrite app_nil_r. by eexists.
  - apply Forall_cons in Hwf as [Hq Hwf]. unfold get_query_wf in Hq.
    simpl in Hq. subst q. cbn [run_get_queries].
    erewrite bind_ok by apply execute_get_items.
    erewrite bind_ok by reflexivity.
    cbn [db executed fetched].
    rewrite fill_get_results_run.
    2:{ intros it Hin. split.
        - eapply Hlen; [left | done].
        - by apply list_elem_of_fmap_2. }
    erewrite bind_ok by reflexivity.
    edestruct (IH (apply_writes results
                     ((fun it : nat * string =>
                         (it.1, get_result (db c) namespace it.2)) <$> items))
                 (mkCursor (db c)
                    (executed c ++
                       [(SqlGetItems,
                         [PText (_namespace_to_text namespace); PKeys items.*2])])
                    (ItemRows []))) as [f Hrun]; [done | |].
    { intros e it He Hit. rewrite apply_writes_length.
      apply (Hlen e); [by right | done]. }
    rewrite Hrun. exists f. cbn [db executed].
    unfold get_writes at 2. rewrite bind_cons. cbn [fst snd].
    rewrite apply_writes_app. fold (get_writes (db c) queries).
    rewrite !fmap_cons. cbn [fst]. rewrite <- app_assoc. reflexivity.
Qed.

Lemma elem_of_dict_append {K A} `{EqDecision K} (k k' : K) (x y : A)
    (d : list (K * list A)) :
  (exists xs', (k', xs') ∈ dict_append k x d /\ y ∈ xs') <->
  (exists xs, (k', xs) ∈ d /\ y ∈ xs) \/ (k' = k /\ y = x).
Proof.
  induction d as [|[k0 xs0] d IH]; simpl.
  - split.
    + intros (xs' & [= -> ->]%list_elem_of_singleton & ->%list_elem_of_singleton).
      auto.
    + intros [(xs & []%elem_of_nil & _) | [-> ->]].
      exists [x]. split; apply list_elem_of_singleton; done.
  - case_decide as Hk.
    + subst k0. split.
      * intros (xs' & [[= -> ->] | Hin]%elem_of_cons & Hy).
        -- apply elem_of_app in Hy as [Hy | ->%list_elem_of_singleton]; [| auto].
           left. exists xs0. split; [left | done].
        -- left. exists xs'. split; [by right | done].
      * intros [(xs & [[= -> ->] | Hin]%elem_of_cons & Hy) | [-> ->]].
        -- exists (xs0 ++ [x]). split; [left |].
           apply elem_of_app. by left.
        -- exists xs. split; [by right | done].
        -- exists (xs0 ++ [x]). split; [left |].
           apply elem_of_app. right. by apply list_elem_of_singleton.
    + split.
      * intros (xs' & [[= -> ->] | Hin]%elem_of_cons & Hy).
        -- left. exists xs0. split; [left | done].
        -- destruct (proj1 IH) as [(xs & Hxs & Hy') | ?]; [by eauto | | by auto].
           left. exists xs. split; [by right | done].
      * intros [(xs & [[= -> ->] | Hin]%elem_of_cons & Hy) | Heq].
        -- exists xs0. split; [left | done].
        -- destruct (proj2 IH) as (xs' & Hxs' & Hy'); [by eauto |].
           exists xs'. split; [by right | done].
        -- destruct (proj2 IH) as (xs' & Hxs' & Hy'); [by auto |].
           exists xs'. split; [by right | done].
Qed.

(** The Get plan answers every requested [(index, key)] from the statement
    of its namespace, and nothing else. *)
Lemma elem_of_get_queries (get_ops : list (nat * GetOp)) namespace it :
  (exists q items,
     (q, namespace, items) ∈ _get_batch_GET_ops_queries get_ops /\ it ∈ items)
  <-> exists o, (it.1, o) ∈ get_ops
                /\ get_namespace o = namespace /\ get_key o = it.2.
Proof.
  unfold _get_batch_GET_ops_queries.
  set (step := fun groups (e : nat * GetOp) =>
                 dict_append (get_namespace e.2) (e.1, get_key e.2) groups).
  transitivity (exists items, (namespace, items) ∈ foldl step [] get_ops
                              /\ it ∈ items).
  { split.
    - intros (q & items & ([ns its] & [= -> -> ->] & Hin)%list_elem_of_fmap & Hit).
      eauto.
    - intros (items & Hin & Hit). eexists _, items. split; [| done].
      apply list_elem_of_fmap. exists (namespace, items). done. }
  induction get_ops as [|[idx o] get_ops IH] using rev_ind.
  - simpl. split.
    + by intros (? & ?%elem_of_nil & _).
    + by intros (? & ?%elem_of_nil & _).
  - rewrite foldl_snoc. unfold step at 1. cbn [fst snd].
    rewrite elem_of_dict_append, IH. split.
    + intros [(o' & Hin & Hns & Hk) | [-> ->]].
      * exists o'. rewrite elem_of_app. auto.
      * exists o. rewrite elem_of_app, list_elem_of_singleton. auto.
    + intros (o' & [Hin | [= Hi ->]%list_elem_of_singleton]%elem_of_app & Hns & Hk).
      * left. eauto.
      * right. destruct it. simpl in *. subst. done.
Qed.

Lemma get_queries_wf (get_ops : list (nat * GetOp)) :
  Forall get_query_wf (_get_batch_GET_ops_queries get_ops).
Proof.
  unfold _get_batch_GET_ops_queries. apply Forall_fmap, Forall_forall.
  intros [ns items] _. reflexivity.
Qed.

Lemma elem_of_get_writes d (get_ops : list (nat * GetOp)) i r :
  (i, r) ∈ get_writes d (_get_batch_GET_ops_queries get_ops) <->
  exists o, (i, o) ∈ get_ops /\ r = get_reply d o.
Proof.
  unfold get_writes. rewrite list_elem_of_bind. split.
  - intros ([[q ns] items] & ([j key] & [= -> ->] & Hit)%list_elem_of_fmap & Hq).
    simpl in *.
    destruct (proj1 (elem_of_get_queries get_ops ns (j, key)))
      as (o & Ho & Hns & Hk); [by eauto |].
    simpl in *. subst. by exists o.
  - intros (o & Ho & ->).
    destruct (proj2 (elem_of_get_queries get_ops (get_namespace o)
                       (i, get_key o))) as (q & items & Hq & Hit);
      [by exists o |].
    exists (q, get_namespace o, items). split; [| done].
    apply list_elem_of_fmap. exists (i, get_key o). done.
Qed.

(** What a phase leaves in [results]: the slots of its own operations
    hold the replies to them, every other slot is as it was. *)
Definition phase_post {X} (inj : X -> Op) (rep : X -> Result)
    (ops : list Op) (results results' : list Result) : Prop :=
  length results' = length results
  /\ forall i,
       (forall x, ops !! i = Some (inj x) -> results' !! i = Some (rep x))
       /\ ((forall x, ops !! i <> Some (inj x)) ->
           results' !! i = results !! i).

Lemma batch_get_ops_run self (ops : list Op) results (c : Cursor) :
  length results = length ops ->
  exists f results',
    _batch_get_ops self (get_ops_of (enumerate 0 ops)) results c
    = (Ok results',
       mkCursor (db c)
         (executed c ++
            (_get_batch_GET_ops_queries (get_ops_of (enumerate 0 ops))).*1.*1)
         f)
    /\ phase_post OpGet (get_reply (db c)) ops results results'.
Proof.
  intros Hlen. unfold _batch_get_ops.
  set (get_ops := get_ops_of (enumerate 0 ops)).
  assert (forall i o, (i, o) ∈ get_ops -> i < length results) as Hrange.
  { intros i o Hin%elem_of_get_ops_of. rewrite Hlen.
    by apply lookup_lt_Some in Hin. }
  destruct (run_get_queries_run (_get_batch_GET_ops_queries get_ops) results c)
    as [f Hrun].
  - apply get_queries_wf.
  - intros [[q ns] items] it He Hit.
    destruct (proj1 (elem_of_get_queries get_ops ns it))
      as (o & Ho & _); [by eauto |]. by apply (Hrange _ o).
  - exists f. eexists. split; [exact Hrun |]. split.
    + apply apply_writes_length.
    + intros i.
      destruct (apply_writes_group get_ops (get_reply (db c)) results
                  (get_writes (db c) (_get_batch_GET_ops_queries get_ops)))
        with (i := i) as [Hyes Hno].
      * apply elem_of_get_writes.
      * intros j x x' Hx%elem_of_get_ops_of Hx'%elem_of_get_ops_of. congruence.
      * done.
      * split.
        -- intros x Hx. apply Hyes. by apply elem_of_get_ops_of.
        -- intros Hx. apply Hno. intros x Hin%elem_of_get_ops_of.
           by apply (Hx x).
Qed.

(** **** The Search phase *)

(** The statement sent for a search once its query, if it has one and
    there is an embedder, is embedded on its own. *)
Definition final_query (self : AsyncPostgresStore) (o : SearchOp) : Query :=
  let p := plan_search self o in
  match p.2, embeddings self with
  | Some text, Some aembed_documents =>
      match aembed_documents [text] with
      | v :: _ => (p.1.1, <[0 := PVector v]> p.1.2)
      | [] => p.1
      end
  | _, _ => p.1
  end.

(** The reply to a Search: the items its statement selects. *)
Definition search_reply (self : AsyncPostgresStore) (d : Database)
    (o : SearchOp) : Result :=
  RSearchItems (decode_search_rows (search_rows d (final_query self o))).

(** The contract of an embedder (§4.2): one vector per text, in order. *)
Definition embedder_aligned (self : AsyncPostgresStore) : Prop :=
  forall aembed_documents,
    embeddings self = Some aembed_documents ->
    exists embed_one : string -> Vec,
      forall texts, aembed_documents texts = embed_one <$> texts.

Definition search_writes (d : Database)
    (pairs : list ((nat * SearchOp) * Query)) : list (nat * Result) :=
  (fun e : (nat * SearchOp) * Query =>
     (e.1.1, RSearchItems (decode_search_rows (search_rows d e.2))))
  <$> pairs.

Lemma run_search_queries_run (pairs : list ((nat * SearchOp) * Query)) :
  forall results (c : Cursor),
    Forall (fun e : (nat * SearchOp) * Query =>
              exists o hybrid, e.2.1 = SqlSearch o hybrid) pairs ->
    (forall e, e ∈ pairs -> e.1.1 < length results) ->
    exists f,
      run_search_queries pairs results c
      = (Ok (apply_writes results (search_writes (db c) pairs)),
         mkCursor (db c) (executed c ++ pairs.*2) f).
Proof.
  induction pairs as [|[[idx o] [sql params]] pairs IH];
    intros results c Hwf Hlen.
  - simpl. unfold ret. destruct c. simpl. rewrite app_nil_r. by eexists.
  - apply Forall_cons in Hwf as [(o' & hybrid & Hsql) Hwf]. simpl in Hsql.
    subst sql. cbn [run_search_queries].
    erewrite bind_ok by reflexivity.
    erewrite bind_ok by reflexivity.
    cbn [db executed fetched].
    assert (idx < length results) as Hidx
      by (apply (Hlen (idx, o, (SqlSearch o' hybrid, params))); left).
    rewrite setitem_ok by done.
    erewrite bind_ok by reflexivity.
    edestruct (IH (<[idx := RSearchItems
                     (decode_search_rows
                        (search_rows (db c) (SqlSearch o' hybrid, params)))]>
                     results)
                 (mkCursor (db c)
                    (executed c ++ [(SqlSearch o' hybrid, params)])
                    (ItemRows []))) as [f Hrun]; [done | |].
    { intros e He. rewrite length_insert. apply Hlen. by right. }
    exists f. etransitivity; [exact Hrun |].
    cbn [db executed]. rewrite !fmap_cons. cbn [snd].
    rewrite <- app_assoc. reflexivity.
Qed.

Lemma zip_requests {B} (f : string -> B) (requests : list (nat * string)) :
  zip requests (f <$> requests.*2)
  = (fun r : nat * string => (r, f r.2)) <$> requests.
Proof. induction requests as [|r l IH]; simpl; [done | f_equal; apply IH]. Qed.

(** The statement of a planned search once its vector is spliced in. *)
Definition spliced (embed_one : string -> Vec) (p : Query * option string)
  : Query :=
  match p.2 with
  | Some text => (p.1.1, <[0 := PVector (embed_one text)]> p.1.2)
  | None => p.1
  end.

Lemma splice_vectors_run (embed_one : string -> Vec)
    (planned : list (Query * option string)) :
  forall (done : list Query),
    (forall p text, p ∈ planned -> p.2 = Some text -> p.1.2 <> []) ->
    splice_vectors (done ++ planned.*1)
      ((fun r : nat * string => (r, embed_one r.2))
       <$> embedding_requests_from (length done) planned)
    = Ok (done ++ (spliced embed_one <$> planned)).
Proof.
  induction planned as [|[q [text|]] planned IH]; intros done Hne.
  - reflexivity.
  - cbn [embedding_requests_from snd]. rewrite !fmap_cons.
    cbn [fst snd splice_vectors].
    unfold set_query_vector at 1, subscript.
    rewrite list_lookup_middle by done. cbn [rbind snd fst].
    assert (q.2 <> []) as Hq by (apply (Hne (q, Some text) text); [left | done]).
    rewrite setitem_ok by (destruct (q.2); [done | simpl; lia]).
    cbn [rbind].
    replace (<[length done := (q.1, <[0 := PVector (embed_one text)]> q.2)]>
               (done ++ q :: planned.*1))
      with ((done ++ [(q.1, <[0 := PVector (embed_one text)]> q.2)])
              ++ planned.*1).
    2:{ rewrite insert_app_r_alt by done. rewrite Nat.sub_diag. simpl.
        by rewrite <- app_assoc. }
    replace (S (length done))
      with (length (done ++ [(q.1, <[0 := PVector (embed_one text)]> q.2)]))
      by (rewrite length_app; simpl; lia).
    rewrite IH by (intros p t Hp; apply Hne; by right).
    rewrite <- app_assoc. reflexivity.
  - cbn [embedding_requests_from snd]. rewrite !fmap_cons. cbn [fst].
    replace (done ++ q :: planned.*1) with ((done ++ [q]) ++ planned.*1)
      by (by rewrite <- app_assoc).
    replace (S (length done)) with (length (done ++ [q]))
      by (rewrite length_app; simpl; lia).
    rewrite IH by (intros p t Hp; apply Hne; by right).
    rewrite <- app_assoc. reflexivity.
Qed.

Lemma plan_search_params self o text :
  (plan_search self o).2 = Some text -> (plan_search self o).1.2 <> [].
Proof.
  unfold plan_search. destruct (query_text o), (index_config self); done.
Qed.

(** With an aligned embedder, or none, every search is sent as the
    statement it would be sent as on its own. *)
Lemma embed_search_queries_run self (search_ops : list (nat * SearchOp)) :
  embedder_aligned self ->
  embed_search_queries self search_ops
  = Ok (final_query self <$> search_ops.*2).
Proof.
  intros Hal. unfold embed_search_queries, _prepare_batch_search_queries.
  cbn [fst snd].
  set (planned := (fun e : nat * SearchOp => plan_search self e.2) <$> search_ops).
  destruct (embeddings self) as [aembed|] eqn:Hemb.
  - destruct (Hal aembed Hemb) as [embed_one Hone].
    assert (splice_vectors planned.*1
              (zip (embedding_requests_from 0 planned)
                 (aembed (embedding_requests_from 0 planned).*2))
            = Ok (final_query self <$> search_ops.*2)) as Hsplice.
    { rewrite Hone, zip_requests.
      pose proof (splice_vectors_run embed_one planned []) as Hs.
      cbn [app length] in Hs. rewrite Hs.
      - f_equal. unfold planned. rewrite <- !list_fmap_compose.
        apply list_fmap_ext. intros _ [idx o] _. simpl.
        unfold spliced, final_query. rewrite Hemb.
        destruct (plan_search self o).2; [| done].
        by rewrite Hone.
      - intros p text ([idx o] & -> & _)%list_elem_of_fmap.
        apply plan_search_params. }
    destruct (embedding_requests_from 0 planned) eqn:Hreq; [| exact Hsplice].
    simpl in Hsplice. exact Hsplice.
  - assert (planned.*1 = final_query self <$> search_ops.*2) as ->.
    { unfold planned. rewrite <- !list_fmap_compose.
      apply list_fmap_ext. intros _ [idx o] _. simpl.
      unfold final_query. rewrite Hemb.
      by destruct (plan_search self o).2. }
    by destruct (embedding_requests_from 0 planned).
Qed.

Lemma zip_fmap_snd {A B C} (g : B -> C) (l : list (A * B)) :
  zip l (g <$> l.*2) = (fun e : A * B => (e, g e.2)) <$> l.
Proof. induction l as [|e l IH]; simpl; [done | f_equal; apply IH]. Qed.

Lemma zip_fmap_self_r {A C} (g : A -> C) (l : list A) :
  zip (g <$> l) l = (fun e : A => (g e, e)) <$> l.
Proof. induction l as [|e l IH]; simpl; [done | f_equal; apply IH]. Qed.

Lemma final_query_sql self o :
  exists o' hybrid, (final_query self o).1 = SqlSearch o' hybrid.
Proof.
  unfold final_query, plan_search.
  destruct (query_text o), (index_config self), (embeddings self) as [e|];
    cbn [fst snd]; try destruct (e [s]); cbn [fst snd]; eauto.
Qed.

Lemma batch_search_ops_run self (ops : list Op) results (c : Cursor) :
  embedder_aligned self ->
  length results = length ops ->
  exists f results',
    _batch_search_ops self (search_ops_of (enumerate 0 ops)) results c
    = (Ok results',
       mkCursor (db c)
         (executed c ++
            (final_query self <$> (search_ops_of (enumerate 0 ops)).*2))
         f)
    /\ phase_post OpSearch (search_reply self (db c)) ops results results'.
Proof.
  intros Hal Hlen. unfold _batch_search_ops.
  set (search_ops := search_ops_of (enumerate 0 ops)).
  rewrite (embed_search_queries_run self search_ops Hal).
  erewrite bind_ok by reflexivity. rewrite zip_fmap_snd.
  assert (forall i o, (i, o) ∈ search_ops -> i < length results) as Hrange.
  { intros i o Hin%elem_of_search_ops_of. rewrite Hlen.
    by apply lookup_lt_Some in Hin. }
  edestruct (run_search_queries_run
               ((fun e : nat * SearchOp => (e, final_query self e.2))
                <$> search_ops) results c) as [f Hrun].
  - apply Forall_fmap, Forall_forall. intros [i o] _. simpl.
    apply final_query_sql.
  - intros e ([i o] & -> & Hin)%list_elem_of_fmap. simpl. by apply (Hrange i o).
  - exists f. eexists. split.
    + etransitivity; [exact Hrun |]. rewrite <- !list_fmap_compose. done.
    + split; [apply apply_writes_length |]. intros i.
      destruct (apply_writes_group search_ops (search_reply self (db c)) results
                  (search_writes (db c)
                     ((fun e : nat * SearchOp => (e, final_query self e.2))
                      <$> search_ops)))
        with (i := i) as [Hyes Hno].
      * intros j r. unfold search_writes. rewrite <- list_fmap_compose.
        rewrite list_elem_of_fmap. split.
        -- intros ([j' o] & [= -> ->] & Hin). by exists o.
        -- intros (o & Hin & ->). by exists (j, o).
      * intros j x x' Hx%elem_of_search_ops_of Hx'%elem_of_search_ops_of.
        congruence.
      * done.
      * split.
        -- intros x Hx. apply Hyes. by apply elem_of_search_ops_of.
        -- intros Hx. apply Hno. intros x Hin%elem_of_search_ops_of.
           by apply (Hx x).
Qed.

(** **** The ListNamespaces phase *)

Definition list_query (o : ListNamespacesOp) : Query :=
  (SqlListNamespaces o, [PInt (list_limit o); PInt (list_offset o)]).

(** The reply to a ListNamespaces: the namespaces its statement selects. *)
Definition list_reply (d : Database) (o : ListNamespacesOp) : Result :=
  RNamespaces (_decode_ns_bytes <$> list_rows d (list_query o)).

Definition list_writes (d : Database)
    (pairs : list (Query * (nat * ListNamespacesOp))) : list (nat * Result) :=
  (fun e : Query * (nat * ListNamespacesOp) =>
     (e.2.1, RNamespaces (_decode_ns_bytes <$> list_rows d e.1)))
  <$> pairs.

Lemma run_list_queries_run (pairs : list (Query * (nat * ListNamespacesOp))) :
  forall results (c : Cursor),
    Forall (fun e : Query * (nat * ListNamespacesOp) =>
              exists o, e.1.1 = SqlListNamespaces o) pairs ->
    (forall e, e ∈ pairs -> e.2.1 < length results) ->
    exists f,
      run_list_queries pairs results c
      = (Ok (apply_writes results (list_writes (db c) pairs)),
         mkCursor (db c) (executed c ++ pairs.*1) f).
Proof.
  induction pairs as [|[[sql params] [idx o]] pairs IH];
    intros results c Hwf Hlen.
  - simpl. unfold ret. destruct c. simpl. rewrite app_nil_r. by eexists.
  - apply Forall_cons in Hwf as [(o' & Hsql) Hwf]. simpl in Hsql.
    subst sql. cbn [run_list_queries].
    erewrite bind_ok by reflexivity.
    erewrite bind_ok by reflexivity.
    cbn [db executed fetched].
    assert (idx < length results) as Hidx
      by (apply (Hlen (SqlListNamespaces o', params, (idx, o))); left).
    rewrite setitem_ok by done.
    erewrite bind_ok by reflexivity.
    edestruct (IH (<[idx := RNamespaces
                     (_decode_ns_bytes
                      <$> list_rows (db c) (SqlListNamespaces o', params))]>
                     results)
                 (mkCursor (db c)
                    (executed c ++ [(SqlListNamespaces o', params)])
                    (NamespaceRows []))) as [f Hrun]; [done | |].
    { intros e He. rewrite length_insert. apply Hlen. by right. }
    exists f. etransitivity; [exact Hrun |].
    cbn [db executed]. rewrite !fmap_cons. cbn [fst].
    rewrite <- app_assoc. reflexivity.
Qed.

Lemma batch_list_namespaces_ops_run self (ops : list Op) results (c : Cursor) :
  length results = length ops ->
  exists f results',
    _batch_list_namespaces_ops self (list_ops_of (enumerate 0 ops)) results c
    = (Ok results',
       mkCursor (db c)
         (executed c ++ (list_query <$> (list_ops_of (enumerate 0 ops)).*2))
         f)
    /\ phase_post OpList (list_reply (db c)) ops results results'.
Proof.
  intros Hlen. unfold _batch_list_namespaces_ops,
    _get_batch_list_namespaces_queries.
  set (list_ops := list_ops_of (enumerate 0 ops)).
  change (fun e : nat * ListNamespacesOp =>
            (SqlListNamespaces e.2, [PInt (list_limit e.2); PInt (list_offset e.2)]))
    with (fun e : nat * ListNamespacesOp => list_query e.2).
  rewrite zip_fmap_self_r.
  assert (forall i o, (i, o) ∈ list_ops -> i < length results) as Hrange.
  { intros i o Hin%elem_of_list_ops_of. rewrite Hlen.
    by apply lookup_lt_Some in Hin. }
  edestruct (run_list_queries_run
               ((fun e : nat * ListNamespacesOp => (list_query e.2, e))
                <$> list_ops) results c) as [f Hrun].
  - apply Forall_fmap, Forall_forall. intros [i o] _. simpl. by exists o.
  - intros e ([i o] & -> & Hin)%list_elem_of_fmap. simpl. by apply (Hrange i o).
  - exists f. eexists. split.
    + etransitivity; [exact Hrun |]. rewrite <- !list_fmap_compose. done.
    + split; [apply apply_writes_length |]. intros i.
      destruct (apply_writes_group list_ops (list_reply (db c)) results
                  (list_writes (db c)
                     ((fun e : nat * ListNamespacesOp => (list_query e.2, e))
                      <$> list_ops)))
        with (i := i) as [Hyes Hno].
      * intros j r. unfold list_writes. rewrite <- list_fmap_compose.
        rewrite list_elem_of_fmap. split.
        -- intros ([j' o] & [= -> ->] & Hin). by exists o.
        -- intros (o & Hin & ->). by exists (j, o).
      * intros j x x' Hx%elem_of_list_ops_of Hx'%elem_of_list_ops_of.
        congruence.
      * done.
      * split.
        -- intros x Hx. apply Hyes. by apply elem_of_list_ops_of.
        -- intros Hx. apply Hno. intros x Hin%elem_of_list_ops_of.
           by apply (Hx x).
Qed.

(** **** The Put phase *)

(** The kind of operation a statement serves. *)
Inductive StatementKind := KGet | KSearch | KList | KPut | KSetup.

Definition statement_kind (q : Query) : StatementKind :=
  match q.1 with
  | SqlGetItems => KGet
  | SqlSearch _ _ => KSearch
  | SqlListNamespaces _ => KList
  | SqlDeleteItems | SqlUpsertItems | SqlUpsertVectors => KPut
  | _ => KSetup
  end.

(** A write statement that the database takes, whatever its state. *)
Definition put_statement (q : Query) : Prop :=
  statement_kind q = KPut
  /\ forall d, exists d', db_execute q d = Ok (d', NoResult).

Lemma execute_all_run (qs : list Query) :
  forall c : Cursor,
    Forall put_statement qs ->
    exists c', execute_all qs c = (Ok tt, c')
               /\ executed c' = executed c ++ qs.
Proof.
  induction qs as [|q qs IH]; intros c Hqs.
  - exists c. split; [done | by rewrite app_nil_r].
  - apply Forall_cons in Hqs as [[_ Hq] Hqs].
    destruct (Hq (db c)) as [d' Hd'].
    destruct (IH (mkCursor d' (executed c ++ [q]) NoResult) Hqs)
      as (c' & Hrun & Hex).
    exists c'. split.
    + cbn [execute_all]. erewrite bind_ok; [exact Hrun |].
      unfold execute. by rewrite Hd'.
    + rewrite Hex. simpl. by rewrite <- app_assoc.
Qed.

Lemma upsert_items_ok (inserts : list (PutOp * V)) :
  forall d, exists d',
    upsert_items d
      (inserts ≫= (fun e : PutOp * V =>
         [PText (_namespace_to_text (put_namespace e.1));
          PText (put_key e.1); PJson e.2]))
    = Ok d'.
Proof.
  induction inserts as [|e inserts IH]; intros d.
  - by exists d.
  - rewrite bind_cons. simpl. apply IH.
Qed.

Lemma vector_rows_ok (txt_params : list (string * string * string * string)) :
  forall vectors : list Vec,
    exists rows, vector_rows (vector_params txt_params vectors) = Ok rows.
Proof.
  unfold vector_params.
  induction txt_params as [|t txt IH]; intros [|v vectors]; try by eexists.
  cbn [zip zip_with]. rewrite bind_cons. simpl.
  destruct (IH vectors) as [rows Hrows].
  unfold vector_params in Hrows. cbn [zip] in Hrows. rewrite Hrows.
  by eexists.
Qed.

Lemma put_queries_statements self (put_ops : list (nat * PutOp)) :
  Forall put_statement (_prepare_batch_PUT_queries self put_ops).1.
Proof.
  unfold _prepare_batch_PUT_queries. cbn [fst].
  apply Forall_app. split.
  - apply Forall_fmap, Forall_forall. intros [ns keys] _. split; [done |].
    intros d. by eexists.
  - match goal with |- context [omap ?f ?l] => destruct (omap f l) as [|e l'] end;
      [constructor |].
    apply Forall_singleton. split; [done |]. intros d.
    destruct (upsert_items_ok (e :: l') d) as [d' Hd'].
    exists d'. cbn [db_execute]. by rewrite Hd'.
Qed.

Lemma embed_put_queries_statements self (put_ops : list (nat * PutOp)) qs :
  embed_put_queries self put_ops = Ok qs -> Forall put_statement qs.
Proof.
  unfold embed_put_queries.
  pose proof (put_queries_statements self put_ops) as Hqs.
  destruct (_prepare_batch_PUT_queries self put_ops).2 as [[query txt]|] eqn:Hreq.
  - destruct (embeddings self) as [aembed|]; [| done]. intros [= <-].
    apply Forall_app. split; [done |]. apply Forall_singleton.
    assert (query = SqlUpsertVectors) as ->.
    { unfold _prepare_batch_PUT_queries in Hreq. cbn [snd] in Hreq.
      repeat match type of Hreq with
             | match ?x with _ => _ end = _ => destruct x
             end; by simplify_eq. }
    split; [done |]. intros d.
    destruct (vector_rows_ok txt
                (aembed ((fun p : string * string * string * string => p.2)
                         <$> txt))) as [rows Hrows].
    eexists. cbn [db_execute]. by rewrite Hrows.
  - by intros [= <-].
Qed.

(** A put produces an embedding request only when indexing is
    configured. *)
Lemma put_request_index_config self (put_ops : list (nat * PutOp)) request :
  (_prepare_batch_PUT_queries self put_ops).2 = Some request ->
  is_Some (index_config self).
Proof.
  unfold _prepare_batch_PUT_queries. cbn [snd].
  destruct (index_config self); [by eauto | done].
Qed.

(** **** The whole batch *)

(** The reply to one operation against the database [d]. *)
Definition reply (self : AsyncPostgresStore) (d : Database) (op : Op)
  : Result :=
  match op with
  | OpGet o => get_reply d o
  | OpSearch o => search_reply self d o
  | OpList o => list_reply d o
  | OpPut _ => RNone
  end.

Definition get_statements (ops : list Op) : list Query :=
  (_get_batch_GET_ops_queries (get_ops_of (enumerate 0 ops))).*1.*1.

Definition search_statements (self : AsyncPostgresStore) (ops : list Op)
  : list Query :=
  final_query self <$> (search_ops_of (enumerate 0 ops)).*2.

Definition list_statements (ops : list Op) : list Query :=
  list_query <$> (list_ops_of (enumerate 0 ops)).*2.

Lemma group_or_default {X A} (group : list X) (phase : list X -> run Cursor A)
    (otherwise : run Cursor A) (c : Cursor) :
  phase [] c = otherwise c ->
  match extend_group None group with
  | Some l => phase l
  | None => otherwise
  end c = phase group c.
Proof. destruct group; simpl; [done | by intros _]. Qed.

Lemma batch_search_ops_nil self results (c : Cursor) :
  _batch_search_ops self [] results c = ret results c.
Proof.
  unfold _batch_search_ops, embed_search_queries. simpl.
  by destruct (embeddings self).
Qed.

Lemma batch_put_ops_nil self (c : Cursor) :
  _batch_put_ops self [] c = ret tt c.
Proof.
  unfold _batch_put_ops, embed_put_queries, _prepare_batch_PUT_queries.
  simpl. by destruct (index_config self).
Qed.

(** The three read phases of [_execute_batch], on a cursor [c]: every
    statement runs against the database the batch started from and leaves
    it as it is; at the end the slots of the reads hold their replies and
    the slots of the puts [None]. *)
Lemma read_phases_run self (ops : list Op) (c : Cursor) :
  embedder_aligned self ->
  exists f1 r1 f2 r2 f3 r3,
    _batch_get_ops self (get_ops_of (enumerate 0 ops))
      (replicate (length ops) RNone) c
    = (Ok r1, mkCursor (db c) (executed c ++ get_statements ops) f1)
    /\ _batch_search_ops self (search_ops_of (enumerate 0 ops)) r1
         (mkCursor (db c) (executed c ++ get_statements ops) f1)
       = (Ok r2,
          mkCursor (db c)
            ((executed c ++ get_statements ops) ++ search_statements self ops)
            f2)
    /\ _batch_list_namespaces_ops self (list_ops_of (enumerate 0 ops)) r2
         (mkCursor (db c)
            ((executed c ++ get_statements ops) ++ search_statements self ops)
            f2)
       = (Ok r3,
          mkCursor (db c)
            (((executed c ++ get_statements ops)
                ++ search_statements self ops) ++ list_statements ops) f3)
    /\ length r3 = length ops
    /\ forall i op, ops !! i = Some op ->
                    r3 !! i = Some (reply self (db c) op).
Proof.
  intros Hal.
  destruct (batch_get_ops_run self ops (replicate (length ops) RNone) c)
    as (f1 & r1 & Hrun1 & Hlen1 & Hpost1); [apply length_replicate |].
  rewrite length_replicate in Hlen1.
  destruct (batch_search_ops_run self ops r1
              (mkCursor (db c) (executed c ++ get_statements ops) f1) Hal Hlen1)
    as (f2 & r2 & Hrun2 & Hlen2 & Hpost2).
  rewrite Hlen1 in Hlen2.
  destruct (batch_list_namespaces_ops_run self ops r2
              (mkCursor (db c)
                 ((executed c ++ get_statements ops)
                    ++ search_statements self ops) f2) Hlen2)
    as (f3 & r3 & Hrun3 & Hlen3 & Hpost3).
  rewrite Hlen2 in Hlen3.
  exists f1, r1, f2, r2, f3, r3.
  split; [exact Hrun1 |]. split; [exact Hrun2 |]. split; [exact Hrun3 |].
  split; [done |].
  intros i op Hop.
  destruct (Hpost1 i) as [Hg1 Hn1], (Hpost2 i) as [Hg2 Hn2],
    (Hpost3 i) as [Hg3 Hn3].
  destruct op as [o|o|o|o]; simpl.
  - rewrite Hn3, Hn2 by (intros x; congruence). by apply Hg1.
  - rewrite Hn3 by (intros x; congruence). by apply Hg2.
  - rewrite Hn3, Hn2, Hn1 by (intros x; congruence).
    apply lookup_replicate_2. by apply lookup_lt_Some in Hop.
  - by apply Hg3.
Qed.

(** What a batch does, with an aligned embedder or none.  The reads are
    sent first, Get then Search then ListNamespaces, against the database
    the batch started from.  Then the puts are planned: when their plan
    raises, the batch raises with it and returns no results; otherwise the
    write statements are sent and the batch returns one slot per
    operation, holding the reply to that operation. *)
Lemma abatch_run self (ops : list Op) (c : Cursor) :
  embedder_aligned self ->
  exists f results,
    length results = length ops
    /\ (forall i op, ops !! i = Some op ->
                     results !! i = Some (reply self (db c) op))
    /\ match embed_put_queries self (put_ops_of (enumerate 0 ops)) with
       | Ok qs =>
           Forall put_statement qs
           /\ exists c',
                abatch self ops c = (Ok results, c')
                /\ executed c' =
                   executed c ++ get_statements ops
                     ++ search_statements self ops ++ list_statements ops
                     ++ qs
       | Raise e =>
           abatch self ops c =
           (Raise e,
            mkCursor (db c)
              (executed c ++ get_statements ops
                 ++ search_statements self ops ++ list_statements ops) f)
       end.
Proof.
  intros Hal.
  destruct (read_phases_run self ops
              (mkCursor (db c) (executed c) NoResult) Hal)
    as (f1 & r1 & f2 & r2 & f3 & r3 & Hrun1 & Hrun2 & Hrun3 & Hlen & Hrep).
  cbn [db executed] in *.
  exists f3, r3. split; [done |]. split; [done |].
  assert (abatch self ops c
          = (_ <- _batch_put_ops self (put_ops_of (enumerate 0 ops)) ;;
             ret r3)%py
              (mkCursor (db c)
                 (((executed c ++ get_statements ops)
                     ++ search_statements self ops) ++ list_statements ops)
                 f3)) as Habatch.
  { unfold abatch. rewrite group_ops_spec. cbn [fst snd].
    assert (forall X : run Cursor (list Result),
              (if pipe self then X else X) = X) as -> by (by destruct (pipe self)).
    unfold _execute_batch, _cursor.
    cbn [grouped_get grouped_search grouped_list grouped_put].
    erewrite bind_ok.
    2:{ rewrite (group_or_default (get_ops_of (enumerate 0 ops))
                   (fun l => _batch_get_ops self l
                               (replicate (length ops) RNone))
                   (ret (replicate (length ops) RNone))); [exact Hrun1 | done]. }
    erewrite bind_ok.
    2:{ rewrite (group_or_default (search_ops_of (enumerate 0 ops))
                   (fun l => _batch_search_ops self l r1) (ret r1));
          [exact Hrun2 | apply batch_search_ops_nil]. }
    erewrite bind_ok.
    2:{ rewrite (group_or_default (list_ops_of (enumerate 0 ops))
                   (fun l => _batch_list_namespaces_ops self l r2) (ret r2));
          [exact Hrun3 | done]. }
    unfold bind at 1.
    rewrite (group_or_default (put_ops_of (enumerate 0 ops))
               (fun l => _batch_put_ops self l) (ret tt));
      [reflexivity | apply batch_put_ops_nil]. }
  rewrite Habatch. unfold _batch_put_ops.
  destruct (embed_put_queries self (put_ops_of (enumerate 0 ops)))
    as [qs|e] eqn:Hput.
  - pose proof (embed_put_queries_statements _ _ _ Hput) as Hqs.
    split; [done |].
    edestruct (execute_all_run qs) as (c' & Hrun & Hex); [exact Hqs |].
    exists c'. split.
    + unfold bind at 1. unfold bind at 1. unfold lift at 1.
      rewrite Hrun. reflexivity.
    + rewrite Hex. cbn [executed]. by rewrite <- !app_assoc.
  - unfold bind, lift. by rewrite <- !app_assoc.
Qed.

Lemma embed_put_queries_ok self (put_ops : list (nat * PutOp)) :
  (is_Some (index_config self) -> is_Some (embeddings self)) ->
  exists qs, embed_put_queries self put_ops = Ok qs.
Proof.
  intros Hcfg. unfold embed_put_queries.
  destruct (_prepare_batch_PUT_queries self put_ops).2 as [[query txt]|] eqn:Hreq;
    [| by eexists].
  apply put_request_index_config in Hreq.
  destruct (Hcfg Hreq) as [aembed ->]. by eexists.
Qed.



Lemma search_statements_kind self (ops : list Op) :
  Forall (fun q => statement_kind q = KSearch) (search_statements self ops).
Proof.
  apply Forall_fmap, Forall_forall. intros o _. simpl.
  destruct (final_query_sql self o) as (o' & hybrid & Hsql).
  unfold statement_kind. by rewrite Hsql.
Qed.

(** C1. On a store as [__init__] means to leave it (an embedder whenever
    indexing is configured) whose embedder returns one vector per text in
    order, [abatch] returns a list with one slot per operation, and slot
    [i] holds the reply to [ops[i]]: what that operation returns in a
    batch of its own against the same database, an item or [None] for a
    Get, a list of search items for a Search, a list of namespaces for a
    ListNamespaces, [None] for a Put, however the kinds are interleaved. *)
Theorem abatch_results_follow_input_order self (ops : list Op) (c : Cursor) :
  (is_Some (index_config self) -> is_Some (embeddings self)) ->
  embedder_aligned self ->
  exists results c',
    abatch self ops c = (Ok results, c')
    /\ length results = length ops
    /\ forall i op,
         ops !! i = Some op ->
         results !! i = Some (reply self (db c) op)
         /\ (abatch self [op] c).1 = Ok [reply self (db c) op]
         /\ match op with
            | OpGet o =>
                reply self (db c) op = RNone
                \/ exists it, reply self (db c) op = RItem it
                              /\ namespace it = get_namespace o
                              /\ key it = get_key o
            | OpSearch _ => exists items, reply self (db c) op = RSearchItems items
            | OpList _ => exists nss, reply self (db c) op = RNamespaces nss
            | OpPut _ => reply self (db c) op = RNone
            end.
Proof.
  intros Hcfg Hal.
  destruct (abatch_run self ops c Hal) as (f & results & Hlen & Hrep & Hput).
  destruct (embed_put_queries_ok self (put_ops_of (enumerate 0 ops)) Hcfg)
    as [qs Hqs].
  rewrite Hqs in Hput. destruct Hput as (_ & c' & Hrun & _).
  exists results, c'. split; [done |]. split; [done |].
  intros i op Hop. split; [by apply Hrep |]. split.
  - destruct (abatch_run self [op] c Hal) as (f1 & r1 & Hlen1 & Hrep1 & Hput1).
    destruct (embed_put_queries_ok self (put_ops_of (enumerate 0 [op])) Hcfg)
      as [qs1 Hqs1].
    rewrite Hqs1 in Hput1. destruct Hput1 as (_ & c1 & Hrun1 & _).
    rewrite Hrun1. simpl. f_equal.
    destruct r1 as [|r [|? ?]]; try done.
    specialize (Hrep1 0 op eq_refl). simpl in Hrep1. congruence.
  - destruct op as [o|o|o|o]; simpl.
    + unfold get_reply, get_result.
      destruct (store_tbl (db c) !! _); [right | left; done].
      eexists. split; [reflexivity | done].
    + by eexists.
    + done.
    + by eexists.
Qed.

(** C2. A batch sends its statements in the order of the kinds: those of
    the Gets, then those of the Searches, then those of the
    ListNamespaces, then the writes of the Puts (none of them when their
    plan raises).  Every read therefore runs against the database the
    batch started from: the slot of a Get or of a Search holds the reply
    computed on that database, whatever Puts the same batch has. *)
Theorem reads_precede_puts_in_a_batch self (ops : list Op) (c : Cursor) :
  embedder_aligned self ->
  exists puts_sent,
    executed (abatch self ops c).2 =
      executed c ++ get_statements ops ++ search_statements self ops
        ++ list_statements ops ++ puts_sent
    /\ Forall (fun q => statement_kind q = KGet) (get_statements ops)
    /\ Forall (fun q => statement_kind q = KSearch) (search_statements self ops)
    /\ Forall (fun q => statement_kind q = KList) (list_statements ops)
    /\ Forall (fun q => statement_kind q = KPut) puts_sent
    /\ forall results,
         (abatch self ops c).1 = Ok results ->
         forall i,
           (forall o, ops !! i = Some (OpGet o) ->
                      results !! i = Some (get_reply (db c) o))
           /\ (forall o, ops !! i = Some (OpSearch o) ->
                         results !! i = Some (search_reply self (db c) o)).
Proof.
  intros Hal.
  destruct (abatch_run self ops c Hal) as (f & results & Hlen & Hrep & Hput).
  assert (Forall (fun q => statement_kind q = KGet) (get_statements ops)) as Hg.
  { unfold get_statements. apply Forall_fmap, Forall_fmap.
    eapply Forall_impl; [apply get_queries_wf |].
    intros [[q ns] items] Hwf. unfold get_query_wf in Hwf. simpl in *.
    by subst q. }
  assert (Forall (fun q => statement_kind q = KList) (list_statements ops)) as Hl.
  { apply Forall_fmap, Forall_forall. by intros o _. }
  destruct (embed_put_queries self (put_ops_of (enumerate 0 ops))) as [qs|e].
  - destruct Hput as (Hqs & c' & Hrun & Hex). exists qs. rewrite Hrun.
    split; [exact Hex |]. split; [exact Hg |].
    split; [apply search_statements_kind |]. split; [exact Hl |]. split.
    + eapply Forall_impl; [exact Hqs |]. by intros q [Hk _].
    + simpl. intros results' [= <-] i. split; intros o Ho.
      * by apply (Hrep i (OpGet o)).
      * by apply (Hrep i (OpSearch o)).
  - exists []. rewrite Hput. simpl. rewrite !app_nil_r.
    split; [done |]. split; [exact Hg |].
    split; [apply search_statements_kind |]. split; [exact Hl |].
    split; [constructor | done].
Qed.





End Store.

End Postgres.

(** ** Concrete instances

    A store over values that map field names to texts, with timestamps as
    calendar records, used to run the model and to instantiate the
    theorems. *)

Module Examples.

Import Base Postgres.

(** A value: field name to text. *)
Definition Value : Type := gmap string string.

Record iso_datetime := mkDatetime {
  year : nat; month : nat; day : nat;
  hour : nat; minute : nat; second : nat
}.

#[global] Instance iso_datetime_eq_dec : EqDecision iso_datetime.
Proof. solve_decision. Defined.

Definition digit (c : ascii) : option nat :=
  let n := nat_of_ascii c in
  if ((48 <=? n) && (n <=? 57))%nat then Some (n - 48) else None.

Fixpoint number (cs : list ascii) (acc : nat) : option nat :=
  match cs with
  | [] => Some acc
  | c :: rest =>
      match digit c with
      | Some d => number rest (10 * acc + d)
      | None => None
      end
  end.

Definition leap_year (y : nat) : bool :=
  ((y mod 4 =? 0) && (negb (y mod 100 =? 0) || (y mod 400 =? 0)))%nat.

Definition days_in_month (y m : nat) : nat :=
  match m with
  | 2 => if leap_year y then 29 else 28
  | 4 | 6 | 9 | 11 => 30
  | _ => 31
  end.

(** [datetime.fromisoformat] on the layouts [YYYY-MM-DD] and
    [YYYY-MM-DD?HH:MM:SS], with any one character between the date and
    the time, as [isoformat] writes a timestamp without microseconds or
    offset; a string that is not a date of the calendar in one of them is
    the [ValueError] of an invalid string.  The other layouts Python reads
    (fractions of a second, offsets, shorter times) are left out. *)
Definition fromisoformat (s : string) : result iso_datetime :=
  let invalid := Raise (ValueError "Invalid isoformat string") in
  let date y1 y2 y3 y4 m1 m2 d1 d2 h mi se :=
    match number [y1; y2; y3; y4] 0, number [m1; m2] 0, number [d1; d2] 0 with
    | Some y, Some m, Some d =>
        if ((1 <=? y) && (1 <=? m) && (m <=? 12) && (1 <=? d)
            && (d <=? days_in_month y m)
            && (h <? 24) && (mi <? 60) && (se <? 60))%nat
        then Ok (mkDatetime y m d h mi se)
        else invalid
    | _, _, _ => invalid
    end in
  match list_ascii_of_string s with
  | [y1; y2; y3; y4; "-"; m1; m2; "-"; d1; d2]%char =>
      date y1 y2 y3 y4 m1 m2 d1 d2 0 0 0
  | [y1; y2; y3; y4; "-"; m1; m2; "-"; d1; d2; _;
     h1; h2; ":"; mi1; mi2; ":"; s1; s2]%char =>
      match number [h1; h2] 0, number [mi1; mi2] 0, number [s1; s2] 0 with
      | Some h, Some mi, Some se => date y1 y2 y3 y4 m1 m2 d1 d2 h mi se
      | _, _, _ => invalid
      end
  | _ => invalid
  end.

Definition title (text : string) : Value := {["title" := text]}.

(** C5, at a failing input.  Built from [created_at =
    "2024-01-01T00:00:00"] and [updated_at = "2024-06-01T12:30:00"], the
    item has the first of January in both fields: [updated_at] is parsed
    from the [created_at] string, not from its own argument. *)
Theorem Item_init_parses_created_at_twice :
  Item_init fromisoformat (title "Q4") "r1" ["docs"; "u1"]
    (TsStr "2024-01-01T00:00:00") (TsStr "2024-06-01T12:30:00")
  = Ok (mkItem (title "Q4") "r1" ["docs"; "u1"]
          (mkDatetime 2024 1 1 0 0 0) (mkDatetime 2024 1 1 0 0 0))
  /\ fromisoformat "2024-06-01T12:30:00" = Ok (mkDatetime 2024 6 1 12 30 0)
  /\ Item_init fromisoformat (title "Q4") "r1" ["docs"; "u1"]
       (TsDatetime (mkDatetime 2024 1 1 0 0 0)) (TsStr "2024-06-01T12:30:00")
     = Raise (TypeError "fromisoformat: argument must be str").
Proof. repeat split. Qed.

(** *** A database and three stores *)

Definition Vector : Type := list Z.
Definition ScoreZ : Type := Z.

#[local] Abbreviation Database := (@Database Value iso_datetime Vector).
#[local] Abbreviation Query := (@Query Value Vector).
#[local] Abbreviation Row := (@Row Value iso_datetime ScoreZ).
#[local] Abbreviation Cursor := (@Cursor Value iso_datetime ScoreZ Vector).
#[local] Abbreviation Op := (@Op Value).
#[local] Abbreviation Result := (@Result Value iso_datetime ScoreZ).

(** The search statement as a scan of the rows under the prefix of the
    operation, and the list statement as the distinct prefixes. *)
Definition search_rows (d : Database) (q : Query) : list Row :=
  match q.1 with
  | SqlSearch o _ =>
      (fun e => to_row e.1 e.2)
      <$> map_to_list
            (filter (fun e : (string * string) * StoredRow =>
                       String.prefix (_namespace_to_text (namespace_prefix o))
                         e.1.1 = true)
               (store_tbl d))
  | _ => []
  end.

Definition list_rows (d : Database) (q : Query) : list string :=
  remove_dups ((fun e : (string * string) * StoredRow => e.1.1)
               <$> map_to_list (store_tbl d)).

(** A backend that accepts every migration statement, whatever was
    applied before. *)
Definition backend_accepts (sql : string) : bool := true.

(** The text at a path: the field of that name, when there is one. *)
Definition get_text_at_path (v : Value) (path : string) : list string :=
  match v !! path with
  | Some text => [text]
  | None => []
  end.

(** An embedder: the length of the text as a one-dimensional vector. *)
Definition embed_one (text : string) : Vector := [Z.of_nat (String.length text)].
Definition aembed_documents : @Embeddings Vector := fmap embed_one.

(** A store without indexing, a store with indexing and its embedder, and
    a store whose index configuration has lost its embedder. *)
Definition plain_store : @AsyncPostgresStore Vector :=
  mkStore ConnSingle false true None None.

Definition indexed_store : @AsyncPostgresStore Vector :=
  mkStore ConnSingle false true (Some (mkIndexConfig 1 ["title"]))
    (Some aembed_documents).

Definition store_without_embedder : @AsyncPostgresStore Vector :=
  mkStore ConnSingle false true (Some (mkIndexConfig 1 ["title"])) None.

Definition noon : iso_datetime := mkDatetime 2024 6 1 12 0 0.

Definition empty_db : Database := mkDatabase None [] ∅ ∅ noon.

Definition new_cursor : Cursor := mkCursor empty_db [] NoResult.

Definition abatch_on (self : @AsyncPostgresStore Vector) (ops : list Op)
  : run Cursor (list Result) :=
  abatch search_rows list_rows backend_accepts get_text_at_path self ops.

Definition docs : list string := ["docs"; "u1"].

(** Scenario 3 of the specification. *)
Definition put_get_put : list Op :=
  [OpPut (mkPutOp docs "r1" (Some (title "one")) None);
   OpGet (mkGetOp docs "r1");
   OpPut (mkPutOp docs "r1" (Some (title "two")) None)].

Definition mixed_batch : list Op :=
  [OpGet (mkGetOp docs "r1");
   OpSearch (mkSearchOp ["docs"] None 10 0 (Some "two"));
   OpPut (mkPutOp docs "r1" None None);
   OpList (mkListNamespacesOp None None 100 0);
   OpGet (mkGetOp ["other"] "r1")].

Definition two : @Item Value iso_datetime :=
  mkItem (title "two") "r1" docs noon noon.

(** On an empty store the Get between two Puts of its key sees nothing;
    afterwards the key holds the value of the last Put.  A mixed batch on
    that state answers each operation in its own slot, and its Get still
    sees the item its Put deletes. *)
Example batch_ordering_scenario :
  (abatch_on indexed_store put_get_put new_cursor).1
  = Ok [RNone; RNone; RNone]
  /\ (abatch_on indexed_store mixed_batch
        (abatch_on indexed_store put_get_put new_cursor).2).1
     = Ok [RItem two; RSearchItems [mkSearchItem two None]; RNone;
           RNamespaces [docs]; RNone]
  /\ (abatch_on indexed_store [OpGet (mkGetOp docs "r1")]
        (abatch_on indexed_store mixed_batch
           (abatch_on indexed_store put_get_put new_cursor).2).2).1
     = Ok [RNone].
Proof. repeat split; vm_compute; reflexivity. Qed.

Lemma aembed_documents_aligned : embedder_aligned indexed_store.
Proof. intros e [= <-]. by exists embed_one. Qed.

(** The cursor once [put_get_put] has run on the empty database. *)
Definition stored_cursor : Cursor :=
  (abatch_on indexed_store put_get_put new_cursor).2.

Definition reply_on (self : @AsyncPostgresStore Vector) (c : Cursor) (op : Op)
  : Result :=
  reply search_rows list_rows self (db c) op.

Lemma abatch_results_follow_input_order_witness :
  exists results c',
    abatch_on indexed_store mixed_batch stored_cursor = (Ok results, c')
    /\ length results = length mixed_batch
    /\ forall i op,
         mixed_batch !! i = Some op ->
         results !! i = Some (reply_on indexed_store stored_cursor op)
         /\ (abatch_on indexed_store [op] stored_cursor).1
            = Ok [reply_on indexed_store stored_cursor op]
         /\ match op with
            | OpGet o =>
                reply_on indexed_store stored_cursor op = RNone
                \/ exists it,
                     reply_on indexed_store stored_cursor op = RItem it
                     /\ namespace it = get_namespace o /\ key it = get_key o
            | OpSearch _ =>
                exists items,
                  reply_on indexed_store stored_cursor op = RSearchItems items
            | OpList _ =>
                exists nss,
                  reply_on indexed_store stored_cursor op = RNamespaces nss
            | OpPut _ => reply_on indexed_store stored_cursor op = RNone
            end.
Proof.
  apply (abatch_results_follow_input_order search_rows list_rows
           backend_accepts get_text_at_path indexed_store mixed_batch
           stored_cursor).
  - intros _. by eexists.
  - exact aembed_documents_aligned.
Defined.

Lemma reads_precede_puts_in_a_batch_witness :
  exists puts_sent,
    executed (abatch_on indexed_store mixed_batch stored_cursor).2 =
      executed stored_cursor ++ get_statements mixed_batch
        ++ search_statements indexed_store mixed_batch
        ++ list_statements mixed_batch ++ puts_sent
    /\ Forall (fun q : Query => statement_kind q = KGet) (get_statements mixed_batch)
    /\ Forall (fun q : Query => statement_kind q = KSearch)
         (search_statements indexed_store mixed_batch)
    /\ Forall (fun q : Query => statement_kind q = KList) (list_statements mixed_batch)
    /\ Forall (fun q : Query => statement_kind q = KPut) puts_sent
    /\ forall results,
         (abatch_on indexed_store mixed_batch stored_cursor).1 = Ok results ->
         forall i,
           (forall o, mixed_batch !! i = Some (OpGet o) ->
                      results !! i = Some (get_reply (db stored_cursor) o))
           /\ (forall o, mixed_batch !! i = Some (OpSearch o) ->
                         results !! i
                         = Some (search_reply search_rows indexed_store
                                   (db stored_cursor) o)).
Proof.
  apply (reads_precede_puts_in_a_batch search_rows list_rows backend_accepts
           get_text_at_path indexed_store mixed_batch stored_cursor).
  exact aembed_documents_aligned.
Defined.

(** *** A search without an embedder *)

Definition search_two : list Op :=
  [OpSearch (mkSearchOp ["docs"] None 10 0 (Some "two"))].

(** The input at which the code leaves C7: a store that has an index
    configuration and no embedder, and a batch of one Search with a
    query.  The plan asks for the embedding of the query; [abatch] raises
    no error of its own and hands the planned statement to the cursor as
    it is, the only statement it sends. *)
Example search_without_embedder_is_dispatched :
  embeddings store_without_embedder = None
  /\ (_prepare_batch_search_queries store_without_embedder
        (search_ops_of (enumerate 0 search_two))).2 = [(0, "two")]
  /\ executed (abatch_on store_without_embedder search_two stored_cursor).2
     = executed stored_cursor
       ++ (_prepare_batch_search_queries store_without_embedder
             (search_ops_of (enumerate 0 search_two))).1.
Proof. repeat split; vm_compute; reflexivity. Qed.


(** The put path on that store: the Puts ask for an embedding and no
    Search does; the batch raises, nothing is written. *)
Example put_without_embedder_run :
  is_Some (_prepare_batch_PUT_queries get_text_at_path store_without_embedder
             (put_ops_of (enumerate 0 put_get_put))).2
  /\ (_prepare_batch_search_queries store_without_embedder
        (search_ops_of (enumerate 0 put_get_put))).2 = []
  /\ (abatch_on store_without_embedder put_get_put new_cursor).1
  = Raise (ValueError
      "Embedding configuration is required for vector operations (for semantic search). Please provide an EmbeddingConfig when initializing the AsyncPostgresStore.")
  /\ db (abatch_on store_without_embedder put_get_put new_cursor).2 = empty_db.
Proof. split; [by eexists | repeat split; vm_compute; reflexivity]. Qed.

(** *** Migrations *)

Definition has_index (self : @AsyncPostgresStore Vector) : bool :=
  bool_decide (is_Some (index_config self)).

Definition dims_text (self : @AsyncPostgresStore Vector) : string :=
  match index_config self with
  | Some cfg => if decide (dims cfg = 1)%Z then "1" else "n"
  | None => ""
  end.

Definition MIGRATIONS : list (@MigrationEntry Vector) :=
  [MigrationStr "CREATE TABLE store";
   MigrationObj (mkMigration "CREATE EXTENSION vector" None (Some has_index));
   MigrationStr "CREATE INDEX store_prefix_idx";
   MigrationObj
     (mkMigration "CREATE TABLE store_vectors (embedding vector(%(dims)s))"
        (Some [("dims", ParamCallable dims_text)]) (Some has_index))].

(** [sql % params] for conversions of the form [%(key)s]: every
    occurrence of one is replaced by the text of its key, [None] printing
    as [None].  [skip] is the number of characters of a conversion still to
    pass over. *)
Fixpoint replace_from (skip : nat) (conversion text sql : string) : string :=
  match sql with
  | EmptyString => EmptyString
  | String c rest =>
      match skip with
      | S n => replace_from n conversion text rest
      | O =>
          if String.prefix conversion sql
          then text +:+ replace_from (String.length conversion - 1)
                          conversion text rest
          else String c (replace_from 0 conversion text rest)
      end
  end.

Definition percent_format (sql : string) (params : list (string * option string))
  : string :=
  foldl (fun acc (kv : string * option string) =>
           replace_from 0 ("%(" +:+ kv.1 +:+ ")s") (default "None" kv.2) acc)
    sql params.

Definition setup_on (self : @AsyncPostgresStore Vector) : run Cursor unit :=
  setup search_rows list_rows backend_accepts MIGRATIONS percent_format self.

(** A database where the first migration is already recorded. *)
Definition migrated_once : Cursor :=
  mkCursor (mkDatabase (Some [0%Z]) ["CREATE TABLE store"] ∅ ∅ noon) []
    NoResult.


(** Two runs on an empty database: the first creates the version table
    and applies the two unconditional entries, the second only asks for
    the version. *)
Example setup_twice :
  (setup_on plain_store new_cursor).1 = Ok tt
  /\ store_migrations (db (setup_on plain_store new_cursor).2) = Some [2; 0]%Z
  /\ schema (db (setup_on plain_store new_cursor).2)
     = ["CREATE TABLE store"; "CREATE INDEX store_prefix_idx"]
  /\ setup_on plain_store (setup_on plain_store new_cursor).2
     = (Ok tt,
        mkCursor (db (setup_on plain_store new_cursor).2)
          (executed (setup_on plain_store new_cursor).2
             ++ [(SqlSelectVersion, [])])
          (VersionRows [])).
Proof. repeat split; vm_compute; reflexivity. Qed.

(** *** The façade over the Postgres store *)

Definition store_batch : list Op -> run Cursor (list Result) :=
  batch search_rows list_rows backend_accepts get_text_at_path plain_store.

(** Scenario 1 of the specification: create, read, delete. *)
Example create_read_delete :
  let created := (put store_batch docs "r1" (title "Q4") None new_cursor).2 in
  let deleted := (delete store_batch docs "r1" created).2 in
  (get store_batch docs "r1" created).1
  = Ok (RItem (mkItem (title "Q4") "r1" docs noon noon))
  /\ (get store_batch docs "r1" deleted).1 = Ok RNone.
Proof. split; vm_compute; reflexivity. Qed.

(** Scenario 2 of the specification: [put] refuses an invalid namespace
    before anything is sent, while [delete] sends its statement for a
    namespace [put] would refuse. *)
Example namespace_validation :
  put store_batch ["a.b"] "k" ∅ None new_cursor
  = (Raise (InvalidNamespaceError (NsPeriod "a.b")), new_cursor)
  /\ put store_batch ["langgraph"; "x"] "k" ∅ None new_cursor
     = (Raise (InvalidNamespaceError NsReservedRoot), new_cursor)
  /\ put store_batch [] "k" ∅ None new_cursor
     = (Raise (InvalidNamespaceError NsEmpty), new_cursor)
  /\ (delete store_batch ["a.b"] "k" new_cursor).1 = Ok tt
  /\ executed (delete store_batch ["a.b"] "k" new_cursor).2
     = [(SqlDeleteItems, [PText "a.b"; PKeys ["k"]])].
Proof. repeat split; vm_compute; reflexivity. Qed.

(** Two items with the same namespace and key and another value: equal
    hashes whatever the hash function, and not equal. *)
Example same_key_items_collide (py_hash : list string * string -> Z) :
  let a := mkItem (title "one") "r1" docs noon noon in
  let b := mkItem (title "two") "r1" docs noon noon in
  Item_hash py_hash a = Item_hash py_hash b
  /\ Item_eq a (ObjItem (Score := ScoreZ) b) = false
  /\ Item_eq a (ObjItem (Score := ScoreZ) a) = true
  /\ Item_eq a (ObjSearchItem (mkSearchItem a (Some 1%Z))) = true.
Proof. repeat split; vm_compute; reflexivity. Qed.

End Examples.

(** ** More of [langgraph/store/base/__init__.py] *)

Module BaseExtras.

Import Base.

(** *** Which label [_validate_namespace] reports *)

(** The error the loop body raises on one label, if any. *)
Definition label_error (label : pyval) : option ns_error :=
  match label with
  | PyStr s =>
      if contains_period s then Some (NsPeriod s)
      else if str_falsy s then Some NsEmptyLabel
      else None
  | _ => Some (NsNotString label)
  end.

Lemma label_error_None label : label_error label = None <-> valid_label label.
Proof.
  unfold label_error, valid_label. destruct label as [s| | |].
  - destruct (contains_period s) eqn:Hp.
    + apply contains_period_spec in Hp. split; [done |].
      intros (s' & [= <-] & _ & Hno). done.
    + apply contains_period_false in Hp. destruct (str_falsy s) eqn:He.
      * apply str_falsy_spec in He. split; [done |].
        intros (s' & [= <-] & Hne & _). done.
      * split; [| done]. intros _. exists s. repeat split; [| done].
        intros ->. done.
  - split; [done | intros (s' & [=] & _)].
  - split; [done | intros (s' & [=] & _)].
  - split; [done | intros (s' & [=] & _)].
Qed.

Lemma validate_labels_first_error good bad rest e :
  Forall valid_label good -> label_error bad = Some e ->
  validate_labels (good ++ bad :: rest) = Raise (InvalidNamespaceError e).
Proof.
  intros Hgood Hbad. induction Hgood as [|l good Hl _ IH]; simpl.
  - unfold label_error in Hbad. destruct bad as [s| | |]; simplify_eq/=; try done.
    destruct (contains_period s); [by simplify_eq |].
    destruct (str_falsy s); by simplify_eq.
  - destruct Hl as (s & -> & Hne & Hno).
    apply contains_period_false in Hno. rewrite Hno.
    destruct s; [done |]. simpl. exact IH.
Qed.

(** X1. The first label that is not a non-empty string without a period
    decides the error, whatever follows it and whatever the first label
    is; the reserved root is reported only for a namespace whose labels
    all pass. *)
Theorem validate_namespace_reports_first_bad_label (good rest : list pyval)
    (bad : pyval) (e : ns_error) :
  Forall valid_label good -> label_error bad = Some e ->
  _validate_namespace (good ++ bad :: rest)
  = Raise (InvalidNamespaceError e)
  /\ (good <> [] ->
      _validate_namespace good
      = if decide (head good = Some (PyStr "langgraph"))
        then Raise (InvalidNamespaceError NsReservedRoot)
        else Ok tt).
Proof.
  intros Hgood Hbad. split.
  - unfold _validate_namespace.
    rewrite (validate_labels_first_error good bad rest e Hgood Hbad).
    by destruct good.
  - intros Hne. unfold _validate_namespace.
    destruct good as [|root good']; [done |].
    rewrite (proj2 (validate_labels_ok (root :: good')) Hgood). simpl.
    destruct (decide (root = PyStr "langgraph")) as [->|Hroot].
    + by rewrite decide_True.
    + rewrite decide_False; [done | congruence].
Qed.

(** X2. A valid namespace stays valid when it is cut to a non-empty prefix,
    and its extension by one label is valid exactly when that label is a
    non-empty string without a period. *)
Theorem valid_namespace_prefix_and_child (ns : list pyval) :
  _validate_namespace ns = Ok tt ->
  (forall n, 0 < n -> _validate_namespace (take n ns) = Ok tt)
  /\ (forall label,
        _validate_namespace (ns ++ [label]) = Ok tt <-> valid_label label).
Proof.
  intros Hok. unfold _validate_namespace in Hok.
  destruct ns as [|root rest]; [done |].
  destruct (validate_labels (root :: rest)) as [[]|] eqn:Hlabels; [| done].
  simpl in Hok. destruct (decide (root = PyStr "langgraph")) as [|Hroot]; [done |].
  apply validate_labels_ok in Hlabels. split.
  - intros [|n] Hn; [lia |]. unfold _validate_namespace. cbn [take].
    rewrite (proj2 (validate_labels_ok (root :: take n rest))).
    + cbn [rbind]. by rewrite decide_False.
    + apply Forall_cons in Hlabels as [Hr Hrest]. apply Forall_cons.
      split; [done | by apply Forall_take].
  - intros label. unfold _validate_namespace. cbn [app].
    destruct (validate_labels (root :: rest ++ [label])) as [[]|e] eqn:Hl.
    + cbn [rbind]. rewrite decide_False by done. split; [| done]. intros _.
      apply (validate_labels_ok (root :: rest ++ [label])) in Hl.
      apply Forall_cons in Hl as [_ Hl]. apply Forall_app in Hl as [_ Hl].
      exact (Forall_inv Hl).
    + cbn [rbind]. split; [done |]. intros Hv. exfalso.
      assert (validate_labels (root :: rest ++ [label]) = Ok tt) as Hok'.
      { apply validate_labels_ok. apply Forall_cons in Hlabels as [Hr Hrest].
        apply Forall_cons. split; [done |]. apply Forall_app. split; [done |].
        by constructor. }
      congruence.
Qed.

(** *** [Item.dict], [SearchItem] and the conditions of [list_namespaces] *)

Section Items.

Set Default Proof Using "Type".

Context {V : Type} `{EqDecision V}.
Context {datetime : Type} `{EqDecision datetime}.
Context {Score : Type}.

(** [datetime.fromisoformat] and [datetime.isoformat]. *)
Variable fromisoformat : string -> result datetime.
Variable isoformat : datetime -> string.

#[local] Abbreviation Item := (@Item V datetime).
#[local] Abbreviation SearchItem := (@SearchItem V datetime Score).

(** The dictionary [Item.dict()] returns: the namespace as a list, the
    timestamps in ISO format. *)
Record ItemDict := mkItemDict {
  dict_value : V;
  dict_key : string;
  dict_namespace : list string;
  dict_created_at : string;
  dict_updated_at : string
}.

(** [Item.dict] *)
Definition Item_dict (self : Item) : ItemDict :=
  mkItemDict (value self) (key self) (namespace self)
    (isoformat (created_at self)) (isoformat (updated_at self)).

(** The call that builds an item back from the entries of such a
    dictionary, every entry passed as the keyword argument of its name. *)
Definition Item_of_dict (d : ItemDict) : result Item :=
  Item_init fromisoformat (dict_value d) (dict_key d) (dict_namespace d)
    (TsStr (dict_created_at d)) (TsStr (dict_updated_at d)).

(** [SearchItem.__init__]: [Item.__init__] through [super()], then the
    score. *)
Definition SearchItem_init (namespace : list string) (key : string) (value : V)
    (created_at updated_at : timestamp_arg) (score : option Score)
  : result SearchItem :=
  (it <~ Item_init fromisoformat value key namespace created_at updated_at ;;
   Ok (mkSearchItem it score))%py.

(** [SearchItem.dict]: the dictionary of the item, with the score. *)
Record SearchItemDict := mkSearchItemDict {
  dict_item : ItemDict;
  dict_score : option Score
}.

Definition SearchItem_dict (self : SearchItem) : SearchItemDict :=
  mkSearchItemDict (Item_dict (item self)) (score self).

Definition SearchItem_of_dict (d : SearchItemDict) : result SearchItem :=
  SearchItem_init (dict_namespace (dict_item d)) (dict_key (dict_item d))
    (dict_value (dict_item d)) (TsStr (dict_created_at (dict_item d)))
    (TsStr (dict_updated_at (dict_item d))) (dict_score d).

(** [SearchItem] inherits [__eq__] and [__hash__] from [Item]. *)
Definition SearchItem_eq (self : SearchItem)
    (other : @pyobject V datetime Score) : bool :=
  Item_eq (item self) other.

Lemma Item_eq_fields (a b : Item) :
  Item_eq a (ObjItem (Score := Score) b) = true <->
  value a = value b /\ key a = key b /\ namespace a = namespace b
  /\ created_at a = created_at b /\ updated_at a = updated_at b.
Proof.
  unfold Item_eq. simpl.
  rewrite !andb_true_iff, !bool_decide_eq_true. tauto.
Qed.

(** X3. An item does not survive the round trip through [dict()] unless its
    two timestamps are equal: where the created timestamp parses back,
    the rebuilt item has every field of the original except
    [updated_at], which holds the created timestamp. *)
Theorem Item_dict_round_trip_loses_updated_at (it : Item) :
  fromisoformat (isoformat (created_at it)) = Ok (created_at it) ->
  Item_of_dict (Item_dict it)
  = Ok (mkItem (value it) (key it) (namespace it)
          (created_at it) (created_at it))
  /\ (Item_eq it (ObjItem (Score := Score)
                    (mkItem (value it) (key it) (namespace it)
                       (created_at it) (created_at it))) = true
      <-> updated_at it = created_at it).
Proof.
  intros Hparse. split.
  - unfold Item_of_dict, Item_dict, Item_init. simpl. by rewrite Hparse.
  - rewrite Item_eq_fields. simpl. split; [| done]. by intros (_ & _ & _ & _ & ->).
Qed.

(** X4. The same round trip for a search item keeps the score and loses
    [updated_at]. *)
Theorem SearchItem_dict_round_trip (s : SearchItem) :
  fromisoformat (isoformat (created_at (item s))) = Ok (created_at (item s)) ->
  SearchItem_of_dict (SearchItem_dict s)
  = Ok (mkSearchItem
          (mkItem (value (item s)) (key (item s)) (namespace (item s))
             (created_at (item s)) (created_at (item s)))
          (score s)).
Proof.
  intros Hparse.
  unfold SearchItem_of_dict, SearchItem_dict, SearchItem_init, Item_init.
  simpl. by rewrite Hparse.
Qed.

(** X5. Equality of search items does not look at the score: two search
    items are equal exactly when the five fields of their items are, and
    a search item and a plain item with the same five fields are equal
    in both directions. *)
Theorem SearchItem_eq_ignores_score :
  (forall s1 s2 : SearchItem,
     SearchItem_eq s1 (ObjSearchItem s2) = true <-> item s1 = item s2)
  /\ (forall (s : SearchItem) (it : Item),
        SearchItem_eq s (ObjItem it) = Item_eq it (ObjSearchItem s))
  /\ (forall (it : Item) (score1 score2 : option Score),
        SearchItem_eq (mkSearchItem it score1)
          (ObjSearchItem (mkSearchItem it score2)) = true).
Proof.
  assert (forall a b : Item,
            Item_eq a (ObjItem (Score := Score) b) = true <-> a = b) as Heq.
  { intros [] []. rewrite Item_eq_fields. simpl. split.
    - by intros (-> & -> & -> & -> & ->).
    - by intros [= -> -> -> -> ->]. }
  split; [| split].
  - intros s1 s2. apply (Heq (item s1) (item s2)).
  - intros s it. unfold SearchItem_eq.
    change (Item_eq it (ObjSearchItem s))
      with (Item_eq it (ObjItem (Score := Score) (item s))).
    apply Bool.eq_iff_eq_true. rewrite !Heq. split; congruence.
  - intros it score1 score2. by apply (Heq it it).
Qed.

(** *** The conditions [list_namespaces] builds *)

Context {S : Type}.
Variable batch : list (@Op V) -> run S (list (@Result V datetime Score)).
Variable abatch : list (@Op V) -> run S (list (@Result V datetime Score)).

(** X6. An empty prefix or suffix is no condition at all: [list_namespaces]
    and [alist_namespaces] send the same operation for [()] as for
    [None]; the operation never has more than one condition of each kind,
    the prefix first, and never a condition with an empty path. *)
Theorem list_namespaces_drops_empty_paths :
  (forall suffix depth limit offset s,
     list_namespaces batch (Some []) suffix depth limit offset s
     = list_namespaces batch None suffix depth limit offset s
     /\ alist_namespaces abatch (Some []) suffix depth limit offset s
        = alist_namespaces abatch None suffix depth limit offset s)
  /\ (forall prefix depth limit offset s,
        list_namespaces batch prefix (Some []) depth limit offset s
        = list_namespaces batch prefix None depth limit offset s
        /\ alist_namespaces abatch prefix (Some []) depth limit offset s
           = alist_namespaces abatch prefix None depth limit offset s)
  /\ (forall prefix suffix,
        Forall (fun c => path c <> []) (build_match_conditions prefix suffix)
        /\ (match_type <$> build_match_conditions prefix suffix)
           = (if path_truthy prefix then [MatchPrefix] else [])
             ++ (if path_truthy suffix then [MatchSuffix] else [])).
Proof.
  split; [| split].
  - intros suffix depth limit offset s. by split.
  - intros [[|p prefix]|] depth limit offset s; by split.
  - intros [[|p prefix]|] [[|q suffix]|]; split; try done;
      repeat constructor; done.
Qed.

End Items.

End BaseExtras.


(** ** More of [store/postgres/aio.py] *)

Module PostgresExtras.

Import Base Postgres.

Section Store.

Set Default Proof Using "Type".

Context {V datetime Score Vec : Type}.

#[local] Abbreviation Query := (@Query V Vec).
#[local] Abbreviation Cursor := (@Cursor V datetime Score Vec).
#[local] Abbreviation Database := (@Database V datetime Vec).
#[local] Abbreviation Op := (@Op V).
#[local] Abbreviation Result := (@Result V datetime Score).

(** *** Splicing the query vectors into the search statements *)

(** Two statements that differ at most in their first parameter. *)
Definition same_but_first (q q' : Query) : Prop :=
  q'.1 = q.1 /\ length q'.2 = length q.2 /\ drop 1 q'.2 = drop 1 q.2.

(** The first parameter of a statement is a vector. *)
Definition vector_first (q : Query) : Prop :=
  exists v, head q.2 = Some (PVector v).

(** A request [queries[idx][1][0] = vector] can not be carried out. *)
Definition bad_request (queries : list Query) (idx : nat) : Prop :=
  length queries <= idx
  \/ exists q : Query, queries !! idx = Some q /\ q.2 = [].

Lemma same_but_first_refl (q : Query) : same_but_first q q.
Proof. by repeat split. Qed.

Lemma same_but_first_trans (q1 q2 q3 : Query) :
  same_but_first q1 q2 -> same_but_first q2 q3 -> same_but_first q1 q3.
Proof.
  intros (H1 & H2 & H3) (H4 & H5 & H6). repeat split; congruence.
Qed.

Lemma Forall2_same_but_first_refl (queries : list Query) :
  Forall2 same_but_first queries queries.
Proof. induction queries; constructor; auto using same_but_first_refl. Qed.

Lemma Forall2_same_but_first_trans (l1 l2 l3 : list Query) :
  Forall2 same_but_first l1 l2 -> Forall2 same_but_first l2 l3 ->
  Forall2 same_but_first l1 l3.
Proof.
  intros H. revert l3.
  induction H; intros l3 H3; inversion H3; subst; constructor;
    eauto using same_but_first_trans.
Qed.

Lemma set_query_vector_Ok (queries : list Query) idx (v : Vec) queries' :
  set_query_vector queries idx v = Ok queries' ->
  exists q : Query,
    queries !! idx = Some q /\ q.2 <> []
    /\ queries' = <[idx := (q.1, <[0 := PVector v]> q.2)]> queries.
Proof.
  unfold set_query_vector, subscript, setitem.
  destruct (queries !! idx) as [q|] eqn:Hq; [| done]. cbn [rbind].
  case_decide as Hlen; [| done]. cbn [rbind]. intros [= <-].
  exists q. split; [done |]. split; [| done].
  intros Hnil. rewrite Hnil in Hlen. simpl in Hlen. lia.
Qed.

Lemma set_query_vector_bad (queries : list Query) idx (v : Vec) :
  bad_request queries idx ->
  set_query_vector queries idx v = Raise IndexError.
Proof.
  unfold set_query_vector, subscript, setitem.
  intros [Hlen | (q & Hq & Hnil)].
  - by rewrite (lookup_ge_None_2 queries idx Hlen).
  - rewrite Hq. cbn [rbind]. rewrite Hnil. done.
Qed.

Lemma set_query_vector_result (queries : list Query) idx (v : Vec) :
  (exists queries', set_query_vector queries idx v = Ok queries')
  \/ set_query_vector queries idx v = Raise IndexError.
Proof.
  unfold set_query_vector, subscript, setitem.
  destruct (queries !! idx) as [q|]; [| by right]. cbn [rbind].
  case_decide; [left; by eexists | by right].
Qed.

Lemma set_query_vector_same (queries : list Query) idx (v : Vec) queries' :
  set_query_vector queries idx v = Ok queries' ->
  Forall2 same_but_first queries queries'.
Proof.
  intros (q & Hq & Hne & ->)%set_query_vector_Ok.
  apply Forall2_same_length_lookup. split; [by rewrite length_insert |].
  intros j q1 q2 Hq1 Hq2.
  destruct (decide (idx = j)) as [->|Hne'].
  - rewrite list_lookup_insert_eq in Hq2 by (by apply lookup_lt_Some in Hq1).
    assert (q1 = q) as -> by congruence. injection Hq2 as <-.
    repeat split; simpl.
    + by rewrite length_insert.
    + destruct (q.2); done.
  - rewrite list_lookup_insert_ne in Hq2 by done.
    assert (q1 = q2) as -> by congruence.
    apply same_but_first_refl.
Qed.

Lemma bad_request_same (queries queries' : list Query) idx :
  Forall2 same_but_first queries queries' ->
  bad_request queries idx -> bad_request queries' idx.
Proof.
  intros Hsame [Hlen | (q & Hq & Hnil)].
  - left. by rewrite <- (Forall2_length _ _ _ Hsame).
  - destruct (Forall2_lookup_l _ _ _ _ _ Hsame Hq) as (q' & Hq' & _ & Hl & _).
    right. exists q'. split; [done |].
    apply length_zero_iff_nil. rewrite Hl, Hnil. done.
Qed.

(** X7. [splice_vectors] keeps the statements it is given: as many, in the
    same order, each with its text and all its parameters but the first;
    a statement no request names is untouched, a statement a request names
    ends with a vector as its first parameter.  It raises [IndexError],
    and nothing else, when a request names a statement that is not there
    or that has no parameter. *)
Theorem splice_vectors_fills_only_first_parameters :
  (forall (requests : list ((nat * string) * Vec)) (queries queries' : list Query),
     splice_vectors queries requests = Ok queries' ->
     Forall2 same_but_first queries queries'
     /\ (forall j, j ∉ requests.*1.*1 -> queries' !! j = queries !! j)
     /\ (forall j, j ∈ requests.*1.*1 ->
                   exists q' : Query,
                     queries' !! j = Some q' /\ vector_first q'))
  /\ (forall (requests : list ((nat * string) * Vec)) (queries : list Query),
        (exists queries', splice_vectors queries requests = Ok queries')
        \/ splice_vectors queries requests = Raise IndexError)
  /\ (forall (requests : list ((nat * string) * Vec)) (queries : list Query) idx,
        idx ∈ requests.*1.*1 -> bad_request queries idx ->
        splice_vectors queries requests = Raise IndexError).
Proof.
  split; [| split].
  - induction requests as [|[[idx text] v] requests IH]; intros queries queries'.
    + intros [= <-]. split; [apply Forall2_same_but_first_refl |].
      split; [done |]. by intros j ?%elem_of_nil.
    + cbn [splice_vectors].
      destruct (set_query_vector queries idx v) as [q1|] eqn:Hset; [| done].
      cbn [rbind]. intros Hrest.
      destruct (IH _ _ Hrest) as (Hsame & Hout & Hin).
      pose proof (set_query_vector_same _ _ _ _ Hset) as Hsame1.
      apply set_query_vector_Ok in Hset as (q & Hq & Hne & ->).
      split; [| split].
      * by eapply Forall2_same_but_first_trans.
      * intros j Hj. cbn in Hj. apply not_elem_of_cons in Hj as [Hne' Hj].
        rewrite Hout by done. by rewrite list_lookup_insert_ne.
      * intros j Hj. destruct (decide (j ∈ requests.*1.*1)) as [Hjin|Hjout];
          [by apply Hin |].
        cbn in Hj. apply elem_of_cons in Hj as [->|?]; [| done].
        rewrite Hout by done.
        rewrite list_lookup_insert_eq by (by apply lookup_lt_Some in Hq).
        eexists. split; [done |]. exists v. simpl.
        destruct (q.2); done.
  - induction requests as [|[[idx text] v] requests IH]; intros queries.
    + left. by eexists.
    + cbn [splice_vectors].
      destruct (set_query_vector_result queries idx v) as [[q1 ->] | ->];
        [apply IH | by right].
  - induction requests as [|[[idx' text] v] requests IH]; intros queries idx Hin Hbad.
    + by apply elem_of_nil in Hin.
    + cbn [splice_vectors].
      destruct (set_query_vector queries idx' v) as [q1|e] eqn:Hset.
      * cbn [rbind].
        pose proof (set_query_vector_same _ _ _ _ Hset) as Hsame.
        cbn in Hin. apply elem_of_cons in Hin as [->|Hin].
        -- by rewrite set_query_vector_bad in Hset.
        -- apply (IH q1 idx Hin). by eapply bad_request_same.
      * cbn [rbind].
        destruct (set_query_vector_result queries idx' v) as [[q1 Hq1] | Hq1];
          congruence.
Qed.

(** *** The parameters of the vector upsert *)

(** X8. The list comprehension of [_batch_put_ops] walks [zip(txt_params,
    vectors)]: it gives four parameters for each text that has a vector,
    namespace, key and path followed by the vector and not by the text,
    in the order of the texts; texts beyond the vectors the embedder
    returned, and vectors beyond the texts, are dropped without an
    error. *)
Theorem vector_params_pairs_texts_with_vectors
    (txt_params : list (string * string * string * string))
    (vectors : list Vec) :
  length (vector_params (V := V) txt_params vectors)
  = 4 * (length txt_params `min` length vectors)
  /\ (forall i ns k pathname text vector,
        txt_params !! i = Some (ns, k, pathname, text) ->
        vectors !! i = Some vector ->
        take 4 (drop (4 * i) (vector_params (V := V) txt_params vectors))
        = [PText ns; PText k; PText pathname; PVector vector]).
Proof.
  unfold vector_params. split.
  - revert vectors. induction txt_params as [|t ts IH]; intros [|v vs];
      simpl; try done.
    rewrite IH. lia.
  - revert vectors. induction txt_params as [|t ts IH];
      intros [|v vs] i ns k pathname text vector Ht Hv;
      try (by destruct i).
    destruct i as [|i]; simpl in Ht, Hv.
    + injection Ht as ->. injection Hv as ->. done.
    + replace (4 * S i) with (4 + 4 * i) by lia.
      rewrite <- (IH vs i ns k pathname text vector Ht Hv).
      cbn [zip zip_with mbind list_bind]. by rewrite <- drop_drop.
Qed.

End Store.

(** *** [setup] when the backend rejects a statement, and afterwards *)

Section Setup.

Set Default Proof Using "Type".

Context {V datetime Score Vec : Type}.

Variable search_rows :
  @Database V datetime Vec -> @Query V Vec -> list (@Row V datetime Score).
Variable list_rows : @Database V datetime Vec -> @Query V Vec -> list string.
Variable MIGRATIONS : list (@MigrationEntry Vec).
Variable percent_format : string -> list (string * option string) -> string.

#[local] Abbreviation Cursor := (@Cursor V datetime Score Vec).
#[local] Abbreviation Store := (@AsyncPostgresStore Vec).
#[local] Abbreviation setup_with backend :=
  (setup search_rows list_rows backend MIGRATIONS percent_format).
#[local] Abbreviation apply_on backend :=
  (apply_migrations search_rows list_rows backend percent_format).
#[local] Abbreviation pending_of := (pending MIGRATIONS percent_format).
#[local] Abbreviation statements_of := (applied_of percent_format).

(** The statements [setup] sends before the loop. *)
Definition version_statements (c : Cursor) : list (@Query V Vec) :=
  match store_migrations (db c) with
  | Some _ => [(SqlSelectVersion, [])]
  | None => [(SqlSelectVersion, []); (SqlCreateMigrations, [])]
  end.

Lemma bind_raise {St A B} (m : run St A) (k : A -> run St B) c e c' :
  m c = (Raise e, c') -> bind m k c = (Raise e, c').
Proof. unfold bind. by intros ->. Qed.

(** The loop on a backend that rejects the statement of one entry: the
    entries before it are applied and recorded, its statement is sent and
    raises, and the loop ends there. *)
Lemma apply_migrations_stops backend (self : Store) (l : list MigrationEntry) :
  forall start (c : Cursor) versions done v sql rest,
    store_migrations (db c) = Some versions ->
    (forall w, w ∈ versions -> (w < start)%Z) ->
    statements_of self (enumerate_from start l) = done ++ (v, sql) :: rest ->
    (forall w s, (w, s) ∈ done -> backend s = true) ->
    backend sql = false ->
    exists f,
      apply_on backend self (enumerate_from start l) c =
      (Raise (DatabaseError sql),
       mkCursor (after_migrations (db c) versions done)
         (executed c ++ migration_statements done ++ [(SqlMigration sql, [])])
         f).
Proof.
  induction l as [|m l IH];
    intros start c versions done v sql rest Hv Hlt Happ Hacc Hrej.
  - by destruct done.
  - cbn [enumerate_from apply_migrations]. cbn [enumerate_from] in Happ.
    rewrite applied_of_cons in Happ.
    destruct (entry_sql percent_format self m) as [s|] eqn:E.
    + destruct done as [|[u s'] done'].
      * injection Happ as -> -> _.
        erewrite bind_raise.
        2:{ unfold execute. simpl. rewrite Hrej. reflexivity. }
        exists NoResult. destruct c as [[? ? ? ? ?] ? ?]. simpl in *. subst.
        unfold after_migrations. simpl. by rewrite app_nil_r.
      * injection Happ as <- <- Happ.
        assert (backend s = true) as Hs by (apply (Hacc start); left).
        assert (start ∉ versions) as Hfresh by (intros Hin%Hlt; lia).
        erewrite bind_ok by (by apply execute_migration).
        erewrite bind_ok by (by apply (execute_record_version _ _ _ _ _ versions)).
        edestruct (IH (start + 1)%Z) as [f Hrun];
          [| | exact Happ | | exact Hrej | rewrite Hrun].
        -- reflexivity.
        -- intros w [->|Hin%Hlt]%elem_of_cons; lia.
        -- intros w s0 Hin. apply (Hacc w). by right.
        -- exists f. unfold after_migrations, migration_statements. simpl.
           rewrite reverse_cons, <- !app_assoc. reflexivity.
    + edestruct (IH (start + 1)%Z c versions) as [f Hrun];
        [done | | exact Happ | exact Hacc | exact Hrej |].
      * intros w Hin%Hlt. lia.
      * rewrite Hrun. by exists f.
Qed.

Lemma pending_slice (self : Store) version :
  (-1 <= version)%Z ->
  pending_of self version
  = statements_of self
      (enumerate_from (version + 1) (slice_from MIGRATIONS (version + 1))).
Proof. intros Hv. unfold pending. by rewrite slice_enumerate. Qed.

(** One run of [setup] on a backend that rejects a pending statement. *)
Lemma setup_stops backend (self : Store) (c : Cursor) done v sql rest :
  let versions := default [] (store_migrations (db c)) in
  (forall w, w ∈ versions -> (0 <= w)%Z) ->
  pending_of self (version_of versions) = done ++ (v, sql) :: rest ->
  (forall w s, (w, s) ∈ done -> backend s = true) ->
  backend sql = false ->
  exists f,
    setup_with backend self c =
    (Raise (DatabaseError sql),
     mkCursor (after_migrations (db c) versions done)
       (executed c ++ version_statements c ++ migration_statements done
          ++ [(SqlMigration sql, [])])
       f).
Proof.
  intros versions Hpos Hsplit Hacc Hrej. unfold setup, _cursor.
  destruct (read_version_run search_rows list_rows backend
              (mkCursor (db c) (executed c) NoResult) eq_refl)
    as [f1 Hread]. simpl in Hread.
  erewrite bind_ok by exact Hread. fold versions.
  pose proof (version_of_lower versions Hpos) as Hlow.
  rewrite pending_slice in Hsplit by done.
  match goal with
  | |- context [apply_migrations _ _ _ _ _ _ ?c1] =>
      destruct (apply_migrations_stops backend self
                  (slice_from MIGRATIONS (version_of versions + 1))
                  (version_of versions + 1)%Z c1 versions done v sql rest)
        as [f Hrun]
  end; try done.
  - intros w Hin%highest_version_bound. lia.
  - rewrite Hrun. exists f. unfold after_migrations, version_statements.
    simpl. by rewrite <- !app_assoc.
Qed.

(** The first statement a backend rejects, if any. *)
Lemma first_rejected (backend : string -> bool) (applied : list (Z * string)) :
  (forall v sql, (v, sql) ∈ applied -> backend sql = true)
  \/ exists done v sql rest,
       applied = done ++ (v, sql) :: rest
       /\ (forall w s, (w, s) ∈ done -> backend s = true)
       /\ backend sql = false.
Proof.
  induction applied as [|[v sql] applied IH].
  - left. by intros v sql ?%elem_of_nil.
  - destruct (backend sql) eqn:Hsql.
    + destruct IH as [Hall | (done & v' & sql' & rest & -> & Hdone & Hrej)].
      * left. intros w s [[= -> ->] | Hin]%elem_of_cons; eauto.
      * right. exists ((v, sql) :: done), v', sql', rest.
        split; [done |]. split; [| done].
        intros w s [[= -> ->] | Hin]%elem_of_cons; eauto.
    + right. exists [], v, sql, applied. split; [done |].
      split; [| done]. by intros w s ?%elem_of_nil.
Qed.

(** The indices of the applied entries grow along the list. *)
Lemma statements_of_sorted (self : Store) (l : list MigrationEntry) :
  forall start done todo,
    statements_of self (enumerate_from start l) = done ++ todo ->
    forall u s t s', (u, s) ∈ done -> (t, s') ∈ todo -> (u < t)%Z.
Proof.
  induction l as [|m l IH]; intros start done todo Happ u s t s' Hu Ht.
  - destruct done; [by apply elem_of_nil in Hu | done].
  - cbn [enumerate_from] in Happ. rewrite applied_of_cons in Happ.
    destruct (entry_sql percent_format self m) as [s0|] eqn:E;
      [| by eapply IH].
    destruct done as [|[u0 s1] done']; [by apply elem_of_nil in Hu |].
    injection Happ as <- <- Happ.
    apply elem_of_cons in Hu as [[= -> ->] | Hu]; [| by eapply IH].
    assert ((t, s') ∈ statements_of self (enumerate_from (start + 1) l)) as Hin
      by (rewrite Happ; apply elem_of_app; by right).
    apply elem_of_applied_of in Hin as (m' & Hin & _).
    apply enumerate_from_lookup in Hin. lia.
Qed.

(** What is left above a version that separates the applied entries. *)
Lemma statements_of_above (self : Store) (l : list MigrationEntry) w :
  forall start done todo,
    statements_of self (enumerate_from start l) = done ++ todo ->
    (forall u s, (u, s) ∈ done -> (u <= w)%Z) ->
    (forall t s, (t, s) ∈ todo -> (w < t)%Z) ->
    statements_of self
      (filter (fun e : Z * MigrationEntry => (w < e.1)%Z)
         (enumerate_from start l))
    = todo.
Proof.
  induction l as [|m l IH]; intros start done todo Happ Hdone Htodo.
  - by destruct done, todo.
  - cbn [enumerate_from] in *. rewrite applied_of_cons in Happ.
    destruct (entry_sql percent_format self m) as [s0|] eqn:E.
    + destruct done as [|[u0 s1] done'].
      * simpl in Happ. subst todo.
        rewrite filter_cons_True
          by (cbn [fst]; apply (Htodo start s0); left).
        rewrite applied_of_cons, E. f_equal.
        apply (IH (start + 1)%Z [] _ eq_refl).
        -- by intros u s ?%elem_of_nil.
        -- intros t s Hin. apply (Htodo t s). by right.
      * injection Happ as <- <- Happ.
        rewrite filter_cons_False
          by (cbn [fst]; specialize (Hdone start s0 ltac:(left)); lia).
        apply (IH (start + 1)%Z done' todo Happ); [| done].
        intros u s Hin. apply (Hdone u s). by right.
    + destruct (decide (w < start)%Z).
      * rewrite filter_cons_True by done. rewrite applied_of_cons, E.
        by apply (IH (start + 1)%Z done todo).
      * rewrite filter_cons_False by done.
        by apply (IH (start + 1)%Z done todo).
Qed.

Lemma recorded_nonneg (self : Store) versions version
    (applied rest : list (Z * string)) :
  (forall w, w ∈ versions -> (0 <= w)%Z) ->
  (-1 <= version)%Z ->
  pending_of self version = applied ++ rest ->
  forall w, w ∈ reverse applied.*1 ++ versions -> (0 <= w)%Z.
Proof.
  intros Hpos Hlow Hsplit w [Hw|Hw]%elem_of_app; [| by apply Hpos].
  apply elem_of_reverse, list_elem_of_fmap in Hw as ([w' s] & -> & Hw).
  assert ((w', s) ∈ pending_of self version) as Hin
    by (rewrite Hsplit; apply elem_of_app; by left).
  apply elem_of_pending in Hin as (Hlt & _). simpl. lia.
Qed.

(** Once a first part of the pending entries is recorded, the rest is
    what is pending. *)
Lemma pending_after_partial_run (self : Store) versions
    (done todo : list (Z * string)) :
  (forall w, w ∈ versions -> (0 <= w)%Z) ->
  pending_of self (version_of versions) = done ++ todo ->
  pending_of self (version_of (reverse done.*1 ++ versions)) = todo.
Proof.
  intros Hpos Hsplit.
  set (version := version_of versions) in *.
  set (versions' := reverse done.*1 ++ versions).
  pose proof (version_of_lower versions Hpos) as Hlow. fold version in Hlow.
  assert (-1 <= version_of versions')%Z as Hlow'.
  { apply version_of_lower. by eapply recorded_nonneg. }
  assert (version <= version_of versions')%Z as Hmono.
  { apply version_of_least; [| done]. intros w Hw.
    apply highest_version_bound. apply elem_of_app. by right. }
  pose proof Hsplit as Hslice. rewrite pending_slice in Hslice by done.
  assert (forall t s, (t, s) ∈ todo -> (version_of versions' < t)%Z) as Htodo.
  { intros t s Ht.
    assert (version < t)%Z as Hvt.
    { assert ((t, s) ∈ pending_of self version) as Hin
        by (rewrite Hsplit; apply elem_of_app; by right).
      by apply elem_of_pending in Hin as (Hlt & _). }
    enough (version_of versions' <= t - 1)%Z by lia.
    apply version_of_least; [| lia].
    intros w [Hw|Hw]%elem_of_app.
    - apply elem_of_reverse, list_elem_of_fmap in Hw as ([w' s0] & -> & Hw).
      pose proof (statements_of_sorted self _ _ _ _ Hslice w' s0 t s Hw Ht).
      simpl. lia.
    - apply highest_version_bound in Hw. fold version in Hw. lia. }
  unfold pending.
  rewrite <- (statements_of_above self _ (version_of versions') _ done todo Hslice).
  - rewrite slice_enumerate by done. rewrite list_filter_filter.
    f_equal. apply list_filter_iff. intros [t m]. simpl. lia.
  - intros u s Hu. apply highest_version_bound. apply elem_of_app. left.
    apply elem_of_reverse, list_elem_of_fmap. by exists (u, s).
  - done.
Qed.

(** X9. When the backend rejects the statement of a pending entry, [setup]
    raises the backend's error for that statement and stops there: the
    pending entries before it are applied and recorded, the rejected one
    is sent and not recorded, and nothing is sent after it. *)
Theorem setup_stops_at_rejected_migration backend (self : Store) (c : Cursor)
    done v sql rest :
  let versions := default [] (store_migrations (db c)) in
  (forall w, w ∈ versions -> (0 <= w)%Z) ->
  pending_of self (version_of versions) = done ++ (v, sql) :: rest ->
  (forall w s, (w, s) ∈ done -> backend s = true) ->
  backend sql = false ->
  exists c',
    setup_with backend self c = (Raise (DatabaseError sql), c')
    /\ store_migrations (db c') = Some (reverse done.*1 ++ versions)
    /\ (v ∉ reverse done.*1 ++ versions)
    /\ schema (db c') = schema (db c) ++ done.*2
    /\ executed c' =
       executed c ++ version_statements c ++ migration_statements done
         ++ [(SqlMigration sql, [])].
Proof.
  intros versions Hpos Hsplit Hacc Hrej.
  destruct (setup_stops backend self c done v sql rest Hpos Hsplit Hacc Hrej)
    as [f Hrun].
  eexists. split; [exact Hrun |]. split; [done |]. split; [| done].
  pose proof (version_of_lower versions Hpos) as Hlow.
  intros [Hin|Hin]%elem_of_app.
  - apply elem_of_reverse, list_elem_of_fmap in Hin as ([w s] & Heq & Hw).
    simpl in Heq. subst w.
    rewrite pending_slice in Hsplit by done.
    pose proof (statements_of_sorted self _ _ _ _ Hsplit v s v sql Hw
                  ltac:(left)).
    simpl in *. lia.
  - apply highest_version_bound in Hin.
    assert ((v, sql) ∈ pending_of self (version_of versions)) as Hp
      by (rewrite Hsplit; apply elem_of_app; right; left).
    apply elem_of_pending in Hp as (Hlt & _). fold versions in Hlt. lia.
Qed.

(** X10. [setup] raises nothing but the backend's rejection of the statement
    of a pending entry: with non-negative recorded versions it either
    returns or raises [DatabaseError] for such a statement. *)
Theorem setup_raises_only_rejected_statements backend (self : Store)
    (c : Cursor) :
  let versions := default [] (store_migrations (db c)) in
  (forall w, w ∈ versions -> (0 <= w)%Z) ->
  (exists c', setup_with backend self c = (Ok tt, c'))
  \/ (exists v sql c',
        (v, sql) ∈ pending_of self (version_of versions)
        /\ backend sql = false
        /\ setup_with backend self c = (Raise (DatabaseError sql), c')).
Proof.
  intros versions Hpos.
  destruct (first_rejected backend (pending_of self (version_of versions)))
    as [Hall | (done & v & sql & rest & Hsplit & Hdone & Hrej)].
  - left. destruct (setup_run search_rows list_rows backend MIGRATIONS
                      percent_format self c Hpos Hall) as [f Hrun].
    by eexists.
  - right.
    destruct (setup_stops backend self c done v sql rest Hpos Hsplit Hdone Hrej)
      as [f Hrun].
    exists v, sql. eexists. split; [| split; [done | exact Hrun]].
    rewrite Hsplit. apply elem_of_app. right. left.
Qed.

(** X11. On a database where a first part of the pending entries is recorded,
    as a run that stopped at a rejected statement leaves it, [setup]
    applies the other pending entries and nothing else; the database is
    then the one a single complete run gives. *)
Theorem setup_resumes_after_partial_run backend (self : Store)
    (c c' : Cursor) (done todo : list (Z * string)) :
  let versions := default [] (store_migrations (db c)) in
  (forall w, w ∈ versions -> (0 <= w)%Z) ->
  pending_of self (version_of versions) = done ++ todo ->
  db c' = after_migrations (db c) versions done ->
  (forall v sql, (v, sql) ∈ todo -> backend sql = true) ->
  exists c'',
    setup_with backend self c' = (Ok tt, c'')
    /\ db c'' =
       after_migrations (db c) versions (pending_of self (version_of versions))
    /\ executed c'' =
       executed c' ++ [(SqlSelectVersion, [])] ++ migration_statements todo.
Proof.
  intros versions Hpos Hsplit Hdb Hacc.
  pose proof (version_of_lower versions Hpos) as Hlow.
  assert (default [] (store_migrations (db c')) = reverse done.*1 ++ versions)
    as Hversions' by (by rewrite Hdb).
  pose proof (pending_after_partial_run self versions done todo Hpos Hsplit)
    as Hleft.
  destruct (setup_run search_rows list_rows backend MIGRATIONS percent_format
              self c') as [f Hrun].
  - rewrite Hversions'. by eapply recorded_nonneg.
  - rewrite Hversions', Hleft. exact Hacc.
  - rewrite Hversions', Hleft in Hrun.
    eexists. split; [exact Hrun |]. split.
    + cbn [db]. rewrite Hdb, Hsplit. unfold after_migrations. simpl.
      rewrite !fmap_app, reverse_app, <- !app_assoc. done.
    + cbn [executed]. by rewrite Hdb.
Qed.

Lemma enumerate_from_functional {A} (l : list A) start v x y :
  (v, x) ∈ enumerate_from start l -> (v, y) ∈ enumerate_from start l -> x = y.
Proof.
  revert start. induction l as [|z l IH]; intros start; simpl.
  - by intros ?%elem_of_nil.
  - intros [Hx | Hx]%elem_of_cons [Hy | Hy]%elem_of_cons.
    + congruence.
    + injection Hx as -> ->. apply enumerate_from_lookup in Hy. lia.
    + injection Hy as -> ->. apply enumerate_from_lookup in Hx. lia.
    + by eapply IH.
Qed.

(** X12. An entry that one store skips stays unapplied once a later entry is
    recorded: a run of [setup] that skips entry [i] and applies a later
    entry [j] returns, and a run for any other store after it, whatever
    the condition of entry [i] then says, applies only entries after [j]
    and leaves [i] as unrecorded as it was. *)
Theorem skipped_migration_is_not_applied_later backend (self1 self2 : Store)
    (c : Cursor) i m j sql_j :
  let versions := default [] (store_migrations (db c)) in
  let version := version_of versions in
  (forall w, w ∈ versions -> (0 <= w)%Z) ->
  (forall v sql, (v, sql) ∈ pending_of self1 version -> backend sql = true) ->
  (forall v sql, (v, sql) ∈ pending_of self2 version -> backend sql = true) ->
  (i, m) ∈ enumerate_from 0 MIGRATIONS ->
  entry_sql percent_format self1 m = None ->
  (j, sql_j) ∈ pending_of self1 version ->
  (i < j)%Z ->
  exists c1 c2 applied recorded,
    setup_with backend self1 c = (Ok tt, c1)
    /\ setup_with backend self2 c1 = (Ok tt, c2)
    /\ executed c2 =
       executed c1 ++ [(SqlSelectVersion, [])] ++ migration_statements applied
    /\ (forall u s, (u, s) ∈ applied -> (j < u)%Z)
    /\ store_migrations (db c2) = Some recorded
    /\ (i ∈ recorded <-> i ∈ versions).
Proof.
  intros versions version Hpos Hacc1 Hacc2 Hi Hskip Hj Hij.
  pose proof (version_of_lower versions Hpos) as Hlow. fold version in Hlow.
  destruct (setup_run search_rows list_rows backend MIGRATIONS percent_format
              self1 c Hpos Hacc1) as [f1 Hrun1].
  fold versions version in Hrun1.
  set (applied1 := pending_of self1 version) in *.
  set (versions1 := reverse applied1.*1 ++ versions).
  match type of Hrun1 with _ = (_, ?c) => set (c1 := c) in * end.
  assert (default [] (store_migrations (db c1)) = versions1) as Hv1
    by reflexivity.
  assert (forall w, w ∈ versions1 -> (0 <= w)%Z) as Hpos1.
  { apply (recorded_nonneg self1 versions version applied1 []); try done.
    by rewrite app_nil_r. }
  assert (j <= version_of versions1)%Z as Hj1.
  { apply highest_version_bound. apply elem_of_app. left.
    apply elem_of_reverse, list_elem_of_fmap. by exists (j, sql_j). }
  assert (version <= version_of versions1)%Z as Hmono.
  { apply version_of_least; [| pose proof (version_of_lower _ Hpos1); lia].
    intros w Hw. apply highest_version_bound. apply elem_of_app. by right. }
  destruct (setup_run search_rows list_rows backend MIGRATIONS percent_format
              self2 c1) as [f2 Hrun2].
  - by rewrite Hv1.
  - rewrite Hv1. intros v sql (Hlt & Hm)%elem_of_pending.
    apply (Hacc2 v). apply elem_of_pending. split; [lia | done].
  - rewrite Hv1 in Hrun2.
    exists c1. eexists.
    exists (pending_of self2 (version_of versions1)).
    eexists. split; [exact Hrun1 |]. split; [exact Hrun2 |].
    split; [done |]. split; [| split; [reflexivity |]].
    + intros u s (Hlt & _)%elem_of_pending. lia.
    + unfold versions1 in *. rewrite !elem_of_app, !elem_of_reverse.
      split; [| tauto].
      intros [Hin | [Hin | Hin]]; [| | done].
      * apply list_elem_of_fmap in Hin as ([u s] & -> & Hu).
        apply elem_of_pending in Hu as (Hlt & _). simpl in *. lia.
      * apply list_elem_of_fmap in Hin as ([u s] & -> & Hu).
        apply elem_of_pending in Hu as (_ & m' & Hm' & E). simpl in *.
        rewrite (enumerate_from_functional _ _ _ _ _ Hm' Hi) in E. congruence.
Qed.

End Setup.

(** *** Batches without a Put *)

Section Batch.

Set Default Proof Using "Type".

Context {V datetime Score Vec : Type}.

Variable search_rows :
  @Database V datetime Vec -> @Query V Vec -> list (@Row V datetime Score).
Variable list_rows : @Database V datetime Vec -> @Query V Vec -> list string.
Variable backend_accepts : string -> bool.
Variable get_text_at_path : V -> string -> list string.

#[local] Abbreviation Cursor := (@Cursor V datetime Score Vec).
#[local] Abbreviation Store := (@AsyncPostgresStore Vec).
#[local] Abbreviation Op := (@Op V).
#[local] Abbreviation run_batch :=
  (abatch search_rows list_rows backend_accepts get_text_at_path).

Definition is_put (op : Op) : bool :=
  match op with
  | OpPut _ => true
  | _ => false
  end.

Lemma put_ops_of_no_put (ops : list Op) start :
  Forall (fun op => is_put op = false) ops ->
  put_ops_of (enumerate start ops) = [].
Proof.
  intros Hops. revert start.
  induction Hops as [|op ops Hop _ IH]; intros start; [done |].
  cbn [enumerate]. unfold put_ops_of in *. cbn [omap list_omap]. simpl.
  destruct op; try done; apply IH.
Qed.

(** X13. A batch without a Put only reads: with an aligned embedder or none
    it returns its results, one slot per operation, sends the statements
    of the Gets, of the Searches and of the ListNamespaces and no other,
    and leaves the database as it found it.  The empty batch returns the
    empty list and sends nothing. *)
Theorem batch_without_put_only_reads (self : Store) (ops : list Op)
    (c : Cursor) :
  embedder_aligned self ->
  Forall (fun op => is_put op = false) ops ->
  exists results c',
    run_batch self ops c = (Ok results, c')
    /\ length results = length ops
    /\ db c' = db c
    /\ executed c' =
       executed c ++ get_statements ops ++ search_statements self ops
         ++ list_statements ops
    /\ (ops = [] -> results = [] /\ executed c' = executed c).
Proof.
  intros Hal Hops.
  destruct (read_phases_run search_rows list_rows backend_accepts self ops
              (mkCursor (db c) (executed c) NoResult) Hal)
    as (f1 & r1 & f2 & r2 & f3 & r3 & Hrun1 & Hrun2 & Hrun3 & Hlen & _).
  cbn [db executed] in *.
  exists r3. eexists. split; [| split; [exact Hlen |]].
  - unfold abatch. rewrite group_ops_spec. cbn [fst snd].
    assert (forall X : run Cursor (list Result),
              (if pipe self then X else X) = X) as -> by (by destruct (pipe self)).
    unfold _execute_batch, _cursor.
    cbn [grouped_get grouped_search grouped_list grouped_put].
    erewrite bind_ok.
    2:{ rewrite (group_or_default (get_ops_of (enumerate 0 ops))
                   (fun l => _batch_get_ops search_rows list_rows
                               backend_accepts self l
                               (replicate (length ops) RNone))
                   (ret (replicate (length ops) RNone))); [exact Hrun1 | done]. }
    erewrite bind_ok.
    2:{ rewrite (group_or_default (search_ops_of (enumerate 0 ops))
                   (fun l => _batch_search_ops search_rows list_rows
                               backend_accepts self l r1) (ret r1));
          [exact Hrun2 | apply batch_search_ops_nil]. }
    erewrite bind_ok.
    2:{ rewrite (group_or_default (list_ops_of (enumerate 0 ops))
                   (fun l => _batch_list_namespaces_ops search_rows list_rows
                               backend_accepts self l r2) (ret r2));
          [exact Hrun3 | done]. }
    rewrite put_ops_of_no_put by done. reflexivity.
  - cbn [db executed]. split; [done |]. split; [by rewrite <- !app_assoc |].
    intros ->. split; [by destruct r3 |].
    unfold get_statements, search_statements, list_statements. simpl.
    by rewrite !app_nil_r.
Qed.

End Batch.

End PostgresExtras.

(** ** The added facts on the data of the examples *)

Module MoreExamples.

Import Base Postgres Examples BaseExtras PostgresExtras.

(** *** Namespaces *)

Lemma validate_namespace_reports_first_bad_label_witness :
  _validate_namespace
    ([PyStr "langgraph"; PyStr "docs"] ++ PyStr "a.b" :: [PyInt 7])
  = Raise (InvalidNamespaceError (NsPeriod "a.b"))
  /\ ([PyStr "langgraph"; PyStr "docs"] <> [] ->
      _validate_namespace [PyStr "langgraph"; PyStr "docs"]
      = if decide (head [PyStr "langgraph"; PyStr "docs"]
                   = Some (PyStr "langgraph"))
        then Raise (InvalidNamespaceError NsReservedRoot)
        else Ok tt).
Proof.
  apply (validate_namespace_reports_first_bad_label
           [PyStr "langgraph"; PyStr "docs"] [PyInt 7] (PyStr "a.b")
           (NsPeriod "a.b")).
  - repeat constructor; apply label_error_None; reflexivity.
  - reflexivity.
Defined.

Lemma valid_namespace_prefix_and_child_witness :
  (forall n, 0 < n ->
             _validate_namespace (take n [PyStr "docs"; PyStr "u1"]) = Ok tt)
  /\ (forall label,
        _validate_namespace ([PyStr "docs"; PyStr "u1"] ++ [label]) = Ok tt
        <-> valid_label label).
Proof.
  apply (valid_namespace_prefix_and_child [PyStr "docs"; PyStr "u1"]).
  reflexivity.
Defined.

(** *** Items and their dictionaries *)

Definition decimal_digit (n : nat) : ascii := ascii_of_nat (48 + n mod 10).

Definition two_digits (n : nat) : string :=
  String (decimal_digit (n / 10)) (String (decimal_digit n) EmptyString).

Definition four_digits (n : nat) : string :=
  String (decimal_digit (n / 1000))
    (String (decimal_digit (n / 100)) (two_digits n)).

(** [datetime.isoformat] of a timestamp without microseconds. *)
Definition isoformat (d : iso_datetime) : string :=
  four_digits (year d) +:+ "-" +:+ two_digits (month d) +:+ "-"
  +:+ two_digits (day d) +:+ "T" +:+ two_digits (hour d) +:+ ":"
  +:+ two_digits (minute d) +:+ ":" +:+ two_digits (second d).

Definition new_year : iso_datetime := mkDatetime 2024 1 1 0 0 0.

(** An item updated after it was created. *)
Definition report : @Item Value iso_datetime :=
  mkItem (title "Q4") "r1" docs new_year noon.

Definition scored_report : @SearchItem Value iso_datetime ScoreZ :=
  mkSearchItem report (Some 7%Z).

Lemma Item_dict_round_trip_loses_updated_at_witness :
  Item_of_dict fromisoformat (Item_dict isoformat report)
  = Ok (mkItem (title "Q4") "r1" docs new_year new_year)
  /\ (Item_eq report
        (ObjItem (Score := ScoreZ)
           (mkItem (title "Q4") "r1" docs new_year new_year)) = true
      <-> noon = new_year).
Proof.
  apply (Item_dict_round_trip_loses_updated_at (Score := ScoreZ)
           fromisoformat isoformat report).
  reflexivity.
Defined.

Lemma SearchItem_dict_round_trip_witness :
  SearchItem_of_dict fromisoformat (SearchItem_dict isoformat scored_report)
  = Ok (mkSearchItem (mkItem (title "Q4") "r1" docs new_year new_year)
          (Some 7%Z)).
Proof.
  apply (SearchItem_dict_round_trip fromisoformat isoformat scored_report).
  reflexivity.
Defined.

(** The dictionary of the report, and what its round trip gives. *)
Example report_dict :
  Item_dict isoformat report
  = mkItemDict (title "Q4") "r1" docs "2024-01-01T00:00:00"
      "2024-06-01T12:00:00"
  /\ Item_eq report
       (ObjItem (Score := ScoreZ)
          (mkItem (title "Q4") "r1" docs new_year new_year)) = false.
Proof. split; vm_compute; reflexivity. Qed.

(** *** Query vectors *)

Definition hybrid (text : string) : @Query Value Vector :=
  (SqlSearch (mkSearchOp ["docs"] None 10 0 (Some text)) true,
   [PNull; PText "docs%"; PInt 10; PInt 0]).

(** Two requests for the same statement: the vector of the last one
    stays; a request beyond the statements raises. *)
Example query_vectors_scenario :
  splice_vectors [hybrid "one"; hybrid "two"]
    [((1, "two"), [3%Z]); ((1, "two"), [4%Z])]
  = Ok [hybrid "one";
        ((hybrid "two").1, [PVector [4%Z]; PText "docs%"; PInt 10; PInt 0])]
  /\ splice_vectors [hybrid "one"] [((0, "one"), [3%Z]); ((1, "two"), [3%Z])]
     = Raise IndexError
  /\ vector_params (V := Value)
       [("docs", "r1", "title", "one"); ("docs", "r2", "title", "two")]
       [[3%Z]]
     = [PText "docs"; PText "r1"; PText "title"; PVector [3%Z]].
Proof. repeat split. Qed.

(** *** A backend that has no vector extension *)

Definition without_extension (sql : string) : bool :=
  negb (String.eqb sql "CREATE EXTENSION vector").

Definition setup_without_extension (self : @AsyncPostgresStore Vector)
  : run (@Cursor Value iso_datetime ScoreZ Vector) unit :=
  setup search_rows list_rows without_extension MIGRATIONS percent_format self.

(** The cursor the failed run leaves. *)
Definition stopped_cursor : @Cursor Value iso_datetime ScoreZ Vector :=
  (setup_without_extension indexed_store new_cursor).2.

Lemma setup_stops_at_rejected_migration_witness :
  exists c',
    setup_without_extension indexed_store new_cursor
    = (Raise (DatabaseError "CREATE EXTENSION vector"), c')
    /\ store_migrations (db c') = Some (reverse [0%Z] ++ [])
    /\ (1%Z ∉ reverse [0%Z] ++ [])
    /\ schema (db c') = schema (db new_cursor) ++ ["CREATE TABLE store"]
    /\ executed c' =
       executed new_cursor ++ version_statements new_cursor
         ++ migration_statements [(0%Z, "CREATE TABLE store")]
         ++ [(SqlMigration "CREATE EXTENSION vector", [])].
Proof.
  apply (setup_stops_at_rejected_migration search_rows list_rows MIGRATIONS
           percent_format without_extension indexed_store new_cursor
           [(0%Z, "CREATE TABLE store")] 1 "CREATE EXTENSION vector"
           [(2%Z, "CREATE INDEX store_prefix_idx");
            (3%Z, "CREATE TABLE store_vectors (embedding vector(1))")]).
  - intros w Hw. by apply elem_of_nil in Hw.
  - reflexivity.
  - intros w s Hin. apply list_elem_of_singleton in Hin.
    injection Hin as -> ->. reflexivity.
  - reflexivity.
Defined.

Lemma setup_raises_only_rejected_statements_witness :
  (exists c', setup_without_extension plain_store migrated_once = (Ok tt, c'))
  \/ (exists v sql c',
        (v, sql) ∈ pending MIGRATIONS percent_format plain_store
                     (version_of [0%Z])
        /\ without_extension sql = false
        /\ setup_without_extension plain_store migrated_once
           = (Raise (DatabaseError sql), c')).
Proof.
  apply (setup_raises_only_rejected_statements search_rows list_rows MIGRATIONS
           percent_format without_extension plain_store migrated_once).
  intros w Hw. apply list_elem_of_singleton in Hw. subst w. done.
Defined.

Lemma setup_resumes_after_partial_run_witness :
  exists c'',
    setup_on indexed_store stopped_cursor = (Ok tt, c'')
    /\ db c'' =
       after_migrations (db new_cursor) []
         (pending MIGRATIONS percent_format indexed_store (version_of []))
    /\ executed c'' =
       executed stopped_cursor ++ [(SqlSelectVersion, [])]
         ++ migration_statements
              [(1%Z, "CREATE EXTENSION vector");
               (2%Z, "CREATE INDEX store_prefix_idx");
               (3%Z, "CREATE TABLE store_vectors (embedding vector(1))")].
Proof.
  apply (setup_resumes_after_partial_run search_rows list_rows MIGRATIONS
           percent_format backend_accepts indexed_store new_cursor
           stopped_cursor [(0%Z, "CREATE TABLE store")]).
  - intros w Hw. by apply elem_of_nil in Hw.
  - reflexivity.
  - reflexivity.
  - reflexivity.
Defined.

(** The failed run and the run after it, step by step. *)
Example setup_stops_and_resumes :
  (setup_without_extension indexed_store new_cursor).1
  = Raise (DatabaseError "CREATE EXTENSION vector")
  /\ store_migrations (db stopped_cursor) = Some [0%Z]
  /\ (setup_on indexed_store stopped_cursor).1 = Ok tt
  /\ store_migrations (db (setup_on indexed_store stopped_cursor).2)
     = Some [3; 2; 1; 0]%Z
  /\ db (setup_on indexed_store stopped_cursor).2
     = db (setup_on indexed_store new_cursor).2.
Proof. repeat split; vm_compute; reflexivity. Qed.

Lemma skipped_migration_is_not_applied_later_witness :
  exists c1 c2 applied recorded,
    setup_on plain_store new_cursor = (Ok tt, c1)
    /\ setup_on indexed_store c1 = (Ok tt, c2)
    /\ executed c2 =
       executed c1 ++ [(SqlSelectVersion, [])] ++ migration_statements applied
    /\ (forall u s, (u, s) ∈ applied -> (2 < u)%Z)
    /\ store_migrations (db c2) = Some recorded
    /\ (1%Z ∈ recorded <-> 1%Z ∈ @nil Z).
Proof.
  apply (skipped_migration_is_not_applied_later search_rows list_rows
           MIGRATIONS percent_format backend_accepts plain_store indexed_store
           new_cursor 1
           (MigrationObj
              (mkMigration "CREATE EXTENSION vector" None (Some has_index)))
           2 "CREATE INDEX store_prefix_idx").
  - intros w Hw. by apply elem_of_nil in Hw.
  - reflexivity.
  - reflexivity.
  - right. left.
  - reflexivity.
  - right. left.
  - reflexivity.
Defined.

(** A store that gets its index configuration after a first [setup], on
    a backend that accepts every statement: the statement of the vector
    extension is never sent, the one of the vector table is. *)
Example index_configured_after_setup :
  let first := (setup_on plain_store new_cursor).2 in
  let second := (setup_on indexed_store first).2 in
  store_migrations (db first) = Some [2; 0]%Z
  /\ store_migrations (db second) = Some [3; 2; 0]%Z
  /\ schema (db second)
     = ["CREATE TABLE store"; "CREATE INDEX store_prefix_idx";
        "CREATE TABLE store_vectors (embedding vector(1))"].
Proof. repeat split; vm_compute; reflexivity. Qed.

(** *** A batch of reads *)

Definition reads : list (@Op Value) :=
  [OpGet (mkGetOp docs "r1");
   OpSearch (mkSearchOp ["docs"] None 10 0 (Some "two"));
   OpList (mkListNamespacesOp None None 100 0)].

Lemma batch_without_put_only_reads_witness :
  exists results c',
    abatch_on indexed_store reads stored_cursor = (Ok results, c')
    /\ length results = length reads
    /\ db c' = db stored_cursor
    /\ executed c' =
       executed stored_cursor ++ get_statements reads
         ++ search_statements indexed_store reads ++ list_statements reads
    /\ (reads = [] -> results = [] /\ executed c' = executed stored_cursor).
Proof.
  apply (batch_without_put_only_reads search_rows list_rows backend_accepts
           get_text_at_path indexed_store reads stored_cursor).
  - exact aembed_documents_aligned.
  - repeat constructor.
Defined.

End MoreExamples.
